(** * The dynamic_if block of the block-dynamic-connection plugin

    A shallow embedding of
    [plugins/block-dynamic-connection/src/dynamic_if.ts] together with the
    part of the Blockly core API the mixin calls, and the properties of the
    slot-management algorithm stated about it. *)

From stdpp Require Import base option list strings pretty.
From Stdlib Require Import ZArith Lia Ascii.

Local Open Scope string_scope.
Local Open Scope Z_scope.
Local Open Scope nat_scope.
Local Open Scope list_scope.

(** ** JavaScript strings and numbers *)

Module Js.

(** [s.startsWith(p)]. *)
Fixpoint startsWith (p s : string) : bool :=
  match p, s with
  | EmptyString, _ => true
  | String a p', String c s' => bool_decide (a = c) && startsWith p' s'
  | String _ _, EmptyString => false
  end.

(** [s.includes(sub)]. *)
Fixpoint includes (s sub : string) : bool :=
  startsWith sub s ||
  match s with
  | EmptyString => false
  | String _ s' => includes s' sub
  end.

(** [s.split(sep)] for a one-character separator: never the empty array. *)
Fixpoint split (sep : ascii) (s : string) : list string :=
  match s with
  | EmptyString => [EmptyString]
  | String c s' =>
      if bool_decide (c = sep) then EmptyString :: split sep s'
      else match split sep s' with
           | x :: xs => String c x :: xs
           | [] => [String c EmptyString]
           end
  end.

(** Truthiness of a string: only the empty string is falsy. *)
Definition truthy (s : string) : bool :=
  match s with EmptyString => false | String _ _ => true end.

(** A [string] holds the UTF-8 encoding of the JavaScript string.  The
    white space [parseInt] skips (white space and line terminators) is, in
    one byte: TAB, LF, VT, FF, CR and SPACE; in two bytes: U+00A0; in three
    bytes: U+1680, U+2000 to U+200A, U+2028, U+2029, U+202F, U+205F, U+3000
    and U+FEFF. *)
Definition isWhiteSpace (c : ascii) : bool :=
  let n := nat_of_ascii c in
  (Nat.leb 9 n && Nat.leb n 13) || Nat.eqb n 32.

(** The first bytes of the white space of more than one byte. *)
Definition isLeadByte (c : ascii) : bool :=
  let n := nat_of_ascii c in
  Nat.eqb n 194 || Nat.eqb n 225 || Nat.eqb n 226 || Nat.eqb n 227 ||
  Nat.eqb n 239.

Definition isWhiteSpace2 (c1 c2 : ascii) : bool :=
  Nat.eqb (nat_of_ascii c1) 194 && Nat.eqb (nat_of_ascii c2) 160.

Definition isWhiteSpace3 (c1 c2 c3 : ascii) : bool :=
  let n1 := nat_of_ascii c1 in
  let n2 := nat_of_ascii c2 in
  let n3 := nat_of_ascii c3 in
  (Nat.eqb n1 225 && Nat.eqb n2 154 && Nat.eqb n3 128) ||
  (Nat.eqb n1 226 && Nat.eqb n2 128 &&
   ((Nat.leb 128 n3 && Nat.leb n3 138) || Nat.eqb n3 168 || Nat.eqb n3 169 ||
    Nat.eqb n3 175)) ||
  (Nat.eqb n1 226 && Nat.eqb n2 129 && Nat.eqb n3 159) ||
  (Nat.eqb n1 227 && Nat.eqb n2 128 && Nat.eqb n3 128) ||
  (Nat.eqb n1 239 && Nat.eqb n2 187 && Nat.eqb n3 191).

Definition digitValue (c : ascii) : option Z :=
  let n := nat_of_ascii c in
  if Nat.leb 48 n && Nat.leb n 57 then Some (Z.of_nat (n - 48)) else None.

Fixpoint skipWhiteSpace (s : string) : string :=
  match s with
  | String c1 s1 =>
      if isWhiteSpace c1 then skipWhiteSpace s1
      else if isLeadByte c1 then
        match s1 with
        | String c2 s2 =>
            if isWhiteSpace2 c1 c2 then skipWhiteSpace s2
            else match s2 with
                 | String c3 s3 =>
                     if isWhiteSpace3 c1 c2 c3 then skipWhiteSpace s3 else s
                 | EmptyString => s
                 end
        | EmptyString => s
        end
      else s
  | EmptyString => s
  end.

(** The decimal digits at the front of [s], accumulated into [acc];
    [seen] records whether there was at least one. *)
Fixpoint digits (s : string) (seen : bool) (acc : Z) : option Z :=
  match s with
  | String c s' =>
      match digitValue c with
      | Some d => digits s' true (10 * acc + d)%Z
      | None => if seen then Some acc else None
      end
  | EmptyString => if seen then Some acc else None
  end.

(** [parseInt(s, 10)]; [None] is NaN.  The value is the integer the
    digits spell.  A JavaScript number is that integer when it is a safe
    integer, of magnitude below 2^53; a longer run of digits is rounded to
    a double there, which [Z] does not follow, so the statements about a
    value that was read carry that bound. *)
Definition parseInt (s : string) : option Z :=
  match skipWhiteSpace s with
  | String "-" s' => Z.opp <$> digits s' false 0%Z
  | String "+" s' => digits s' false 0%Z
  | s' => digits s' false 0%Z
  end.

(** [x || 0] for a number [x]: NaN and 0 are falsy. *)
Definition orZero (x : option Z) : Z := default 0%Z x.

(** Truthiness of a reference that is an object, null or undefined. *)
Definition defined {A} (x : option A) : bool :=
  match x with Some _ => true | None => false end.

(** Truthiness of a number that is not NaN. *)
Definition nonzero (z : Z) : bool := negb (Z.eqb z 0).

End Js.

(** ** The Blockly core objects the block uses *)

Module Blockly.

(** [Blockly.ConnectionType]. *)
Inductive ConnectionType :=
  | INPUT_VALUE | OUTPUT_VALUE | NEXT_STATEMENT | PREVIOUS_STATEMENT.

#[global] Instance ConnectionType_eq_dec : EqDecision ConnectionType.
Proof. solve_decision. Defined.

(** A connection of another block, as this block sees it through
    [targetConnection]: its identity, its type, its check list
    ([getCheck()], [None] for null), and
    [getSourceBlock().isInsertionMarker()]. *)
Record Peer := mkPeer {
  peerId : nat;
  peerType : ConnectionType;
  peerCheck : option (list string);
  isInsertionMarker : bool
}.

(** A connection of this block.  [connId] is the identity of the object:
    [==] on connections compares it.  [check] is the list [setCheck] has
    recorded, [None] when there is none. *)
Record Connection := mkConnection {
  connId : nat;
  type : ConnectionType;
  check : option (list string);
  targetConnection : option Peer
}.

(** An input of the block.  The block only has value and statement inputs,
    which always carry a connection. *)
Record Input := mkInput {
  name : string;
  connection : Connection
}.

(** An XML element, by its attributes. *)
Record Element := mkElement {
  tagName : string;
  attributes : list (string * string)
}.

Definition getAttribute (e : Element) (a : string) : option string :=
  (λ r, r.2.2) <$> list_find (λ kv, kv.1 = a) (attributes e).

Definition setAttribute (a v : string) (e : Element) : Element :=
  mkElement (tagName e)
    (if Js.defined (getAttribute e a)
     then (λ kv, if bool_decide (kv.1 = a) then (a, v) else kv) <$> attributes e
     else attributes e ++ [(a, v)]).

End Blockly.

Import Blockly.

(** The block: the fields of [Blockly.Block] the mixin reads and writes,
    the two counters of the mixin, and the allocator of connection
    identities ([connCounter] is the identity the next new connection
    gets).  Field labels, checks, tooltips and styles do not influence the
    slot list and are left out. *)
Record DynamicIfBlock := mkBlock {
  inputList : list Input;
  nextConnection : option Connection;
  previousConnection : option Connection;
  elseifCount : Z;
  elseCount : Z;
  connCounter : nat
}.

Definition withInputs (l : list Input) (b : DynamicIfBlock) : DynamicIfBlock :=
  mkBlock l (nextConnection b) (previousConnection b)
          (elseifCount b) (elseCount b) (connCounter b).

Definition withCounts (n e : Z) (b : DynamicIfBlock) : DynamicIfBlock :=
  mkBlock (inputList b) (nextConnection b) (previousConnection b)
          n e (connCounter b).

(** ** Methods of [Blockly.Block] and [Blockly.Connection]

    A result of type [option] is [None] when the call throws. *)

(** [makeConnection_]: a new, unconnected connection object. *)
Definition makeConnection (ty : ConnectionType) (b : DynamicIfBlock)
  : DynamicIfBlock * Connection :=
  (mkBlock (inputList b) (nextConnection b) (previousConnection b)
           (elseifCount b) (elseCount b) (S (connCounter b)),
   mkConnection (connCounter b) ty None None).

(** [appendInput]: the input is pushed at the end of [inputList]; names are
    not checked for duplicates. *)
Definition appendInput (ty : ConnectionType) (nm : string) (b : DynamicIfBlock)
  : DynamicIfBlock * Input :=
  let '(b1, c) := makeConnection ty b in
  let input := mkInput nm c in
  (withInputs (inputList b1 ++ [input]) b1, input).

Definition appendValueInput := appendInput INPUT_VALUE.
Definition appendStatementInput := appendInput NEXT_STATEMENT.

Definition withCheck (chk : option (list string)) (input : Input) : Input :=
  mkInput (name input)
    (mkConnection (connId (connection input)) (type (connection input)) chk
                  (targetConnection (connection input))).

(** [input.setCheck(check)] with a string, chained on the append call that
    has just returned [input]: the input is the last of the list and is not
    connected, so the one-element check list is recorded and nothing is
    bumped out.  The call returns the input. *)
Definition setCheck (chk : string) (r : DynamicIfBlock * Input)
  : DynamicIfBlock * Input :=
  let '(b, input) := r in
  let input := withCheck (Some [chk]) input in
  (withInputs (removelast (inputList b) ++ [input]) b, input).

(** [setNextStatement(true)] and [setPreviousStatement(true)]. *)
Definition setNextStatement (b : DynamicIfBlock) : DynamicIfBlock :=
  match nextConnection b with
  | Some _ => b
  | None =>
      let '(b1, c) := makeConnection NEXT_STATEMENT b in
      mkBlock (inputList b1) (Some c) (previousConnection b1)
              (elseifCount b1) (elseCount b1) (connCounter b1)
  end.

Definition setPreviousStatement (b : DynamicIfBlock) : DynamicIfBlock :=
  match previousConnection b with
  | Some _ => b
  | None =>
      let '(b1, c) := makeConnection PREVIOUS_STATEMENT b in
      mkBlock (inputList b1) (nextConnection b1) (Some c)
              (elseifCount b1) (elseCount b1) (connCounter b1)
  end.

(** [getInput(name)]: the first input of that name, or null. *)
Definition getInput (nm : string) (b : DynamicIfBlock) : option Input :=
  snd <$> list_find (λ input, name input = nm) (inputList b).

(** [removeInput(name)]: the first input of that name is disposed and
    spliced out; whatever was attached to it is unplugged, so it is no
    longer a target of this block.  Throws when there is none. *)
Definition removeInput (nm : string) (b : DynamicIfBlock)
  : option DynamicIfBlock :=
  '(i, _) ← list_find (λ input, name input = nm) (inputList b);
  Some (withInputs (delete i (inputList b)) b).

(** [moveNumberedInputBefore(inputIndex, refIndex)]. *)
Definition moveNumberedInputBefore (inputIndex refIndex : nat)
    (b : DynamicIfBlock) : option DynamicIfBlock :=
  let l := inputList b in
  if bool_decide (inputIndex = refIndex) then None
  else if bool_decide (length l ≤ inputIndex) then None
  else if bool_decide (length l < refIndex) then None
  else
    input ← l !! inputIndex;
    let l1 := delete inputIndex l in
    let r := if bool_decide (inputIndex < refIndex) then refIndex - 1
             else refIndex in
    Some (withInputs (take r l1 ++ input :: drop r l1) b).

(** The search loop of [moveInputBefore]: [i] is the index of the head of
    [l]; an index that is still -1 is [None].  The loop stops as soon as
    both indices are known. *)
Fixpoint findBoth (nm refName : string) (l : list Input) (i : nat)
    (inputIndex refIndex : option nat) : option nat * option nat :=
  match l with
  | [] => (inputIndex, refIndex)
  | input :: l' =>
      if bool_decide (name input = nm) then
        match refIndex with
        | Some _ => (Some i, refIndex)
        | None => findBoth nm refName l' (S i) (Some i) refIndex
        end
      else if Js.truthy refName && bool_decide (name input = refName) then
        match inputIndex with
        | Some _ => (inputIndex, Some i)
        | None => findBoth nm refName l' (S i) inputIndex (Some i)
        end
      else findBoth nm refName l' (S i) inputIndex refIndex
  end.

(** [moveInputBefore(name, refName)] with a string [refName]. *)
Definition moveInputBefore (nm refName : string) (b : DynamicIfBlock)
  : option DynamicIfBlock :=
  if bool_decide (nm = refName) then Some b
  else
    let refIndex0 :=
      if Js.truthy refName then None else Some (length (inputList b)) in
    match findBoth nm refName (inputList b) 0 None refIndex0 with
    | (Some inputIndex, Some refIndex) =>
        moveNumberedInputBefore inputIndex refIndex b
    | _ => None
    end.

(** [ConnectionChecker.doSafetyChecks], the part that tells connections
    apart by their kind: a superior connection takes the inferior
    connection of the opposite type.  Its other tests (a block onto
    itself, another workspace, shadow parents) do not arise between a slot
    of this block and a connection of another block of the workspace. *)
Definition doSafetyChecks (a b : ConnectionType) : bool :=
  match a, b with
  | INPUT_VALUE, OUTPUT_VALUE | OUTPUT_VALUE, INPUT_VALUE
  | NEXT_STATEMENT, PREVIOUS_STATEMENT
  | PREVIOUS_STATEMENT, NEXT_STATEMENT => true
  | _, _ => false
  end.

(** [ConnectionChecker.doTypeChecks]: two check lists are compatible when
    one of them is null or they have an entry in common. *)
Definition doTypeChecks (a b : option (list string)) : bool :=
  match a, b with
  | Some l1, Some l2 => existsb (λ x, bool_decide (x ∈ l2)) l1
  | _, _ => true
  end.

(** [ConnectionChecker.canConnect(c, p, false)]. *)
Definition canConnect (c : Connection) (p : Peer) : bool :=
  doSafetyChecks (type c) (peerType p) &&
  doTypeChecks (check c) (peerCheck p).

Definition setTarget (t : option Peer) (input : Input) : Input :=
  mkInput (name input)
    (mkConnection (connId (connection input)) (type (connection input))
                  (check (connection input)) t).

Definition connectedTo (p : Peer) (c : Connection) : bool :=
  match targetConnection c with
  | Some q => bool_decide (peerId q = peerId p)
  | None => false
  end.

(** [c.connect(p)] for the connection [c] of this block whose identity is
    [cid]: nothing happens when the two are already connected or the
    checker refuses; otherwise [p] is first disconnected from wherever it
    is attached, whatever [c] held is bumped out, and [c] holds [p]. *)
Definition connect (cid : nat) (p : Peer) (b : DynamicIfBlock)
  : DynamicIfBlock :=
  match list_find (λ input, connId (connection input) = cid) (inputList b) with
  | None => b
  | Some (_, this) =>
      if connectedTo p (connection this) then b
      else if canConnect (connection this) p then
        withInputs
          ((λ input,
              if bool_decide (connId (connection input) = cid)
              then setTarget (Some p) input
              else if connectedTo p (connection input)
                   then setTarget None input
                   else input) <$> inputList b) b
      else b
  end.

(** ** The mixin [DYNAMIC_IF_MIXIN] *)

Record CaseConnectionPair := mkCaseConnectionPair {
  ifTarget : option Peer;
  doTarget : option Peer
}.

Record CaseInputPair := mkCaseInputPair {
  ifInput : Input;
  doInput : Input
}.

(** A block object before [init]: no inputs, the mixin's default counts. *)
Definition newBlock : DynamicIfBlock := mkBlock [] None None 0 0 0.

Definition init (b : DynamicIfBlock) : DynamicIfBlock :=
  let b := (setCheck "Boolean" (appendValueInput "IF0" b)).1 in
  let b := (appendStatementInput "DO0" b).1 in
  let b := setNextStatement b in
  setPreviousStatement b.

Definition findInputIndexForConnection (c : Connection) (b : DynamicIfBlock)
  : option nat :=
  fst <$> list_find (λ input, connId (connection input) = connId c)
                    (inputList b).

(** [insertElseIf(index, id)], with [id] already turned into a string.
    Reading [.name] of an input that is not there throws. *)
Definition insertElseIf (index : nat) (id : string) (b : DynamicIfBlock)
  : option (DynamicIfBlock * CaseInputPair) :=
  let '(b, ifI) := setCheck "Boolean" (appendValueInput ("IF" +:+ id) b) in
  let '(b, doI) := appendStatementInput ("DO" +:+ id) b in
  r ← inputList b !! index;
  b ← moveInputBefore ("IF" +:+ id) (name r) b;
  r ← inputList b !! (index + 1);
  b ← moveInputBefore ("DO" +:+ id) (name r) b;
  Some (b, mkCaseInputPair ifI doI).

(** [onPendingConnection(connection)]; [uid] is what
    [Blockly.utils.idGenerator.genUid()] returns if it is called. *)
Definition onPendingConnection (c : Connection) (uid : string)
    (b : DynamicIfBlock) : option DynamicIfBlock :=
  let b :=
    if bool_decide (type c = NEXT_STATEMENT) && negb (Js.defined (getInput "ELSE" b))
    then (appendStatementInput "ELSE" b).1
    else b in
  match findInputIndexForConnection c b with
  | None => Some b
  | Some inputIndex =>
      input ← inputList b !! inputIndex;
      if Js.defined (targetConnection c) && Js.includes (name input) "IF" then
        match inputList b !! (inputIndex + 2) with
        | None => fst <$> insertElseIf (inputIndex + 2) uid b
        | Some nextIfInput =>
            if bool_decide (name nextIfInput = "ELSE")
            then fst <$> insertElseIf (inputIndex + 2) uid b
            else
              match targetConnection (connection nextIfInput) with
              | Some nextIfConnection =>
                  if negb (isInsertionMarker nextIfConnection)
                  then fst <$> insertElseIf (inputIndex + 2) uid b
                  else Some b
              | None => Some b
              end
        end
      else Some b
  end.

(** [collectTargetCaseConns]: the loop reads the inputs two by two, at
    [i] and [i + 1] for [i = 0, 2, ...] while [i < length - 1]. *)
Fixpoint collectPairs (l : list Input) : list CaseConnectionPair :=
  match l with
  | ifI :: doI :: l' =>
      let ifT := targetConnection (connection ifI) in
      let doT := targetConnection (connection doI) in
      if negb (Js.defined ifT) && negb (Js.defined doT) then collectPairs l'
      else mkCaseConnectionPair ifT doT :: collectPairs l'
  | _ => []
  end.

Definition collectTargetCaseConns (b : DynamicIfBlock)
  : list CaseConnectionPair :=
  collectPairs (inputList b).

(** The loop of [deleteDynamicInputs], from index [i] downwards. *)
Fixpoint deleteFrom (i : nat) (b : DynamicIfBlock) : option DynamicIfBlock :=
  match i with
  | O => Some b
  | S i' =>
      if bool_decide (2 ≤ i) then
        input ← inputList b !! i;
        b ← removeInput (name input) b;
        deleteFrom i' b
      else Some b
  end.

Definition deleteDynamicInputs (b : DynamicIfBlock) : option DynamicIfBlock :=
  deleteFrom (length (inputList b) - 1) b.

(** The body of the loop of [addCaseInputs] for case number [i]. *)
Definition addCaseInput (i : nat) (tc : CaseConnectionPair)
    (b : DynamicIfBlock) : option DynamicIfBlock :=
  '(b, ins) ←
    match getInput ("IF" +:+ pretty i) b, getInput ("DO" +:+ pretty i) b with
    | Some ifI, Some doI => Some (b, mkCaseInputPair ifI doI)
    | _, _ => insertElseIf (i * 2) (pretty i) b
    end;
  let b := match ifTarget tc with
           | Some t => connect (connId (connection (ifInput ins))) t b
           | None => b
           end in
  let b := match doTarget tc with
           | Some t => connect (connId (connection (doInput ins))) t b
           | None => b
           end in
  Some b.

(** The loop of [addCaseInputs], from case number [i] on. *)
Fixpoint addCaseInputsFrom (i : nat) (targetConns : list CaseConnectionPair)
    (b : DynamicIfBlock) : option DynamicIfBlock :=
  match targetConns with
  | [] => Some b
  | tc :: rest =>
      b ← addCaseInput i tc b;
      addCaseInputsFrom (S i) rest b
  end.

Definition addCaseInputs (targetConns : list CaseConnectionPair)
    (b : DynamicIfBlock) : option DynamicIfBlock :=
  addCaseInputsFrom 0 targetConns b.

Definition addElseInput (targetElseConn : Peer) (b : DynamicIfBlock)
  : DynamicIfBlock :=
  let '(b, input) := appendStatementInput "ELSE" b in
  connect (connId (connection input)) targetElseConn b.

Definition finalizeConnections (b : DynamicIfBlock) : option DynamicIfBlock :=
  let targetCaseConns := collectTargetCaseConns b in
  let targetElseConn : option Peer :=
    input ← getInput "ELSE" b; targetConnection (connection input) in
  b ← deleteDynamicInputs b;
  b ← addCaseInputs targetCaseConns b;
  let b := match targetElseConn with
           | Some t => addElseInput t b
           | None => b
           end in
  Some (withCounts
          (Z.max (Z.of_nat (length targetCaseConns) - 1) 0)
          (if Js.defined targetElseConn then 1 else 0)%Z b).

(** [mutationToDom]: the block after the call and the element returned
    ([None] is null).  Disabling and enabling events around the rebuild
    does not touch the block. *)
Definition mutationToDom (b : DynamicIfBlock)
  : option (DynamicIfBlock * option Element) :=
  b ← finalizeConnections b;
  if negb (Js.nonzero (elseifCount b)) && negb (Js.nonzero (elseCount b))
  then Some (b, None)
  else
    let container := mkElement "mutation" [] in
    let container :=
      if Js.nonzero (elseifCount b)
      then setAttribute "elseif" (pretty (elseifCount b)) container
      else container in
    let container :=
      if Js.nonzero (elseCount b)
      then setAttribute "else" "1" container
      else container in
    Some (b, Some container).

(** [deserializeInputs]: the legacy encoding. *)
Definition deserializeInputs (xmlElement : Element) (b : DynamicIfBlock)
  : option DynamicIfBlock :=
  b ←
    match getAttribute xmlElement "inputs" with
    | Some inputs =>
        if Js.truthy inputs then
          let inputNumbers := Js.split "," inputs in
          b ← (if Js.defined (getInput "IF0" b) then removeInput "IF0" b
               else Some b);
          b ← (if Js.defined (getInput "DO0" b) then removeInput "DO0" b
               else Some b);
          Some (foldl (λ b n,
                         let b := (setCheck "Boolean"
                                     (appendValueInput ("IF" +:+ n) b)).1 in
                         (appendStatementInput ("DO" +:+ n) b).1)
                      b inputNumbers)
        else Some b
    | None => Some b
    end;
  Some (if bool_decide (getAttribute xmlElement "else" = Some "true")
        then (appendStatementInput "ELSE" b).1
        else b).

(** [deserializeCounts]: the canonical encoding. *)
Definition deserializeCounts (xmlElement : Element) (b : DynamicIfBlock)
  : DynamicIfBlock :=
  let n := Js.orZero (Js.parseInt (default "0" (getAttribute xmlElement "elseif"))) in
  let e := Js.orZero (Js.parseInt (default "0" (getAttribute xmlElement "else"))) in
  let b := withCounts n e b in
  let b := foldl (λ b i,
                    let b := (setCheck "Boolean"
                                (appendValueInput ("IF" +:+ pretty i) b)).1 in
                    (appendStatementInput ("DO" +:+ pretty i) b).1)
                 b (seq 1 (Z.to_nat n)) in
  if Js.nonzero e then (appendStatementInput "ELSE" b).1 else b.

Definition domToMutation (xmlElement : Element) (b : DynamicIfBlock)
  : option DynamicIfBlock :=
  match getAttribute xmlElement "inputs" with
  | Some inputs =>
      if Js.truthy inputs then deserializeInputs xmlElement b
      else Some (deserializeCounts xmlElement b)
  | None => Some (deserializeCounts xmlElement b)
  end.

(** ** Reading a block *)

Definition slotNames (b : DynamicIfBlock) : list string :=
  name <$> inputList b.

Definition connIdOf (input : Input) : nat := connId (connection input).

Definition slotConnIds (b : DynamicIfBlock) : list nat :=
  connIdOf <$> inputList b.

(** What a slot shows: its name, its kind and what is attached to it.  The
    identity of the connection object is not part of it: a rebuild makes
    new objects for the slots it adds again. *)
Definition slotView (input : Input) : string * ConnectionType * option Peer :=
  (name input, type (connection input), targetConnection (connection input)).

Definition shape (b : DynamicIfBlock)
  : list (string * ConnectionType * option Peer) :=
  slotView <$> inputList b.

(** ** Well-formed slot lists

    The slot list of the data model: case pairs, each a Condition slot
    ["IF" + id] followed by its Branch slot ["DO" + id], then at most one
    Else slot. *)

Record Case := mkCase {
  caseId : string;
  ifConn : nat;
  ifAttached : option Peer;
  doConn : nat;
  doAttached : option Peer
}.

Definition ifSlot (c : Case) : Input :=
  mkInput ("IF" +:+ caseId c)
    (mkConnection (ifConn c) INPUT_VALUE (Some ["Boolean"]) (ifAttached c)).

Definition doSlot (c : Case) : Input :=
  mkInput ("DO" +:+ caseId c)
    (mkConnection (doConn c) NEXT_STATEMENT None (doAttached c)).

Definition caseSlots (cs : list Case) : list Input :=
  c ← cs; [ifSlot c; doSlot c].

Definition elseSlot (e : nat * option Peer) : Input :=
  mkInput "ELSE" (mkConnection e.1 NEXT_STATEMENT None e.2).

Definition elseSlots (e : option (nat * option Peer)) : list Input :=
  option_list (elseSlot <$> e).

Definition populated (c : Case) : bool :=
  Js.defined (ifAttached c) || Js.defined (doAttached c).

Definition casePair (c : Case) : CaseConnectionPair :=
  mkCaseConnectionPair (ifAttached c) (doAttached c).

(** The peers attached to a list of inputs. *)
Definition attachedPeers (l : list Input) : list Peer :=
  omap (λ input, targetConnection (connection input)) l.

(** An attached peer is one the connection checker lets the slot take. *)
Definition peerFits (input : Input) : Prop :=
  match targetConnection (connection input) with
  | Some p => canConnect (connection input) p = true
  | None => True
  end.

Record wellFormed (cs : list Case) (e : option (nat * option Peer))
    (b : DynamicIfBlock) : Prop := {
  wf_slots : inputList b = caseSlots cs ++ elseSlots e;
  wf_first : cs ≠ [];
  wf_ids : NoDup (caseId <$> cs);
  wf_conns : NoDup (slotConnIds b);
  wf_fresh : Forall (λ n, n < connCounter b) (slotConnIds b);
  wf_peers : NoDup (peerId <$> attachedPeers (inputList b));
  wf_fits : Forall peerFits (inputList b)
}.

(** ** Notions used in the statements *)

(** The empty pair [insertElseIf] and [addCaseInputs] make: its two
    connections are the next two the block allocates. *)
Definition newCase (id : string) (n : nat) : Case := mkCase id n None (S n) None.

(** [connect] takes the peer off the slot that held it. *)
Definition detach (p : Peer) (input : Input) : Input :=
  if connectedTo p (connection input) then setTarget None input else input.

(** Peers of a recorded pair, and of the slots of cases. *)
Definition pairPeers (r : CaseConnectionPair) : list Peer :=
  option_list (ifTarget r) ++ option_list (doTarget r).

(** A case with nothing attached, and with the attachments of a recorded
    pair. *)
Definition cleared (c : Case) : Case :=
  mkCase (caseId c) (ifConn c) None (doConn c) None.

Definition withAttached (r : CaseConnectionPair) (c : Case) : Case :=
  mkCase (caseId c) (ifConn c) (ifTarget r) (doConn c) (doTarget r).

(** The peers of a recorded pair are ones the connection checker lets the
    two slots take: an output compatible with the check [Boolean], and a
    previous-statement connection. *)
Definition pairFits (r : CaseConnectionPair) : Prop :=
  (∀ p, ifTarget r = Some p →
        peerType p = OUTPUT_VALUE ∧
        doTypeChecks (Some ["Boolean"]) (peerCheck p) = true) ∧
  (∀ p, doTarget r = Some p → peerType p = PREVIOUS_STATEMENT).

(** What is attached to the pair the deletion kept is what the next
    recorded pair holds, if anything is attached to it at all. *)
Definition covered (lo : Case) (todo : list CaseConnectionPair) : Prop :=
  populated lo = false ∨ head todo = Some (casePair lo).

(** The kept pair after the cases [i, i + n) have been added: it has been
    taken as one of them if its number is among them, and is empty
    otherwise. *)
Definition leftoverAfter (i n : nat) (lo : option Case) : option Case :=
  c ← lo;
  if bool_decide (caseId c ∈ (pretty <$> seq i n)) then None
  else Some (cleared c).

(** The rebuild loop touches the slot list and the allocator only. *)
Definition sameFields (b b' : DynamicIfBlock) : Prop :=
  nextConnection b' = nextConnection b ∧
  previousConnection b' = previousConnection b ∧
  elseifCount b' = elseifCount b ∧
  elseCount b' = elseCount b.

(** The invariant of the loop of [addCaseInputs] before case [i]: the
    cases [CS] numbered [0 .. i - 1] are in place, followed by the kept pair
    [LO] if it has not been taken yet, and [todo] is still to be attached. *)
Record rebuilding (i : nat) (todo : list CaseConnectionPair)
    (CS : list Case) (LO : option Case) (b : DynamicIfBlock) : Prop := {
  rb_slots : inputList b = caseSlots CS ++ caseSlots (option_list LO);
  rb_ids : caseId <$> CS = pretty <$> seq 0 i;
  rb_conns : NoDup (slotConnIds b);
  rb_fresh : Forall (λ n, n < connCounter b) (slotConnIds b);
  rb_peers : NoDup (peerId <$> (((casePair <$> CS) ++ todo) ≫= pairPeers));
  rb_fits : Forall pairFits todo;
  rb_left : match LO with
            | None => True
            | Some lo => (caseId lo ∉ (pretty <$> seq 0 i)) ∧ covered lo todo
            end
}.

(** Attaching a recorded pair to the two slots of a case. *)
Definition attachPair (cI cD : nat) (r : CaseConnectionPair)
    (b : DynamicIfBlock) : DynamicIfBlock :=
  let b := match ifTarget r with Some t => connect cI t b | None => b end in
  match doTarget r with Some t => connect cD t b | None => b end.

(** [detach] for a side of a recorded pair that may hold nothing. *)
Definition detachOpt (o : option Peer) (input : Input) : Input :=
  match o with Some p => detach p input | None => input end.

(** The connections of the two slots of a case. *)
Definition caseConns (c : Case) : list nat := [ifConn c; doConn c].

(** What [collectTargetCaseConns] records: the populated cases, in order. *)
Definition recorded (cs : list Case) : list CaseConnectionPair :=
  casePair <$> filter (λ c, populated c = true) cs.

(** What is attached to the Else slot, if there is one. *)
Definition elseTarget (e : option (nat * option Peer)) : option Peer :=
  e ≫= snd.

(** The [k]-th pair of [b] is named [IFk]/[DOk] and holds the two sides
    of [r], each on its own side. *)
Definition caseAt (b : DynamicIfBlock) (k : nat) (r : CaseConnectionPair) : Prop :=
  ∃ ifI doI,
    inputList b !! (2 * k) = Some ifI ∧
    inputList b !! (2 * k + 1) = Some doI ∧
    slotView ifI = ("IF" +:+ pretty k, INPUT_VALUE, ifTarget r) ∧
    slotView doI = ("DO" +:+ pretty k, NEXT_STATEMENT, doTarget r).

(** The first statement of [onPendingConnection] appends an Else slot. *)
Definition elseWanted (c : Connection) (b : DynamicIfBlock) : bool :=
  bool_decide (type c = NEXT_STATEMENT) && negb (Js.defined (getInput "ELSE" b)).

(** The block after [insertElseIf(index, id)] when nothing is named like
    the new pair: the pair sits at [index]. *)
Definition withCaseAt (index : nat) (id : string) (b : DynamicIfBlock)
  : DynamicIfBlock :=
  mkBlock (take index (inputList b) ++
           caseSlots [newCase id (connCounter b)] ++
           drop index (inputList b))
          (nextConnection b) (previousConnection b)
          (elseifCount b) (elseCount b) (S (S (connCounter b))).

(** No slot has the empty name, which [moveInputBefore] would take for a
    missing argument. *)
Definition namesTruthy (b : DynamicIfBlock) : Prop :=
  Forall (λ n, Js.truthy n = true) (slotNames b).

(** The identifier the generator gave names no slot of the block. *)
Definition uidFresh (uid : string) (b : DynamicIfBlock) : Prop :=
  (("IF" +:+ uid) ∉ slotNames b) ∧ (("DO" +:+ uid) ∉ slotNames b).

Definition caseNames (id : string) : list string :=
  ["IF" +:+ id; "DO" +:+ id].

(** The names of the first [n] cases in canonical form. *)
Definition canonicalNames (n : nat) : list string :=
  k ← seq 0 n; caseNames (pretty k).

(** The block has an Else slot. *)
Definition hasElse (b : DynamicIfBlock) : bool := Js.defined (getInput "ELSE" b).

(** The number of case pairs: the Condition slots of the block. *)
Definition caseCount (b : DynamicIfBlock) : nat :=
  length (filter (λ input, type (connection input) = INPUT_VALUE) (inputList b)).

(** What [mutationToDom] encodes once the rebuild is done. *)
Definition encoded (b : DynamicIfBlock) : option Element :=
  if bool_decide (elseifCount b = 0%Z) && bool_decide (elseCount b = 0%Z)
  then None
  else Some (mkElement "mutation"
               ((if bool_decide (elseifCount b = 0%Z) then []
                 else [("elseif", pretty (elseifCount b))]) ++
                (if bool_decide (elseCount b = 0%Z) then []
                 else [("else", "1")]))).

(** An attribute of what the exporter returned. *)
Definition exportedAttr (r : option Element) (a : string) : option string :=
  el ← r; getAttribute el a.

(** Decoding what the exporter returned into a freshly constructed block:
    the host calls [domToMutation] only when there is an element. *)
Definition decode (r : option Element) : option DynamicIfBlock :=
  match r with
  | Some el => domToMutation el (init newBlock)
  | None => Some (init newBlock)
  end.

(** A block in canonical form with [k] else-if cases: the pairs are
    numbered [0 .. k], every pair is populated when there is more than one,
    and the Else slot, if there is one, holds something. *)
Record canonicalBlock (k : nat) (withElse : bool) (cs : list Case)
    (e : option (nat * option Peer)) (b : DynamicIfBlock) : Prop := {
  cb_wf : wellFormed cs e b;
  cb_ids : caseId <$> cs = pretty <$> seq 0 (S k);
  cb_populated : 1 ≤ k → Forall (λ c, populated c = true) cs;
  cb_else : Js.defined e = withElse;
  cb_else_attached : Js.defined (elseTarget e) = withElse
}.

(** The view of the two slots of a case. *)
Definition caseShape (c : Case) : list (string * ConnectionType * option Peer) :=
  [("IF" +:+ caseId c, INPUT_VALUE, ifAttached c);
   ("DO" +:+ caseId c, NEXT_STATEMENT, doAttached c)].

(** Whether a hover over the Condition slot of [ck], followed by the cases
    [rest], inserts a case pair: the slot holds something, and [ck] is the
    last case or the Condition slot of the next case holds a real block. *)
Definition growsAfter (ck : Case) (rest : list Case) : bool :=
  Js.defined (ifAttached ck) &&
  match rest with
  | [] => true
  | cn :: _ =>
      match ifAttached cn with
      | Some p => negb (isInsertionMarker p)
      | None => false
      end
  end.

(** The Else slot a hover appends when the block has none. *)
Definition withElseAdded (e : option (nat * option Peer)) (b : DynamicIfBlock)
  : option (nat * option Peer) :=
  match e with
  | Some el => Some el
  | None => Some (connCounter b, None)
  end.
(** Appending the case pair [id] at the end, as the two decoders do. *)
Definition appendCase (b : DynamicIfBlock) (id : string) : DynamicIfBlock :=
  let b := (setCheck "Boolean" (appendValueInput ("IF" +:+ id) b)).1 in
  (appendStatementInput ("DO" +:+ id) b).1.

(** The empty cases made for the identifiers [ids] when the next
    connection to be allocated is [n]. *)
Fixpoint numberedCases (n : nat) (ids : list string) : list Case :=
  match ids with
  | [] => []
  | id :: ids' => newCase id n :: numberedCases (S (S n)) ids'
  end.

(** ** Concrete blocks *)

(** Connections of other blocks: the outputs of three Boolean blocks, the
    previous-statement connections of two statement blocks, and the output
    of an insertion marker. *)
Definition boolA : Peer := mkPeer 100 OUTPUT_VALUE (Some ["Boolean"]) false.

Definition boolB : Peer := mkPeer 101 OUTPUT_VALUE (Some ["Boolean"]) false.

Definition boolC : Peer := mkPeer 104 OUTPUT_VALUE (Some ["Boolean"]) false.

Definition stmtC : Peer := mkPeer 102 PREVIOUS_STATEMENT None false.

Definition stmtD : Peer := mkPeer 103 PREVIOUS_STATEMENT None false.

Definition markerM : Peer := mkPeer 200 OUTPUT_VALUE (Some ["Boolean"]) true.

(** The output of a block that gives a number. *)
Definition numberN : Peer := mkPeer 105 OUTPUT_VALUE (Some ["Number"]) false.

(** A no-break space, U+00A0, in UTF-8. *)
Definition nbsp : string :=
  String (ascii_of_nat 194) (String (ascii_of_nat 160) EmptyString).

(** A [mutation] element with the given attributes. *)
Definition mutation (attrs : list (string * string)) : Element :=
  mkElement "mutation" attrs.

(** A block as [init] leaves it, and its own next-statement connection. *)
Definition freshBlock : DynamicIfBlock := init newBlock.

Definition freshNext : Connection := mkConnection 2 NEXT_STATEMENT None None.

(** Three case pairs, the middle one empty, and an Else slot in use. *)
Definition scenarioCases : list Case :=
  [mkCase "0" 0 (Some boolA) 1 (Some stmtC);
   mkCase "k1" 4 None 5 None;
   mkCase "k2" 6 (Some boolB) 7 None].

Definition scenarioBlock : DynamicIfBlock :=
  mkBlock (caseSlots scenarioCases ++ elseSlots (Some (8, Some stmtD)))
          (Some (mkConnection 2 NEXT_STATEMENT None None))
          (Some (mkConnection 3 PREVIOUS_STATEMENT None None)) 0 0 9.

(** Two case pairs whose Condition slots both hold something; the second
    one holds [p]. *)
Definition firstCase : Case := mkCase "0" 0 (Some boolA) 1 None.

Definition secondCase (p : Peer) : Case := mkCase "1" 4 (Some p) 5 None.

Definition twoCases (p : Peer) : DynamicIfBlock :=
  mkBlock (caseSlots [firstCase; secondCase p])
          (Some (mkConnection 2 NEXT_STATEMENT None None))
          (Some (mkConnection 3 PREVIOUS_STATEMENT None None)) 1 0 6.

(** A block in canonical form with two else-if cases and an Else slot. *)
Definition canonicalCases : list Case :=
  [mkCase "0" 0 (Some boolA) 1 None;
   mkCase "1" 4 (Some boolB) 5 None;
   mkCase "2" 6 (Some boolC) 7 (Some stmtC)].

Definition canonicalExample : DynamicIfBlock :=
  mkBlock (caseSlots canonicalCases ++ elseSlots (Some (8, Some stmtD)))
          (Some (mkConnection 2 NEXT_STATEMENT None None))
          (Some (mkConnection 3 PREVIOUS_STATEMENT None None)) 2 1 9.

(** A fresh block that decoded the legacy encoding [inputs]. *)
Definition legacyBlock (inputs : string) : option DynamicIfBlock :=
  domToMutation (mutation [("inputs", inputs)]) freshBlock.

(** A block whose second case has an identifier that contains [IF], with
    a statement block in its Branch slot, and an empty Else slot. *)
Definition ifNamedCase : Case := mkCase "xIFy" 4 None 5 (Some stmtC).

Definition ifNamedBlock : DynamicIfBlock :=
  mkBlock (caseSlots [firstCase; ifNamedCase] ++ elseSlots (Some (6, None)))
          (Some (mkConnection 2 NEXT_STATEMENT None None))
          (Some (mkConnection 3 PREVIOUS_STATEMENT None None)) 1 0 7.

(** Two recorded pairs: a Boolean block with a statement block, and a
    Boolean block alone. *)
Definition twoPairs : list CaseConnectionPair :=
  [mkCaseConnectionPair (Some boolA) (Some stmtC);
   mkCaseConnectionPair (Some boolB) None].

(** * Properties *)

(** *** The concrete blocks are states of the program *)

(** A block as [init] leaves it is well formed: one empty pair 0. *)
Lemma init_wellFormed : wellFormed [newCase "0" 0] None freshBlock.
Proof.
  split;
    [ reflexivity | discriminate | compute_done | compute_done
    | compute_done | compute_done | repeat constructor ].
Qed.

(** The block with two cases is a fresh block that decoded [elseif="1"]
    and had a Boolean block attached to each Condition slot. *)
Lemma twoCases_reached p :
  peerType p = OUTPUT_VALUE →
  doTypeChecks (Some ["Boolean"]) (peerCheck p) = true →
  peerId p ≠ peerId boolA →
  connect 4 p
    (connect 0 boolA (deserializeCounts (mutation [("elseif", "1")]) freshBlock))
  = twoCases p.
Proof.
  intros Ht Hc Hp. destruct p as [n ty chk m]. simpl in Ht, Hc, Hp. subst ty.
  unfold connect. simpl. unfold connectedTo, canConnect. simpl.
  rewrite (bool_decide_eq_false_2 (100 = n)) by done. simpl in *.
  by rewrite Hc.
Qed.

(** The canonical example is a fresh block that decoded [elseif="2"],
    [else="1"] and had blocks attached. *)
Lemma canonicalExample_reached :
  connect 8 stmtD (connect 7 stmtC (connect 6 boolC (connect 4 boolB
    (connect 0 boolA
       (deserializeCounts (mutation [("elseif", "2"); ("else", "1")])
          freshBlock)))))
  = canonicalExample.
Proof. by vm_compute. Qed.

(** A value input made with its check: the chain
    [appendValueInput(name).setCheck(check)]. *)
Lemma setCheck_appendValueInput chk nm b :
  setCheck chk (appendValueInput nm b) =
  (mkBlock (inputList b ++
            [mkInput nm (mkConnection (connCounter b) INPUT_VALUE
                                      (Some [chk]) None)])
           (nextConnection b) (previousConnection b)
           (elseifCount b) (elseCount b) (S (connCounter b)),
   mkInput nm (mkConnection (connCounter b) INPUT_VALUE (Some [chk]) None)).
Proof.
  unfold setCheck, appendValueInput, appendInput, makeConnection, withInputs,
    withCheck. simpl. by rewrite removelast_last.
Qed.

Lemma findBoth_skip nm ref A l i ii ri :
  nm ∉ (name <$> A) → ref ∉ (name <$> A) →
  findBoth nm ref (A ++ l) i ii ri = findBoth nm ref l (i + length A) ii ri.
Proof.
  revert i. induction A as [|a A IH]; intros i Hn Hr; simpl.
  - f_equal. lia.
  - rewrite fmap_cons in Hn, Hr. apply not_elem_of_cons in Hn as [Hn1 Hn2].
    apply not_elem_of_cons in Hr as [Hr1 Hr2].
    rewrite bool_decide_eq_false_2; [|congruence].
    rewrite (bool_decide_eq_false_2 (name a = ref)); [|congruence].
    rewrite andb_false_r. rewrite IH; auto. f_equal. lia.
Qed.

(** Moving the input [x] in front of the input [r] that precedes it. *)
Lemma moveInputBefore_spec nm ref A r M x T b :
  inputList b = A ++ r :: M ++ x :: T →
  name x = nm → name r = ref → nm ≠ ref → Js.truthy ref = true →
  nm ∉ (name <$> A) → nm ∉ (name <$> M) →
  ref ∉ (name <$> A) → ref ∉ (name <$> M) →
  moveInputBefore nm ref b = Some (withInputs (A ++ x :: r :: M ++ T) b).
Proof.
  intros Hl Hx Hr Hne Ht HnA HnM HrA HrM.
  unfold moveInputBefore. rewrite bool_decide_eq_false_2 by done.
  rewrite Ht, Hl. rewrite findBoth_skip by done. simpl.
  rewrite bool_decide_eq_false_2 by congruence.
  rewrite Ht. rewrite (bool_decide_eq_true_2 (name r = ref)) by done. simpl.
  rewrite findBoth_skip by done. simpl.
  rewrite (bool_decide_eq_true_2 (name x = nm)) by done.
  unfold moveNumberedInputBefore. rewrite Hl.
  assert (Hlen : length (A ++ r :: M ++ x :: T) = length A + S (length M + S (length T))).
  { rewrite length_app; simpl. rewrite length_app; simpl. done. }
  rewrite Hlen.
  rewrite bool_decide_eq_false_2 by lia.
  rewrite bool_decide_eq_false_2 by lia.
  rewrite bool_decide_eq_false_2 by lia.
  rewrite bool_decide_eq_false_2 by lia.
  replace (S (length A + length M)) with (length (A ++ r :: M)) by (rewrite length_app; simpl; lia).
  replace (A ++ r :: M ++ x :: T) with ((A ++ r :: M) ++ x :: T) by (by rewrite <- app_assoc).
  rewrite list_lookup_middle by done. simpl.
  rewrite delete_middle. rewrite <- app_assoc. simpl.
  rewrite take_app_length, drop_app_length. done.
Qed.

(** Moving an input before itself returns at once. *)
Lemma moveInputBefore_same nm b : moveInputBefore nm nm b = Some b.
Proof. unfold moveInputBefore. by rewrite bool_decide_eq_true_2. Qed.

(** [insertElseIf] at the position [length A], when nothing is named like
    the new pair: the pair is made from the next two connections and sits
    between [A] and [B]. *)
Lemma insertElseIf_spec id A B b :
  inputList b = A ++ B →
  ("IF" +:+ id) ∉ (name <$> (A ++ B)) → ("DO" +:+ id) ∉ (name <$> (A ++ B)) →
  (∀ r B', B = r :: B' →
     Js.truthy (name r) = true ∧ (name r ∉ (name <$> A)) ∧ (name r ∉ (name <$> B'))) →
  insertElseIf (length A) id b =
    Some (mkBlock (A ++ caseSlots [newCase id (connCounter b)] ++ B)
            (nextConnection b) (previousConnection b)
            (elseifCount b) (elseCount b) (S (S (connCounter b))),
          mkCaseInputPair (ifSlot (newCase id (connCounter b)))
                          (doSlot (newCase id (connCounter b)))).
Proof.
  intros Hl Hif Hdo HB.
  set (ifN := ifSlot (newCase id (connCounter b))).
  set (doN := doSlot (newCase id (connCounter b))).
  unfold insertElseIf. rewrite setCheck_appendValueInput.
  unfold appendStatementInput, appendInput, makeConnection, withInputs.
  simpl. rewrite Hl.
  change (mkInput ("IF" +:+ id) _) with ifN.
  change (mkInput ("DO" +:+ id) _) with doN.
  assert (HifN : name ifN = "IF" +:+ id) by done.
  assert (HdoN : name doN = "DO" +:+ id) by done.
  destruct B as [|r B'].
  - rewrite app_nil_r.
    rewrite <- app_assoc. simpl.
    rewrite list_lookup_middle by done. simpl.
    rewrite moveInputBefore_same. simpl.
    replace (A ++ [ifN; doN]) with ((A ++ [ifN]) ++ [doN])
      by (by rewrite <- app_assoc).
    rewrite list_lookup_middle by (rewrite length_app; simpl; lia). simpl.
    rewrite moveInputBefore_same. simpl.
    rewrite <- app_assoc. done.
  - destruct (HB r B' eq_refl) as (Ht & HrA & HrB).
    rewrite fmap_app, fmap_cons in Hif, Hdo.
    apply not_elem_of_app in Hif as [HifA Hif]. apply not_elem_of_cons in Hif as [Hifr HifB].
    apply not_elem_of_app in Hdo as [HdoA Hdo]. apply not_elem_of_cons in Hdo as [Hdor HdoB].
    rewrite <- !app_assoc. simpl.
    rewrite list_lookup_middle by done. simpl.
    erewrite (moveInputBefore_spec _ _ A r B' ifN [doN]);
      [| simpl; done | done..].
    simpl.
    replace (A ++ ifN :: r :: B' ++ [doN])
      with ((A ++ [ifN]) ++ r :: B' ++ [doN])
      by (by rewrite <- app_assoc).
    rewrite list_lookup_middle by (rewrite length_app; simpl; lia). simpl.
    erewrite (moveInputBefore_spec _ _ (A ++ [ifN]) r B' doN []);
      [| simpl; done | done.. | | | | ].
    + simpl. rewrite <- !app_assoc. simpl. rewrite app_nil_r. done.
    + rewrite fmap_app. simpl. rewrite not_elem_of_app. split; [done|].
      rewrite list_elem_of_singleton. simpl. discriminate.
    + done.
    + rewrite fmap_app. simpl. rewrite not_elem_of_app. split; [done|].
      rewrite list_elem_of_singleton. congruence.
    + done.
Qed.

(** *** Slot lists of cases *)

Lemma caseSlots_cons c cs :
  caseSlots (c :: cs) = ifSlot c :: doSlot c :: caseSlots cs.
Proof. done. Qed.

Lemma caseSlots_app cs1 cs2 :
  caseSlots (cs1 ++ cs2) = caseSlots cs1 ++ caseSlots cs2.
Proof. unfold caseSlots. by rewrite bind_app. Qed.

Lemma caseSlots_length cs : length (caseSlots cs) = 2 * length cs.
Proof. induction cs as [|c cs IH]; simpl in *; [done|]. rewrite IH. lia. Qed.

Lemma elem_of_caseSlots x cs :
  x ∈ caseSlots cs ↔ ∃ c, c ∈ cs ∧ (x = ifSlot c ∨ x = doSlot c).
Proof.
  unfold caseSlots. rewrite list_elem_of_bind. split.
  - intros (c & Hx & Hc). exists c. split; [done|].
    rewrite elem_of_cons, list_elem_of_singleton in Hx. done.
  - intros (c & Hc & Hx). exists c. split; [|done].
    rewrite elem_of_cons, list_elem_of_singleton. done.
Qed.

Lemma if_name_elem s cs :
  ("IF" +:+ s) ∈ (name <$> caseSlots cs) ↔ s ∈ (caseId <$> cs).
Proof.
  rewrite !list_elem_of_fmap. split.
  - intros (x & Hn & Hx). apply elem_of_caseSlots in Hx as (c & Hc & [-> | ->]).
    + exists c. split; [|done]. simpl in Hn. by apply (inj (String.app _)) in Hn.
    + simpl in Hn. discriminate.
  - intros (c & -> & Hc). exists (ifSlot c). split; [done|].
    apply elem_of_caseSlots. eauto.
Qed.

Lemma do_name_elem s cs :
  ("DO" +:+ s) ∈ (name <$> caseSlots cs) ↔ s ∈ (caseId <$> cs).
Proof.
  rewrite !list_elem_of_fmap. split.
  - intros (x & Hn & Hx). apply elem_of_caseSlots in Hx as (c & Hc & [-> | ->]).
    + simpl in Hn. discriminate.
    + exists c. split; [|done]. simpl in Hn. by apply (inj (String.app _)) in Hn.
  - intros (c & -> & Hc). exists (doSlot c). split; [done|].
    apply elem_of_caseSlots. eauto.
Qed.

Lemma else_name_not_case cs : "ELSE" ∉ (name <$> caseSlots cs).
Proof.
  rewrite list_elem_of_fmap. intros (x & Hn & Hx).
  apply elem_of_caseSlots in Hx as (c & Hc & [-> | ->]); simpl in Hn; discriminate.
Qed.

Lemma caseSlots_names_NoDup cs :
  NoDup (caseId <$> cs) → NoDup (name <$> caseSlots cs).
Proof.
  induction cs as [|c cs IH]; intros Hnd; [constructor|].
  rewrite fmap_cons in Hnd. apply NoDup_cons in Hnd as [Hc Hnd].
  rewrite caseSlots_cons, !fmap_cons. apply NoDup_cons. split.
  - rewrite not_elem_of_cons. split; [simpl; discriminate|].
    simpl. by rewrite if_name_elem.
  - apply NoDup_cons. split; [|auto].
    simpl. by rewrite do_name_elem.
Qed.

Lemma slots_names_NoDup cs e :
  NoDup (caseId <$> cs) → NoDup (name <$> (caseSlots cs ++ elseSlots e)).
Proof.
  intros Hnd. rewrite fmap_app. apply NoDup_app. split; [by apply caseSlots_names_NoDup|].
  split.
  - intros x Hx. destruct e as [e|]; simpl; [|apply not_elem_of_nil].
    rewrite list_elem_of_singleton. intros ->. by apply else_name_not_case in Hx.
  - destruct e; simpl; [apply NoDup_singleton | constructor].
Qed.

(** *** [collectTargetCaseConns] on a well-formed slot list *)

(** [collectTargetCaseConns] records the populated cases; the Else slot is
    not read. *)
Lemma collectPairs_slots cs e :
  collectPairs (caseSlots cs ++ elseSlots e) =
  casePair <$> filter (λ c, populated c = true) cs.
Proof.
  induction cs as [|c cs IH].
  - destruct e; done.
  - rewrite caseSlots_cons. simpl. rewrite IH.
    rewrite filter_cons.
    destruct c as [id ic [pi|] dc [pd|]]; simpl; done.
Qed.

(** *** Searching a list *)

Lemma list_find_middle {A} (P : A → Prop) `{!∀ x, Decision (P x)} l1 x l2 :
  Forall (λ y, ¬ P y) l1 → P x →
  list_find P (l1 ++ x :: l2) = Some (length l1, x).
Proof.
  intros Hl1 Hx. apply list_find_Some. split_and!.
  - by rewrite list_lookup_middle.
  - done.
  - intros j y Hj Hlt. rewrite lookup_app_l in Hj by done.
    rewrite Forall_forall in Hl1. apply Hl1. by eapply list_elem_of_lookup_2.
Qed.

Lemma find_name_middle l1 x l2 :
  name x ∉ (name <$> l1) →
  list_find (λ input, name input = name x) (l1 ++ x :: l2) = Some (length l1, x).
Proof.
  intros Hx. apply list_find_middle; [|done].
  apply Forall_forall. intros y Hy Hn. apply Hx. rewrite <- Hn.
  by apply list_elem_of_fmap_2.
Qed.

Lemma find_conn_middle l1 x l2 :
  connId (connection x) ∉ (connIdOf <$> l1) →
  list_find (λ input, connId (connection input) = connId (connection x))
            (l1 ++ x :: l2) = Some (length l1, x).
Proof.
  intros Hx. apply list_find_middle; [|done].
  apply Forall_forall. intros y Hy Hn. apply Hx. rewrite <- Hn.
  by apply (list_elem_of_fmap_2 (λ input, connId (connection input))).
Qed.

Lemma withInputs_same b : withInputs (inputList b) b = b.
Proof. by destruct b. Qed.

Lemma withInputs_withInputs l l' b : withInputs l (withInputs l' b) = withInputs l b.
Proof. done. Qed.

(** *** [deleteDynamicInputs] *)

Lemma removeInput_last l x b :
  inputList b = l ++ [x] → name x ∉ (name <$> l) →
  removeInput (name x) b = Some (withInputs l b).
Proof.
  intros Hl Hx. unfold removeInput. rewrite Hl.
  rewrite find_name_middle by done. simpl.
  by rewrite delete_middle, app_nil_r.
Qed.

(** With distinct names the deletion loop keeps the first two inputs. *)
Lemma deleteFrom_spec i : ∀ b,
  length (inputList b) = S i → NoDup (slotNames b) →
  deleteFrom i b = Some (withInputs (take 2 (inputList b)) b).
Proof.
  induction i as [|i IH]; intros b Hlen Hnd.
  - simpl. rewrite take_ge by lia. by rewrite withInputs_same.
  - simpl. case_bool_decide as Hi.
    + destruct (inputList b) as [|x0 l0] eqn:Hl using rev_ind; [done|].
      clear IHl0. rewrite length_app in Hlen. simpl in Hlen.
      unfold slotNames in Hnd. rewrite Hl, fmap_app in Hnd.
      apply NoDup_app in Hnd as (Hnd & Hx & _).
      replace (S i) with (length l0) by lia.
      rewrite list_lookup_middle by done. simpl.
      rewrite (removeInput_last l0 x0) by
        (try done; intros Hin; by apply (Hx _ Hin), list_elem_of_singleton).
      simpl. rewrite IH; simpl; [| lia | done].
      rewrite take_app_le by lia. done.
    + rewrite take_ge by lia. by rewrite withInputs_same.
Qed.

(** [deleteDynamicInputs] keeps the first two inputs, whatever their names
    are, and removes the others. *)
Lemma deleteDynamicInputs_spec b :
  NoDup (slotNames b) →
  deleteDynamicInputs b = Some (withInputs (take 2 (inputList b)) b).
Proof.
  intros Hnd. unfold deleteDynamicInputs.
  destruct (inputList b) as [|x l] eqn:Hl.
  - simpl. by rewrite <- Hl, withInputs_same.
  - rewrite <- Hl. apply deleteFrom_spec; [|done]. rewrite Hl. simpl. lia.
Qed.

(** *** [connect] *)

Lemma connect_nop x A B p b :
  inputList b = A ++ x :: B →
  connId (connection x) ∉ (connIdOf <$> A) →
  connectedTo p (connection x) = true →
  connect (connId (connection x)) p b = b.
Proof.
  intros Hl HA Hc. unfold connect. rewrite Hl, find_conn_middle by done.
  by rewrite Hc.
Qed.

(** Connecting [p] to the slot [x]: the slot holds [p], and [p] is taken
    off every other slot. *)
Lemma connect_spec x A B p b :
  inputList b = A ++ x :: B →
  connId (connection x) ∉ (connIdOf <$> A) →
  connId (connection x) ∉ (connIdOf <$> B) →
  connectedTo p (connection x) = false →
  canConnect (connection x) p = true →
  connect (connId (connection x)) p b =
    withInputs ((detach p <$> A) ++ setTarget (Some p) x :: (detach p <$> B)) b.
Proof.
  intros Hl HA HB Hc Ht. unfold connect. rewrite Hl, find_conn_middle by done.
  rewrite Hc, Ht. f_equal. rewrite fmap_app, fmap_cons.
  rewrite bool_decide_eq_true_2 by done.
  f_equal; [|f_equal]; apply list_fmap_ext; intros k y Hk;
    rewrite bool_decide_eq_false_2; try done; intros Heq.
  - apply HA. rewrite <- Heq.
    eapply (list_elem_of_fmap_2 (λ input, connId (connection input))), list_elem_of_lookup_2, Hk.
  - apply HB. rewrite <- Heq.
    eapply (list_elem_of_fmap_2 (λ input, connId (connection input))), list_elem_of_lookup_2, Hk.
Qed.

Lemma detach_id p l :
  Forall (λ input, connectedTo p (connection input) = false) l →
  detach p <$> l = l.
Proof.
  intros Hl. rewrite <- (list_fmap_id l) at 2. apply list_fmap_ext.
  intros k y Hk. rewrite Forall_forall in Hl. unfold detach.
  rewrite Hl; [done|]. by eapply list_elem_of_lookup_2.
Qed.

Lemma attachedPeers_caseSlots cs :
  attachedPeers (caseSlots cs) = (casePair <$> cs) ≫= pairPeers.
Proof.
  induction cs as [|c cs IH]; [done|].
  rewrite caseSlots_cons, fmap_cons, bind_cons, <- IH.
  unfold attachedPeers, pairPeers. simpl.
  destruct (ifAttached c), (doAttached c); done.
Qed.

Lemma connectedTo_false_iff p x :
  connectedTo p (connection x) = false ↔
  peerId p ∉ (peerId <$> attachedPeers [x]).
Proof.
  unfold connectedTo, attachedPeers. simpl.
  destruct (targetConnection (connection x)) as [q|]; simpl.
  - rewrite list_elem_of_singleton. rewrite bool_decide_eq_false. naive_solver.
  - split; [intros _; apply not_elem_of_nil|done].
Qed.

Lemma not_attached_Forall p l :
  peerId p ∉ (peerId <$> attachedPeers l) →
  Forall (λ input, connectedTo p (connection input) = false) l.
Proof.
  intros Hp. apply Forall_forall. intros x Hx.
  apply connectedTo_false_iff. intros Hin. apply Hp.
  apply list_elem_of_fmap in Hin as (q & -> & Hq).
  apply list_elem_of_fmap_2. unfold attachedPeers in *.
  apply list_elem_of_omap in Hq as (y & Hy & Hq).
  apply list_elem_of_singleton in Hy as ->.
  apply list_elem_of_omap. eauto.
Qed.

(** *** The rebuild loop *)

Lemma getInput_absent nm b :
  nm ∉ slotNames b → getInput nm b = None.
Proof.
  intros Hn. unfold getInput.
  assert (list_find (λ input, name input = nm) (inputList b) = None) as ->; [|done].
  apply list_find_None, Forall_forall. intros x Hx <-. apply Hn.
  by apply list_elem_of_fmap_2.
Qed.

Lemma rebuilding_length i todo CS LO b :
  rebuilding i todo CS LO b → length CS = i.
Proof.
  intros [_ Hids _ _ _ _ _].
  apply (f_equal length) in Hids. by rewrite !length_fmap, length_seq in Hids.
Qed.

Lemma pretty_not_in_seq i j n :
  pretty i ∈ (pretty <$> seq j n) ↔ j ≤ i < j + n.
Proof.
  rewrite list_elem_of_fmap. split.
  - intros (k & Hk & Hin). apply (inj pretty) in Hk as <-.
    by apply elem_of_seq in Hin.
  - intros Hi. exists i. split; [done|]. by apply elem_of_seq.
Qed.

Lemma rb_peers_if i r rest CS LO b p :
  rebuilding i (r :: rest) CS LO b → ifTarget r = Some p →
  (peerId p ∉ (peerId <$> attachedPeers (caseSlots CS))) ∧
  (∀ q, doTarget r = Some q → peerId q ≠ peerId p).
Proof.
  intros [_ _ _ _ Hp _ _] Hr.
  rewrite bind_app, bind_cons, fmap_app, fmap_app in Hp.
  rewrite <- attachedPeers_caseSlots in Hp.
  apply NoDup_app in Hp as (_ & Hd & Hp).
  apply NoDup_app in Hp as (Hp & _ & _).
  unfold pairPeers in *. rewrite Hr in *. split.
  - intros Hin. apply (Hd _ Hin). simpl. apply elem_of_cons. by left.
  - intros q Hq Heq. rewrite Hq in Hp. simpl in Hp.
    apply NoDup_cons in Hp as [Hp _]. apply Hp. rewrite Heq.
    by apply list_elem_of_singleton.
Qed.

Lemma rb_peers_do i r rest CS LO b q :
  rebuilding i (r :: rest) CS LO b → doTarget r = Some q →
  peerId q ∉ (peerId <$> attachedPeers (caseSlots CS)).
Proof.
  intros [_ _ _ _ Hp _ _] Hr.
  rewrite bind_app, bind_cons, fmap_app, fmap_app in Hp.
  rewrite <- attachedPeers_caseSlots in Hp.
  apply NoDup_app in Hp as (_ & Hd & Hp).
  intros Hin. apply (Hd _ Hin). unfold pairPeers. rewrite Hr. simpl.
  rewrite elem_of_app. left. rewrite fmap_app, elem_of_app. right.
  by apply list_elem_of_singleton.
Qed.

(** Attaching a recorded pair to the case it was read from does
    nothing. *)
Lemma attachPair_kept A c B r b :
  inputList b = A ++ ifSlot c :: doSlot c :: B →
  ifConn c ∉ (connIdOf <$> A) → doConn c ∉ (connIdOf <$> A) →
  ifConn c ≠ doConn c →
  casePair c = r →
  attachPair (ifConn c) (doConn c) r b = b.
Proof.
  intros Hl HiA HdA Hne <-. unfold attachPair. simpl.
  assert (Hif : match ifAttached c with
                | Some t => connect (ifConn c) t b | None => b end = b).
  { destruct (ifAttached c) as [p|] eqn:Hp; [|done].
    apply (connect_nop (ifSlot c) A (doSlot c :: B)); [done..|].
    unfold connectedTo. simpl. rewrite Hp. by apply bool_decide_eq_true_2. }
  rewrite Hif.
  destruct (doAttached c) as [q|] eqn:Hq; [|done].
  apply (connect_nop (doSlot c) (A ++ [ifSlot c]) B).
  - by rewrite <- app_assoc.
  - rewrite fmap_app, not_elem_of_app. split; [done|].
    simpl. rewrite list_elem_of_singleton. unfold connIdOf. simpl. congruence.
  - unfold connectedTo. simpl. rewrite Hq. by apply bool_decide_eq_true_2.
Qed.

(** Attaching a recorded pair to an empty case: the case holds the pair,
    whose peers are taken off the slots after it. *)
Lemma attachPair_new A c B r b :
  inputList b = A ++ ifSlot c :: doSlot c :: B →
  ifConn c ∉ (connIdOf <$> A) → doConn c ∉ (connIdOf <$> A) →
  ifConn c ∉ (connIdOf <$> B) → doConn c ∉ (connIdOf <$> B) →
  ifConn c ≠ doConn c →
  populated c = false →
  pairFits r →
  (∀ p, p ∈ pairPeers r → peerId p ∉ (peerId <$> attachedPeers A)) →
  (∀ p q, ifTarget r = Some p → doTarget r = Some q → peerId q ≠ peerId p) →
  attachPair (ifConn c) (doConn c) r b =
    withInputs (A ++ ifSlot (withAttached r c) :: doSlot (withAttached r c) ::
                  (detachOpt (doTarget r) <$> (detachOpt (ifTarget r) <$> B))) b.
Proof.
  intros Hl HiA HdA HiB HdB Hne Hpop [Hfi Hfd] HA Hpq.
  destruct c as [id ci ai cd ad]. unfold populated in Hpop. simpl in *.
  destruct ai; [done|]. destruct ad; [done|]. clear Hpop.
  destruct r as [ri rd]. unfold attachPair, withAttached. simpl in *.
  set (b1 := match ri with Some t => connect ci t b | None => b end).
  assert (Hb1 : b1 = withInputs
            (A ++ ifSlot (mkCase id ci ri cd None) :: doSlot (mkCase id ci ri cd None)
               :: (detachOpt ri <$> B)) b).
  { subst b1. destruct ri as [p|]; simpl.
    - etrans; [apply (connect_spec (ifSlot (mkCase id ci None cd None)) A
                 (doSlot (mkCase id ci None cd None) :: B) p b); try done|].
      + rewrite fmap_cons, not_elem_of_cons. done.
      + destruct (Hfi p eq_refl) as [Hty Hck].
        unfold canConnect. simpl. by rewrite Hty, Hck.
      + rewrite detach_id; [done|]. apply not_attached_Forall, HA.
        unfold pairPeers. simpl. apply elem_of_cons. by left.
    - rewrite list_fmap_id, <- Hl. by rewrite withInputs_same. }
  rewrite Hb1. clear Hb1 b1.
  destruct rd as [q|]; simpl.
  - etrans; [apply (connect_spec (doSlot (mkCase id ci ri cd None))
               (A ++ [ifSlot (mkCase id ci ri cd None)]) (detachOpt ri <$> B) q)|].
    6:{ rewrite withInputs_withInputs. f_equal.
      rewrite fmap_app, <- app_assoc. simpl.
      rewrite detach_id.
      2:{ apply not_attached_Forall, HA. unfold pairPeers. simpl.
          rewrite elem_of_app. right. by apply list_elem_of_singleton. }
      f_equal. f_equal.
      unfold detach, connectedTo. simpl. destruct ri as [p|]; [|done].
      rewrite bool_decide_eq_false_2; [done|]. intros Heq. by eapply Hpq. }
    + simpl. by rewrite <- app_assoc.
    + rewrite fmap_app, not_elem_of_app. split; [done|].
      simpl. rewrite list_elem_of_singleton. unfold connIdOf. simpl. congruence.
    + simpl. rewrite <- list_fmap_compose. intros Hin. apply HdB.
      erewrite list_fmap_ext; [exact Hin|]. intros k x _. simpl.
      unfold detachOpt, detach. destruct ri; [|done]. by destruct (connectedTo _ _).
    + done.
    + unfold canConnect. simpl. by rewrite (Hfd q).
  - by rewrite list_fmap_id.
Qed.

Lemma connIds_caseSlots cs : connIdOf <$> caseSlots cs = cs ≫= caseConns.
Proof.
  induction cs as [|c cs IH]; [done|].
  by rewrite caseSlots_cons, !fmap_cons, bind_cons, IH.
Qed.

Lemma detach_covered lo r rest :
  covered lo (r :: rest) →
  (∀ p q, ifTarget r = Some p → doTarget r = Some q → peerId q ≠ peerId p) →
  detachOpt (doTarget r) <$> (detachOpt (ifTarget r) <$> caseSlots [lo]) =
  caseSlots [cleared lo].
Proof.
  intros Hcov Hpq. destruct lo as [id ci ai cd ad]. destruct r as [ri rd].
  unfold covered, populated, casePair, cleared in *. simpl in *.
  destruct Hcov as [Hcov | Hcov].
  - destruct ai; [done|]. destruct ad; [done|].
    destruct ri, rd; done.
  - injection Hcov as -> ->.
    destruct ai as [p|], ad as [q|]; simpl; unfold detach, connectedTo; simpl;
      rewrite ?bool_decide_eq_true_2 by done; simpl; try done.
    rewrite (bool_decide_eq_false_2 (peerId q = peerId p)) by (by apply Hpq).
    simpl. rewrite ?bool_decide_eq_true_2 by done. done.
Qed.

Lemma leftoverAfter_in i n lo :
  caseId lo ∈ (pretty <$> seq i n) → leftoverAfter i n (Some lo) = None.
Proof. intros Hin. unfold leftoverAfter. simpl. by rewrite bool_decide_eq_true_2. Qed.

Lemma leftoverAfter_not_in i n lo :
  caseId lo ∉ (pretty <$> seq i n) → leftoverAfter i n (Some lo) = Some (cleared lo).
Proof. intros Hin. unfold leftoverAfter. simpl. by rewrite bool_decide_eq_false_2. Qed.

Lemma leftoverAfter_one_ne i lo :
  caseId lo ≠ pretty i → leftoverAfter i 1 (Some lo) = Some (cleared lo).
Proof.
  intros Hne. unfold leftoverAfter. simpl.
  rewrite bool_decide_eq_false_2; [done|].
  rewrite list_elem_of_singleton. done.
Qed.

Lemma leftoverAfter_one_eq i lo :
  caseId lo = pretty i → leftoverAfter i 1 (Some lo) = None.
Proof.
  intros Hne. unfold leftoverAfter. simpl.
  rewrite bool_decide_eq_true_2; [done|].
  rewrite list_elem_of_singleton. done.
Qed.

Lemma connIds_detachOpt o (l : list Input) : connIdOf <$> (detachOpt o <$> l) = connIdOf <$> l.
Proof.
  rewrite <- list_fmap_compose. apply list_fmap_ext. intros k x _. simpl.
  unfold detachOpt, detach. destruct o; [|done]. by destruct (connectedTo _ _).
Qed.

Lemma fresh_not_in n k (l : list nat) :
  Forall (λ m, m < n) l → n ≤ k → k ∉ l.
Proof.
  intros Hl Hk Hin. rewrite Forall_forall in Hl. apply Hl in Hin. lia.
Qed.

Lemma pairPeers_not_attached i r rest CS LO b :
  rebuilding i (r :: rest) CS LO b →
  (∀ p, p ∈ pairPeers r → peerId p ∉ (peerId <$> attachedPeers (caseSlots CS))) ∧
  (∀ p q, ifTarget r = Some p → doTarget r = Some q → peerId q ≠ peerId p).
Proof.
  intros Hrb. split.
  - intros p Hp. unfold pairPeers in Hp. apply elem_of_app in Hp as [Hp|Hp].
    + destruct (ifTarget r) as [p'|] eqn:Hr; simpl in Hp; [|by apply elem_of_nil in Hp].
      apply list_elem_of_singleton in Hp as ->.
      by apply (rb_peers_if _ _ _ _ _ _ _ Hrb Hr).
    + destruct (doTarget r) as [p'|] eqn:Hr; simpl in Hp; [|by apply elem_of_nil in Hp].
      apply list_elem_of_singleton in Hp as ->.
      by apply (rb_peers_do _ _ _ _ _ _ _ Hrb Hr).
  - intros p q Hp Hq. by apply (rb_peers_if _ _ _ _ _ _ _ Hrb Hp).
Qed.

(** The invariant is passed on to the next case. *)
Lemma rebuilding_next i r rest CS c LO LO1 b b1 :
  rebuilding i (r :: rest) CS LO b →
  caseId c = pretty i → casePair c = r →
  inputList b1 = caseSlots (CS ++ [c]) ++ caseSlots (option_list LO1) →
  NoDup (slotConnIds b1) →
  Forall (λ n, n < connCounter b1) (slotConnIds b1) →
  LO1 = leftoverAfter i 1 LO →
  rebuilding (S i) rest (CS ++ [c]) LO1 b1.
Proof.
  intros [Hl Hids Hconns Hfresh Hpeers Hfits Hleft] Hc Hr Hl1 Hconns1 Hfresh1 ->.
  split; try done.
  - rewrite fmap_app, Hids, seq_S, fmap_app. simpl. by rewrite Hc.
  - rewrite fmap_app. simpl. rewrite Hr, <- app_assoc. done.
  - by apply Forall_cons in Hfits as [_ ?].
  - destruct LO as [lo|]; [|done].
    change (leftoverAfter i 1 (Some lo)) with
      (if bool_decide (caseId lo ∈ (pretty <$> seq i 1)) then None
       else Some (cleared lo)).
    case_bool_decide as Hin; [done|]. destruct Hleft as [Hlo _]. split.
    + rewrite seq_S, fmap_app, not_elem_of_app. split; [done|]. done.
    + by left.
Qed.

(** One turn of the loop of [addCaseInputs] returns, and establishes the
    invariant for the next case. *)
Lemma addCaseInput_spec i r rest CS LO b :
  rebuilding i (r :: rest) CS LO b →
  ∃ b1 c,
    addCaseInput i r b = Some b1 ∧
    caseId c = pretty i ∧ casePair c = r ∧
    rebuilding (S i) rest (CS ++ [c]) (leftoverAfter i 1 LO) b1 ∧
    sameFields b b1 ∧ connCounter b ≤ connCounter b1.
Proof.
  intros Hrb.
  pose proof (rebuilding_length _ _ _ _ _ Hrb) as Hlen.
  pose proof Hrb as [Hl Hids Hconns Hfresh Hpeers Hfits Hleft].
  assert (HnotCS : pretty i ∉ (caseId <$> CS)).
  { rewrite Hids, pretty_not_in_seq. lia. }
  assert (Hcase : (∃ lo, LO = Some lo ∧ caseId lo = pretty i) ∨
                  (∀ lo, LO = Some lo → caseId lo ≠ pretty i)).
  { destruct LO as [lo|]; [|by right].
    destruct (decide (caseId lo = pretty i)); [left; eauto|right; by intros ? [= <-]]. }
  destruct Hcase as [(lo & -> & Hlo)|Hno].
  - (* the kept pair is the one numbered [i] *)
    destruct Hleft as [Hlo0 Hcov].
    assert (Hl' : inputList b = caseSlots CS ++ ifSlot lo :: doSlot lo :: [])
      by (by rewrite Hl).
    assert (HgI : getInput ("IF" +:+ pretty i) b = Some (ifSlot lo)).
    { unfold getInput. rewrite Hl', <- Hlo.
      change ("IF" +:+ caseId lo) with (name (ifSlot lo)).
      rewrite find_name_middle; [done|]. simpl. by rewrite if_name_elem, Hlo. }
    assert (HgD : getInput ("DO" +:+ pretty i) b = Some (doSlot lo)).
    { unfold getInput. rewrite Hl', <- Hlo.
      change ("DO" +:+ caseId lo) with (name (doSlot lo)).
      replace (caseSlots CS ++ ifSlot lo :: doSlot lo :: [])
        with ((caseSlots CS ++ [ifSlot lo]) ++ doSlot lo :: [])
        by (by rewrite <- app_assoc).
      rewrite find_name_middle; [done|].
      rewrite fmap_app, not_elem_of_app. split.
      - simpl. by rewrite do_name_elem, Hlo.
      - simpl. rewrite list_elem_of_singleton. discriminate. }
    rewrite (leftoverAfter_one_eq i lo Hlo).
    unfold addCaseInput. rewrite HgI, HgD. simpl.
    assert (Hc : (ifConn lo ∉ (connIdOf <$> caseSlots CS)) ∧
                 (doConn lo ∉ (connIdOf <$> caseSlots CS)) ∧
                 ifConn lo ≠ doConn lo).
    { unfold slotConnIds in Hconns. rewrite Hl', fmap_app in Hconns.
      apply NoDup_app in Hconns as (_ & Hd & Hnd). simpl in Hnd.
      apply NoDup_cons in Hnd as [Hne _]. split_and!.
      - intros Hin. apply (Hd _ Hin). simpl. apply elem_of_cons. by left.
      - intros Hin. apply (Hd _ Hin). simpl. apply elem_of_cons. right.
        by apply list_elem_of_singleton.
      - intros Heq. apply Hne. apply list_elem_of_singleton. done. }
    destruct Hc as (HiA & HdA & Hne).
    destruct (pairPeers_not_attached _ _ _ _ _ _ Hrb) as [HpA Hpq].
    assert (Hatt : attachPair (ifConn lo) (doConn lo) r b =
              withInputs (caseSlots CS ++ caseSlots [withAttached r lo]) b).
    { destruct Hcov as [Hpop | Hhead].
      - etrans; [apply (attachPair_new (caseSlots CS) lo [] r b); try done|];
          [apply not_elem_of_nil | apply not_elem_of_nil
          | by apply Forall_cons in Hfits as [? _] | done].
      - simpl in Hhead. injection Hhead as Hr.
        rewrite (attachPair_kept (caseSlots CS) lo [] r b) by done.
        rewrite Hr. replace (withAttached (casePair lo) lo) with lo by (by destruct lo).
        change (caseSlots [lo]) with [ifSlot lo; doSlot lo].
        by rewrite <- Hl', withInputs_same. }
    eexists _, (withAttached r lo).
    split; [apply (f_equal Some); exact Hatt|].
    split; [done|]. split; [by destruct r|].
    split; [|split; [done|simpl; lia]].
    eapply rebuilding_next; [done|done|by destruct r| | | |].
    + simpl. by rewrite caseSlots_app, app_nil_r.
    + unfold slotConnIds in *. simpl. rewrite Hl' in Hconns.
      rewrite fmap_app in *. done.
    + unfold slotConnIds in *. simpl. rewrite Hl' in Hfresh.
      rewrite fmap_app in *. done.
    + by rewrite leftoverAfter_one_eq.
  - (* a new pair is inserted *)
    assert (HnI : ("IF" +:+ pretty i) ∉ slotNames b).
    { unfold slotNames. rewrite Hl, fmap_app, not_elem_of_app, !if_name_elem.
      split; [done|]. destruct LO as [lo|]; simpl; [|apply not_elem_of_nil].
      rewrite list_elem_of_singleton. intros Heq. by apply (Hno lo). }
    unfold addCaseInput. rewrite (getInput_absent _ _ HnI). simpl.
    assert (HnD : ("DO" +:+ pretty i) ∉ slotNames b).
    { unfold slotNames. rewrite Hl, fmap_app, not_elem_of_app, !do_name_elem.
      split; [done|]. destruct LO as [lo|]; simpl; [|apply not_elem_of_nil].
      rewrite list_elem_of_singleton. intros Heq. by apply (Hno lo). }
    replace (i * 2) with (length (caseSlots CS)) by (rewrite caseSlots_length; lia).
    rewrite (insertElseIf_spec _ (caseSlots CS) (caseSlots (option_list LO)));
      [| done | by rewrite <- Hl | by rewrite <- Hl |].
    2:{ intros r0 B' HB. destruct LO as [lo|]; [|done].
        simpl in HB. injection HB as <- <-. simpl. split_and!.
        - done.
        - rewrite if_name_elem, Hids. by destruct Hleft.
        - rewrite list_elem_of_singleton. discriminate. }
    simpl.
    set (n := connCounter b).
    set (b2 := mkBlock _ _ _ _ _ _).
    set (c0 := newCase (pretty i) n).
    destruct (pairPeers_not_attached _ _ _ _ _ _ Hrb) as [HpA Hpq].
    assert (Hfr : Forall (λ m, m < n) (connIdOf <$> caseSlots CS) ∧
                  Forall (λ m, m < n) (connIdOf <$> caseSlots (option_list LO))).
    { unfold slotConnIds in Hfresh. rewrite Hl, fmap_app in Hfresh.
      by apply Forall_app in Hfresh. }
    destruct Hfr as [HfA HfB].
    assert (Hatt : attachPair (ifConn c0) (doConn c0) r b2 =
      withInputs (caseSlots CS ++ ifSlot (withAttached r c0) :: doSlot (withAttached r c0) ::
        (detachOpt (doTarget r) <$> (detachOpt (ifTarget r) <$> caseSlots (option_list LO)))) b2).
    { apply attachPair_new; try done;
        first [ eapply fresh_not_in; [done|]; unfold c0; simpl; lia
              | unfold c0; simpl; lia
              | by apply Forall_cons in Hfits as [? _] ]. }
    eexists _, (withAttached r c0). split; [apply (f_equal Some); exact Hatt|].
    split; [done|]. split; [by destruct r|].
    split; [|split; [done|simpl; lia]].
    eapply rebuilding_next; [done|done|by destruct r| | | |done].
    + simpl. rewrite caseSlots_app, <- app_assoc. simpl. do 3 f_equal.
      destruct LO as [lo|]; [|done].
      rewrite leftoverAfter_one_ne by (by apply Hno). simpl.
      destruct Hleft as [_ Hcov]. by eapply detach_covered.
    + unfold slotConnIds. simpl. rewrite fmap_app, !fmap_cons, !connIds_detachOpt.
      unfold slotConnIds in Hconns. rewrite Hl, fmap_app in Hconns.
      rewrite <- Permutation_middle. apply NoDup_cons. split.
      { apply not_elem_of_app. split; [eapply fresh_not_in; [done|]; unfold connIdOf; simpl; lia|].
        apply not_elem_of_cons. split; [unfold connIdOf; simpl; lia|].
        eapply fresh_not_in; [done|]; unfold connIdOf; simpl; lia. }
      rewrite <- Permutation_middle. apply NoDup_cons. split; [|done].
      apply not_elem_of_app. split; eapply fresh_not_in; try done;
        unfold connIdOf; simpl; lia.
    + unfold slotConnIds. simpl. rewrite fmap_app, !fmap_cons, !connIds_detachOpt.
      apply Forall_app. split; [eapply Forall_impl; [exact HfA|simpl; lia]|].
      apply Forall_cons. split; [unfold connIdOf; simpl; lia|].
      apply Forall_cons. split; [unfold connIdOf; simpl; lia|].
      eapply Forall_impl; [exact HfB|simpl; lia].
Qed.

Lemma cleared_unpopulated c : populated c = false → cleared c = c.
Proof.
  destruct c as [id ci [p|] cd [q|]]; unfold populated; simpl; try done.
Qed.

Lemma cleared_cleared c : cleared (cleared c) = cleared c.
Proof. done. Qed.

Lemma leftoverAfter_step i n LO :
  leftoverAfter (S i) n (leftoverAfter i 1 LO) = leftoverAfter i (S n) LO.
Proof.
  destruct LO as [lo|]; [|done].
  unfold leftoverAfter at 2 3. simpl.
  rewrite (bool_decide_ext (caseId lo ∈ pretty i :: list_fmap nat string pretty (seq (S i) n))
             (caseId lo = pretty i ∨ caseId lo ∈ (pretty <$> seq (S i) n)))
    by apply elem_of_cons.
  rewrite (bool_decide_ext (caseId lo ∈ [pretty i]) (caseId lo = pretty i))
    by apply list_elem_of_singleton.
  destruct (decide (caseId lo = pretty i)) as [Heq|Hne].
  - rewrite !bool_decide_eq_true_2; [done|by left|done].
  - rewrite (bool_decide_eq_false_2 (caseId lo = pretty i)) by done.
    unfold leftoverAfter. simpl.
    rewrite (bool_decide_ext
               (caseId lo = pretty i ∨ caseId lo ∈ (pretty <$> seq (S i) n))
               (caseId lo ∈ (pretty <$> seq (S i) n))) by tauto.
    by case_bool_decide.
Qed.

Lemma sameFields_refl b : sameFields b b.
Proof. done. Qed.

Lemma sameFields_trans b1 b2 b3 :
  sameFields b1 b2 → sameFields b2 b3 → sameFields b1 b3.
Proof.
  unfold sameFields. intros (?&?&?&?) (?&?&?&?). split_and!; congruence.
Qed.

(** The loop of [addCaseInputs] returns, and leaves the recorded pairs in
    the cases numbered from [i] on. *)
Lemma addCaseInputsFrom_spec todo : ∀ i CS LO b,
  rebuilding i todo CS LO b →
  ∃ b' CS',
    addCaseInputsFrom i todo b = Some b' ∧
    casePair <$> CS' = todo ∧
    rebuilding (i + length todo) [] (CS ++ CS')
               (leftoverAfter i (length todo) LO) b' ∧
    sameFields b b' ∧ connCounter b ≤ connCounter b'.
Proof.
  induction todo as [|r rest IH]; intros i CS LO b Hrb.
  - exists b, []. split; [done|]. split; [done|].
    split; [|split; [done|lia]].
    rewrite app_nil_r. simpl. replace (i + 0) with i by lia.
    destruct LO as [lo|]; [|done].
    assert (Hpop : populated lo = false).
    { destruct Hrb as [_ _ _ _ _ _ [_ [Hc|Hc]]]; done. }
    unfold leftoverAfter. simpl. by rewrite cleared_unpopulated.
  - destruct (addCaseInput_spec _ _ _ _ _ _ Hrb)
      as (b1 & c & Hstep & Hid & Hpair & Hrb1 & Hsame1 & Hle1).
    destruct (IH _ _ _ _ Hrb1) as (b' & CS' & Hloop & Hpairs & Hrb' & Hsame' & Hle').
    exists b', (c :: CS'). split_and!.
    + simpl. rewrite Hstep. simpl. done.
    + by rewrite fmap_cons, Hpair, Hpairs.
    + rewrite leftoverAfter_step in Hrb'. rewrite <- app_assoc in Hrb'.
      simpl in *. replace (i + S (length rest)) with (S (i + length rest)) by lia.
      done.
    + by eapply sameFields_trans.
    + lia.
Qed.

(** *** [finalizeConnections] on a well-formed block *)

Lemma recorded_peers cs :
  recorded cs ≫= pairPeers = (casePair <$> cs) ≫= pairPeers.
Proof.
  unfold recorded. induction cs as [|c cs IH]; [done|].
  rewrite filter_cons, fmap_cons, bind_cons, <- IH.
  destruct (decide (populated c = true)) as [Hp|Hp].
  - by rewrite fmap_cons, bind_cons.
  - apply not_true_is_false in Hp. destruct c as [id ci [p|] cd [q|]]; done.
Qed.

Lemma attachedPeers_app l1 l2 :
  attachedPeers (l1 ++ l2) = attachedPeers l1 ++ attachedPeers l2.
Proof. unfold attachedPeers. by rewrite omap_app. Qed.

Lemma getInput_else cs e b :
  inputList b = caseSlots cs ++ elseSlots e →
  getInput "ELSE" b = elseSlot <$> e.
Proof.
  intros Hl. destruct e as [e|]; simpl.
  - unfold getInput. rewrite Hl.
    pose proof (find_name_middle (caseSlots cs) (elseSlot e) []
                  (else_name_not_case cs)) as Hf.
    change (name (elseSlot e)) with "ELSE" in Hf.
    change (elseSlots (Some e)) with [elseSlot e]. by rewrite Hf.
  - apply getInput_absent. unfold slotNames. rewrite Hl. simpl.
    rewrite app_nil_r. apply else_name_not_case.
Qed.

(** What the connection checker asks of a block for a Condition slot, and
    for a statement slot, which has no check list. *)
Lemma canConnect_value n t p :
  canConnect (mkConnection n INPUT_VALUE (Some ["Boolean"]) t) p = true ↔
  peerType p = OUTPUT_VALUE ∧
  doTypeChecks (Some ["Boolean"]) (peerCheck p) = true.
Proof.
  unfold canConnect. cbn [type check]. rewrite andb_true_iff.
  by destruct (peerType p); split; intros [? ?].
Qed.

Lemma canConnect_statement n t p :
  canConnect (mkConnection n NEXT_STATEMENT None t) p = true ↔
  peerType p = PREVIOUS_STATEMENT.
Proof.
  unfold canConnect. cbn [type check doTypeChecks]. rewrite andb_true_r.
  by destruct (peerType p).
Qed.

(** An output with a check list fits a Condition slot exactly when the
    list has [Boolean]. *)
Lemma doTypeChecks_boolean l :
  doTypeChecks (Some ["Boolean"]) (Some l) = true ↔ "Boolean" ∈ l.
Proof.
  unfold doTypeChecks. cbn [existsb]. rewrite orb_false_r.
  by rewrite bool_decide_eq_true.
Qed.

(** The Condition slot of a new block refuses the output of a number and
    takes a Boolean one. *)
Lemma connect_checks_boolean :
  connect 0 numberN freshBlock = freshBlock ∧
  shape (connect 0 boolA freshBlock)
    = [("IF0", INPUT_VALUE, Some boolA); ("DO0", NEXT_STATEMENT, None)].
Proof. by vm_compute. Qed.

Lemma wellFormed_fits_recorded cs e b :
  wellFormed cs e b → Forall pairFits (recorded cs).
Proof.
  intros [Hl _ _ _ _ _ Hfits]. rewrite Hl in Hfits.
  apply Forall_app in Hfits as [Hfits _].
  unfold recorded. apply Forall_fmap, Forall_forall. intros c Hc.
  apply list_elem_of_filter in Hc as [_ Hc].
  rewrite Forall_forall in Hfits. split; intros p Hp.
  - assert (Hin : ifSlot c ∈ caseSlots cs) by (apply elem_of_caseSlots; eauto).
    apply Hfits in Hin. unfold peerFits in Hin.
    cbn [ifSlot connection targetConnection casePair ifTarget] in *.
    rewrite Hp in Hin. by apply canConnect_value in Hin.
  - assert (Hin : doSlot c ∈ caseSlots cs) by (apply elem_of_caseSlots; eauto).
    apply Hfits in Hin. unfold peerFits in Hin.
    cbn [doSlot connection targetConnection casePair doTarget] in *.
    rewrite Hp in Hin. by apply canConnect_statement in Hin.
Qed.

(** After [deleteDynamicInputs] on a well-formed block the invariant
    holds for case 0, with the first pair of the block as the kept pair. *)
Lemma wellFormed_rebuilding c1 cs e b :
  wellFormed (c1 :: cs) e b →
  rebuilding 0 (recorded (c1 :: cs)) [] (Some c1)
    (withInputs (take 2 (inputList b)) b).
Proof.
  intros Hwf. pose proof Hwf as [Hl _ _ Hconns Hfresh Hpeers Hfits].
  assert (Htake : take 2 (inputList b) = caseSlots [c1]) by (by rewrite Hl).
  assert (Hsplit : slotConnIds b =
            (connIdOf <$> caseSlots [c1]) ++ (connIdOf <$> (caseSlots cs ++ elseSlots e))).
  { unfold slotConnIds. by rewrite Hl, <- fmap_app. }
  rewrite Hsplit in Hconns, Hfresh.
  apply NoDup_app in Hconns as (Hconns & _ & _).
  apply Forall_app in Hfresh as [Hfresh _].
  split.
  - simpl. by rewrite Htake.
  - done.
  - unfold slotConnIds. simpl. by rewrite Htake.
  - unfold slotConnIds. simpl. by rewrite Htake.
  - simpl. rewrite recorded_peers, <- attachedPeers_caseSlots.
    rewrite Hl, attachedPeers_app, fmap_app in Hpeers.
    by apply NoDup_app in Hpeers as [? _].
  - by eapply wellFormed_fits_recorded.
  - split; [apply not_elem_of_nil|].
    unfold covered, recorded. rewrite filter_cons.
    destruct (decide (populated c1 = true)) as [Hp|Hp]; [by right|left].
    by apply not_true_is_false.
Qed.

Lemma peerFits_caseSlots cs :
  Forall pairFits (casePair <$> cs) → Forall peerFits (caseSlots cs).
Proof.
  intros Hf. apply Forall_forall. intros x Hx.
  apply elem_of_caseSlots in Hx as (c & Hc & Hx).
  rewrite Forall_fmap, Forall_forall in Hf. destruct (Hf c Hc) as [Hi Hd].
  unfold peerFits. destruct Hx as [-> | ->];
    cbn [ifSlot doSlot connection targetConnection casePair ifTarget doTarget]
      in *.
  - destruct (ifAttached c) as [p|]; [|done]. apply canConnect_value. eauto.
  - destruct (doAttached c) as [p|]; [|done]. apply canConnect_statement. eauto.
Qed.

Lemma rebuilding_peers n CS LO b :
  rebuilding n [] CS LO b →
  attachedPeers (inputList b) = (casePair <$> CS) ≫= pairPeers.
Proof.
  intros [Hl _ _ _ _ _ Hleft].
  rewrite Hl, attachedPeers_app, !attachedPeers_caseSlots.
  assert ((casePair <$> option_list LO) ≫= pairPeers = []) as ->.
  { destruct LO as [lo|]; [|done]. destruct Hleft as [_ [Hpop|?]]; [|done].
    destruct lo as [id ci [p|] cd [q|]]; done. }
  by rewrite app_nil_r.
Qed.

(** When the loop is over the block is well formed again. *)
Lemma rebuilding_wellFormed n CS LO b :
  rebuilding n [] CS LO b →
  Forall pairFits (casePair <$> CS) →
  CS ++ option_list LO ≠ [] →
  wellFormed (CS ++ option_list LO) None b.
Proof.
  intros [Hl Hids Hconns Hfresh Hpeers _ Hleft] Hfits Hne.
  assert (Hpop : ∀ lo, LO = Some lo → populated lo = false).
  { intros lo ->. destruct Hleft as [_ [?|?]]; done. }
  split; try done.
  - simpl. by rewrite app_nil_r, caseSlots_app.
  - rewrite fmap_app. apply NoDup_app. split_and!.
    + rewrite Hids. apply (NoDup_fmap _), NoDup_seq.
    + intros x Hx. destruct LO as [lo|]; simpl; [|apply not_elem_of_nil].
      rewrite list_elem_of_singleton. intros ->. rewrite Hids in Hx.
      by destruct Hleft.
    + destruct LO; simpl; [apply NoDup_singleton|constructor].
  - rewrite Hl, attachedPeers_app, !attachedPeers_caseSlots.
    rewrite app_nil_r in Hpeers.
    assert ((casePair <$> option_list LO) ≫= pairPeers = []) as ->.
    { destruct LO as [lo|]; [|done]. specialize (Hpop lo eq_refl).
      destruct lo as [id ci [p|] cd [q|]]; done. }
    by rewrite app_nil_r.
  - rewrite Hl. apply Forall_app. split; [by apply peerFits_caseSlots|].
    destruct LO as [lo|]; [|constructor]. specialize (Hpop lo eq_refl).
    destruct lo as [id ci [p|] cd [q|]]; try done.
    repeat constructor.
Qed.

(** [addElseInput] on a well-formed block without an Else slot. *)
Lemma addElseInput_wellFormed cs t b :
  wellFormed cs None b →
  peerType t = PREVIOUS_STATEMENT →
  peerId t ∉ (peerId <$> attachedPeers (inputList b)) →
  wellFormed cs (Some (connCounter b, Some t)) (addElseInput t b) ∧
  sameFields b (addElseInput t b).
Proof.
  intros [Hl Hne Hids Hconns Hfresh Hpeers Hfits] Ht Hin.
  simpl in Hl. rewrite app_nil_r in Hl.
  unfold addElseInput, appendStatementInput, appendInput, makeConnection.
  simpl.
  set (x := mkInput "ELSE" (mkConnection (connCounter b) NEXT_STATEMENT None None)).
  set (b1 := withInputs _ _).
  assert (Hc : connect (connId (connection x)) t b1 =
               withInputs (caseSlots cs ++ [elseSlot (connCounter b, Some t)]) b1).
  { etrans; [apply (connect_spec x (inputList b) [] t b1); try done|].
    - eapply fresh_not_in; [exact Hfresh|]. simpl. lia.
    - apply not_elem_of_nil.
    - by apply canConnect_statement.
    - rewrite detach_id by (by apply not_attached_Forall). by rewrite Hl. }
  change (connect (connCounter b) t b1) with (connect (connId (connection x)) t b1).
  rewrite Hc. split; [|done]. split; try done.
  - unfold slotConnIds in *. simpl. rewrite fmap_app, <- Hl. simpl.
    apply NoDup_app. split_and!; [done| |apply NoDup_singleton].
    intros n Hn. rewrite list_elem_of_singleton. intros ->.
    rewrite Forall_forall in Hfresh. apply Hfresh in Hn. unfold connIdOf in Hn.
    simpl in Hn. lia.
  - unfold slotConnIds in *. simpl. rewrite fmap_app, <- Hl. simpl.
    apply Forall_app. split.
    + eapply Forall_impl; [exact Hfresh|]. simpl. lia.
    + apply Forall_singleton. unfold connIdOf. simpl. lia.
  - simpl. rewrite attachedPeers_app, fmap_app, <- Hl. simpl.
    apply NoDup_app. split_and!; [done| |apply NoDup_singleton].
    intros n Hn. rewrite list_elem_of_singleton. by intros ->.
  - simpl. rewrite <- Hl. apply Forall_app. split; [done|].
    apply Forall_singleton. unfold peerFits. simpl.
    by apply canConnect_statement.
Qed.

Lemma wellFormed_withCounts cs e n m b :
  wellFormed cs e b → wellFormed cs e (withCounts n m b).
Proof. intros []. by split. Qed.

(** The rebuild of a well-formed block returns a well-formed block: the
    cases [0 .. n - 1] holding the [n] recorded pairs in order, then the
    first pair the block had if its number is none of these, emptied, then
    an Else slot holding what the old one held, if it held something.  The
    counts are set from the recorded pairs and the Else attachment. *)
Theorem finalizeConnections_spec cs e b :
  wellFormed cs e b →
  ∃ b' CS e',
    finalizeConnections b = Some b' ∧
    wellFormed
      (CS ++ option_list (leftoverAfter 0 (length (recorded cs)) (head cs)))
      e' b' ∧
    caseId <$> CS = pretty <$> seq 0 (length (recorded cs)) ∧
    casePair <$> CS = recorded cs ∧
    snd <$> e' = Some <$> elseTarget e ∧
    elseifCount b' = Z.max (Z.of_nat (length (recorded cs)) - 1) 0 ∧
    elseCount b' = (if Js.defined (elseTarget e) then 1 else 0)%Z ∧
    nextConnection b' = nextConnection b ∧
    previousConnection b' = previousConnection b.
Proof.
  intros Hwf. pose proof Hwf as [Hl Hne Hids Hconns Hfresh Hpeers Hfits].
  destruct cs as [|c1 cs]; [done|]. clear Hne.
  assert (Hcol : collectTargetCaseConns b = recorded (c1 :: cs)).
  { unfold collectTargetCaseConns. rewrite Hl. apply collectPairs_slots. }
  unfold finalizeConnections. cbv zeta. rewrite Hcol.
  rewrite (getInput_else _ _ _ Hl).
  assert (Helse : (elseSlot <$> e) ≫= (λ input, targetConnection (connection input))
                  = elseTarget e) by (by destruct e).
  rewrite Helse. clear Helse.
  rewrite deleteDynamicInputs_spec
    by (unfold slotNames; rewrite Hl; by apply slots_names_NoDup).
  cbn [mbind option_bind].
  destruct (addCaseInputsFrom_spec _ _ _ _ _ (wellFormed_rebuilding _ _ _ _ Hwf))
    as (b2 & CS & Hadd & Hpairs & Hrb & Hsame & _).
  unfold addCaseInputs. rewrite Hadd. cbn [mbind option_bind].
  simpl in Hrb.
  assert (HCSfits : Forall pairFits (casePair <$> CS)).
  { rewrite Hpairs. by eapply wellFormed_fits_recorded. }
  assert (HCSlen : length CS = length (recorded (c1 :: cs))).
  { by rewrite <- Hpairs, length_fmap. }
  assert (Hnonempty :
    CS ++ option_list (leftoverAfter 0 (length (recorded (c1 :: cs))) (Some c1)) ≠ []).
  { destruct CS as [|c CS]; [|done]. simpl in HCSlen. rewrite <- HCSlen. done. }
  pose proof (rebuilding_wellFormed _ _ _ _ Hrb HCSfits Hnonempty) as Hwf2.
  assert (Hids2 : caseId <$> CS = pretty <$> seq 0 (length (recorded (c1 :: cs)))).
  { by destruct Hrb. }
  destruct Hsame as (Hn & Hp & _ & _). simpl in Hn, Hp.
  destruct (elseTarget e) as [t|] eqn:Ht.
  - assert (HtT : peerType t = PREVIOUS_STATEMENT ∧
                  peerId t ∉ (peerId <$> attachedPeers (inputList b2))).
    { destruct e as [[ce [t'|]]|]; try done. simpl in Ht. injection Ht as ->.
      rewrite Hl in Hfits, Hpeers. split.
      - apply Forall_app in Hfits as [_ Hfits].
        change (elseSlots (Some (ce, Some t))) with [elseSlot (ce, Some t)] in Hfits.
        rewrite Forall_singleton in Hfits. unfold peerFits in Hfits.
        simpl in Hfits. by apply canConnect_statement in Hfits.
      - rewrite attachedPeers_app, fmap_app in Hpeers.
        apply NoDup_app in Hpeers as (_ & Hd & _).
        rewrite (rebuilding_peers _ _ _ _ Hrb).
        rewrite Hpairs, recorded_peers, <- attachedPeers_caseSlots.
        intros Hin. apply (Hd _ Hin). simpl. by apply list_elem_of_singleton. }
    destruct HtT as [HtT Hfresh2].
    destruct (addElseInput_wellFormed _ _ _ Hwf2 HtT Hfresh2) as [Hwf3 Hsame3].
    destruct Hsame3 as (Hn3 & Hp3 & _ & _).
    eexists _, CS, _. split; [done|]. split_and!; try done.
    + apply wellFormed_withCounts, Hwf3.
    + done.
    + simpl. congruence.
    + simpl. congruence.
  - eexists _, CS, None. split; [done|]. split_and!; try done.
    apply wellFormed_withCounts, Hwf2.
Qed.

(** *** Consequences for the recorded attachments *)

Lemma caseSlots_lookup cs k c :
  cs !! k = Some c →
  caseSlots cs !! (2 * k) = Some (ifSlot c) ∧
  caseSlots cs !! (2 * k + 1) = Some (doSlot c).
Proof.
  revert k. induction cs as [|c0 cs IH]; intros k Hk; [done|].
  destruct k as [|k]; simpl in Hk.
  - by injection Hk as ->.
  - apply IH in Hk as [H1 H2]. rewrite caseSlots_cons.
    replace (2 * S k) with (S (S (2 * k))) by lia.
    replace (S (S (2 * k)) + 1) with (S (S (2 * k + 1))) by lia. done.
Qed.

Lemma recorded_populated cs :
  Forall (λ r, Js.defined (ifTarget r) || Js.defined (doTarget r) = true) (recorded cs).
Proof.
  unfold recorded. apply Forall_fmap, Forall_forall. intros c Hc.
  by apply list_elem_of_filter in Hc as [Hc _].
Qed.

Lemma filter_populated_all CS :
  Forall (λ r, Js.defined (ifTarget r) || Js.defined (doTarget r) = true) (casePair <$> CS) →
  filter (λ c, populated c = true) CS = CS.
Proof.
  induction CS as [|c CS IH]; intros Hf; [done|].
  rewrite fmap_cons in Hf. apply Forall_cons in Hf as [Hc Hf].
  rewrite filter_cons, decide_True by done. by rewrite IH.
Qed.

Lemma recorded_rebuilt CS n lo :
  Forall (λ r, Js.defined (ifTarget r) || Js.defined (doTarget r) = true) (casePair <$> CS) →
  recorded (CS ++ option_list (leftoverAfter 0 n lo)) = casePair <$> CS.
Proof.
  intros Hf. unfold recorded. rewrite filter_app, filter_populated_all by done.
  assert (filter (λ c, populated c = true) (option_list (leftoverAfter 0 n lo)) = []) as ->.
  { destruct lo as [lo|]; [|done]. unfold leftoverAfter. simpl.
    case_bool_decide; [done|]. simpl. by rewrite filter_cons, decide_False. }
  by rewrite app_nil_r.
Qed.

(** What the rebuild recorded is what the rebuilt block holds, pair by
    pair and side by side. *)
Lemma finalize_recorded cs e b :
  wellFormed cs e b →
  ∃ b',
    finalizeConnections b = Some b' ∧
    collectTargetCaseConns b' = collectTargetCaseConns b ∧
    (∀ k r, collectTargetCaseConns b !! k = Some r → caseAt b' k r) ∧
    (∀ p, p ∈ attachedPeers (caseSlots cs) → p ∈ attachedPeers (inputList b')).
Proof.
  intros Hwf.
  destruct (finalizeConnections_spec _ _ _ Hwf)
    as (b' & CS & e' & Hfin & Hwf' & Hids & Hpairs & _).
  pose proof Hwf as [Hl _ _ _ _ _ _]. pose proof Hwf' as [Hl' _ _ _ _ _ _].
  assert (Hcol : collectTargetCaseConns b = recorded cs).
  { unfold collectTargetCaseConns. rewrite Hl. apply collectPairs_slots. }
  assert (Hpop : Forall (λ r, Js.defined (ifTarget r) || Js.defined (doTarget r) = true)
                        (casePair <$> CS)).
  { rewrite Hpairs. apply recorded_populated. }
  exists b'. split_and!; [done| | |].
  - rewrite Hcol. unfold collectTargetCaseConns. rewrite Hl', collectPairs_slots.
    fold (recorded (CS ++ option_list (leftoverAfter 0 (length (recorded cs)) (head cs)))).
    by rewrite recorded_rebuilt.
  - intros k r Hk. rewrite Hcol, <- Hpairs in Hk.
    apply list_lookup_fmap_Some in Hk as (c & -> & Hc).
    assert (Hid : caseId c = pretty k).
    { apply (f_equal (λ l, l !! k)) in Hids.
      rewrite !list_lookup_fmap, Hc in Hids. simpl in Hids.
      destruct (seq 0 (length (recorded cs)) !! k) as [j|] eqn:Hj; [|done].
      apply lookup_seq in Hj as [-> _]. simpl in Hids. congruence. }
    destruct (caseSlots_lookup _ _ _ Hc) as [H1 H2].
    exists (ifSlot c), (doSlot c). rewrite Hl', caseSlots_app.
    rewrite <- !app_assoc.
    rewrite !lookup_app_l by (rewrite caseSlots_length; apply lookup_lt_Some in Hc; lia).
    split_and!; [done|done| |]; unfold slotView; simpl; by rewrite Hid.
  - intros p Hp. rewrite attachedPeers_caseSlots, <- recorded_peers, <- Hpairs in Hp.
    rewrite Hl', caseSlots_app, !attachedPeers_app, attachedPeers_caseSlots.
    apply elem_of_app. left. apply elem_of_app. by left.
Qed.

(** *** [onPendingConnection] *)

(** [insertElseIf] with an identifier that names no slot puts the new
    pair at [index]. *)
Lemma insertElseIf_at index id b :
  index ≤ length (inputList b) →
  NoDup (slotNames b) → namesTruthy b → uidFresh id b →
  insertElseIf index id b =
    Some (withCaseAt index id b,
          mkCaseInputPair (ifSlot (newCase id (connCounter b)))
                          (doSlot (newCase id (connCounter b)))).
Proof.
  intros Hi Hnd Htr [HfI HfD].
  assert (Hlen : length (take index (inputList b)) = index)
    by (rewrite length_take; lia).
  rewrite <- Hlen at 1.
  unfold namesTruthy, slotNames in *.
  rewrite (insertElseIf_spec id (take index (inputList b)) (drop index (inputList b)));
    [done|by rewrite take_drop|by rewrite take_drop|by rewrite take_drop|].
  intros r B' HB.
  rewrite <- (take_drop index (inputList b)), HB, fmap_app, fmap_cons in Hnd, Htr.
  apply NoDup_app in Hnd as (_ & Hd & Hnd). apply NoDup_cons in Hnd as [Hr _].
  apply Forall_app in Htr as [_ Htr]. apply Forall_cons in Htr as [Htr _].
  split_and!; [done| |done].
  intros Hin. apply (Hd _ Hin). apply elem_of_cons. by left.
Qed.

(** The Else slot is appended first; the rest of the call runs on the
    block that has it. *)
Lemma pending_else_first c uid b :
  elseWanted c b = true →
  onPendingConnection c uid b =
    onPendingConnection c uid (appendStatementInput "ELSE" b).1 ∧
  elseWanted c (appendStatementInput "ELSE" b).1 = false.
Proof.
  intros Hw.
  assert (Helse : getInput "ELSE" (appendStatementInput "ELSE" b).1 ≠ None).
  { unfold getInput, appendStatementInput, appendInput, makeConnection. simpl.
    intros Hn. apply fmap_None in Hn.
    apply list_find_None in Hn. rewrite Forall_app, Forall_singleton in Hn.
    by destruct Hn as [_ Hn]. }
  assert (Hw' : elseWanted c (appendStatementInput "ELSE" b).1 = false).
  { unfold elseWanted. destruct (getInput "ELSE" _); [|done].
    simpl. apply andb_false_r. }
  split; [|done].
  unfold onPendingConnection at 1 2. fold (elseWanted c b).
  fold (elseWanted c (appendStatementInput "ELSE" b).1). by rewrite Hw, Hw'.
Qed.

(** The hovered slot holds nothing, or is not a Condition slot: no
    change. *)
Lemma pending_nothing c uid b i x :
  elseWanted c b = false →
  findInputIndexForConnection c b = Some i →
  inputList b !! i = Some x →
  Js.defined (targetConnection c) && Js.includes (name x) "IF" = false →
  onPendingConnection c uid b = Some b.
Proof.
  intros Hw Hf Hx Hc. unfold onPendingConnection. fold (elseWanted c b).
  rewrite Hw, Hf, Hx. simpl. by rewrite Hc.
Qed.

(** The slot two ahead is not the Else slot and holds nothing, or an
    insertion marker: no change. *)
Lemma pending_blocked c uid b i x nxt :
  elseWanted c b = false →
  findInputIndexForConnection c b = Some i →
  inputList b !! i = Some x →
  inputList b !! (i + 2) = Some nxt →
  name nxt ≠ "ELSE" →
  default true (isInsertionMarker <$> targetConnection (connection nxt)) = true →
  onPendingConnection c uid b = Some b.
Proof.
  intros Hw Hf Hx Hn Hne Hm. unfold onPendingConnection. fold (elseWanted c b).
  rewrite Hw, Hf, Hx. simpl. destruct (_ && _); [|done].
  rewrite Hn, bool_decide_eq_false_2 by done.
  destruct (targetConnection (connection nxt)) as [p|]; [|done].
  simpl in Hm. by rewrite Hm.
Qed.

(** There is no slot two ahead, or it is the Else slot, or it holds a
    real block: a pair is inserted there. *)
Lemma pending_grow c uid b i x :
  elseWanted c b = false →
  findInputIndexForConnection c b = Some i →
  inputList b !! i = Some x →
  Js.defined (targetConnection c) && Js.includes (name x) "IF" = true →
  match inputList b !! (i + 2) with
  | None => True
  | Some nxt =>
      name nxt = "ELSE" ∨
      isInsertionMarker <$> targetConnection (connection nxt) = Some false
  end →
  i + 2 ≤ length (inputList b) →
  NoDup (slotNames b) → namesTruthy b → uidFresh uid b →
  onPendingConnection c uid b = Some (withCaseAt (i + 2) uid b).
Proof.
  intros Hw Hf Hx Hc Hn Hi Hnd Htr Hfr. unfold onPendingConnection.
  fold (elseWanted c b). rewrite Hw, Hf, Hx. simpl. rewrite Hc.
  rewrite (insertElseIf_at _ _ _ Hi Hnd Htr Hfr). simpl.
  destruct (inputList b !! (i + 2)) as [nxt|]; [|done].
  case_bool_decide; [done|]. destruct Hn as [?|Hn]; [done|].
  destruct (targetConnection (connection nxt)) as [p|]; [|done].
  simpl in Hn. injection Hn as ->. done.
Qed.

(** The connection of the input at [i] is found at [i]. *)
Lemma find_own_connection b i x :
  NoDup (slotConnIds b) →
  inputList b !! i = Some x →
  findInputIndexForConnection (connection x) b = Some i.
Proof.
  intros Hnd Hx. unfold findInputIndexForConnection.
  assert (list_find (λ input, connId (connection input) = connId (connection x))
            (inputList b) = Some (i, x)) as ->; [|done].
  apply list_find_Some. split_and!; [done..|].
  intros j y Hy Hlt Heq.
  assert (i = j); [|lia].
  eapply (NoDup_lookup _ _ _ _ Hnd); unfold slotConnIds;
    rewrite list_lookup_fmap; [rewrite Hx|rewrite Hy]; simpl; [done|].
  unfold connIdOf. by rewrite Heq.
Qed.

(** A connection of none of the slots is not found. *)
Lemma find_absent_connection c b :
  connId c ∉ slotConnIds b → findInputIndexForConnection c b = None.
Proof.
  intros Hn. unfold findInputIndexForConnection.
  assert (list_find (λ input, connId (connection input) = connId c)
            (inputList b) = None) as ->; [|done].
  apply list_find_None, Forall_forall. intros x Hx Heq. apply Hn.
  rewrite <- Heq. by apply (list_elem_of_fmap_2 connIdOf).
Qed.

Lemma case_names_truthy cs e :
  Forall (λ n, Js.truthy n = true) (name <$> (caseSlots cs ++ elseSlots e)).
Proof.
  apply Forall_fmap, Forall_forall. intros x Hx.
  apply elem_of_app in Hx as [Hx|Hx].
  - by apply elem_of_caseSlots in Hx as (c & _ & [-> | ->]).
  - destruct e as [e|]; simpl in Hx; [|by apply elem_of_nil in Hx].
    by apply list_elem_of_singleton in Hx as ->.
Qed.

(** In a well-formed block the names are distinct and none is empty. *)
Lemma wellFormed_names cs e b :
  wellFormed cs e b → NoDup (slotNames b) ∧ namesTruthy b.
Proof.
  intros [Hl _ Hids _ _ _ _]. unfold namesTruthy, slotNames. rewrite Hl.
  split; [by apply slots_names_NoDup | apply case_names_truthy].
Qed.

(** An identifier of no case names no slot. *)
Lemma wellFormed_uidFresh cs e b uid :
  wellFormed cs e b → uid ∉ (caseId <$> cs) → uidFresh uid b.
Proof.
  intros [Hl _ _ _ _ _ _] Hu. unfold uidFresh, slotNames. rewrite Hl, fmap_app.
  rewrite !not_elem_of_app, if_name_elem, do_name_elem.
  split_and!; try done.
  - destruct e; simpl; [|apply not_elem_of_nil]. rewrite list_elem_of_singleton. discriminate.
  - destruct e; simpl; [|apply not_elem_of_nil]. rewrite list_elem_of_singleton. discriminate.
Qed.

Lemma includes_if s : Js.includes ("IF" +:+ s) "IF" = true.
Proof. done. Qed.

Lemma caseSlots_split cs1 c cs2 :
  caseSlots (cs1 ++ c :: cs2) =
  caseSlots cs1 ++ ifSlot c :: doSlot c :: caseSlots cs2.
Proof. by rewrite caseSlots_app, caseSlots_cons. Qed.

Lemma getInput_defined_elem nm b :
  Js.defined (getInput nm b) = true ↔ nm ∈ slotNames b.
Proof.
  unfold getInput, slotNames. split.
  - destruct (list_find _ _) as [[i x]|] eqn:Hf; [|done]. intros _.
    apply list_find_Some in Hf as (Hx & <- & _).
    eapply list_elem_of_fmap_2, list_elem_of_lookup_2, Hx.
  - intros Hin. apply list_elem_of_fmap in Hin as (x & -> & Hx).
    destruct (list_find_elem_of (λ input, name input = name x) _ x Hx eq_refl)
      as [[i y] ->]. done.
Qed.

Lemma withCaseAt_names index id b :
  slotNames (withCaseAt index id b) ≡ₚ
  ("IF" +:+ id) :: ("DO" +:+ id) :: slotNames b.
Proof.
  unfold slotNames. simpl. rewrite fmap_app, fmap_cons, fmap_cons.
  rewrite <- Permutation_middle. constructor.
  rewrite <- Permutation_middle. constructor.
  by rewrite <- fmap_app, take_drop.
Qed.

(** When no Else slot is to be appended, a second call on the result of
    the first one changes nothing. *)
Lemma pending_twice_core c uid1 uid2 b :
  elseWanted c b = false →
  NoDup (slotNames b) → namesTruthy b → uidFresh uid1 b →
  (∀ i x, findInputIndexForConnection c b = Some i →
          inputList b !! i = Some x →
          Js.defined (targetConnection c) && Js.includes (name x) "IF" = true →
          i + 2 ≤ length (inputList b)) →
  ∃ b1,
    onPendingConnection c uid1 b = Some b1 ∧
    onPendingConnection c uid2 b1 = Some b1.
Proof.
  intros Hw Hnd Htr Hfr Hlast.
  destruct (findInputIndexForConnection c b) as [i|] eqn:Hf.
  2:{ exists b. assert (onPendingConnection c uid1 b = Some b ∧
                        onPendingConnection c uid2 b = Some b) as [? ?]; [|done].
      unfold onPendingConnection. fold (elseWanted c b). by rewrite Hw, Hf. }
  assert (Hfind : list_find (λ input, connId (connection input) = connId c)
                    (inputList b) = Some (i, default (mkInput EmptyString c) (inputList b !! i))).
  { unfold findInputIndexForConnection in Hf.
    destruct (list_find _ _) as [[j x]|] eqn:Hj; [|done]. simpl in Hf. injection Hf as ->.
    pose proof Hj as Hj'. apply list_find_Some in Hj' as [-> _]. done. }
  destruct (inputList b !! i) as [x|] eqn:Hx.
  2:{ apply list_find_Some in Hfind as [Hfind _]. congruence. }
  simpl in Hfind.
  destruct (Js.defined (targetConnection c) && Js.includes (name x) "IF") eqn:Hcond.
  2:{ exists b. split; by eapply pending_nothing. }
  specialize (Hlast i x eq_refl Hx Hcond).
  assert (Hgrow : (match inputList b !! (i + 2) with
                   | None => True
                   | Some nxt => name nxt = "ELSE" ∨
                       isInsertionMarker <$> targetConnection (connection nxt) = Some false
                   end) ∨
                  (∃ nxt, inputList b !! (i + 2) = Some nxt ∧ name nxt ≠ "ELSE" ∧
                     default true (isInsertionMarker <$> targetConnection (connection nxt)) = true)).
  { destruct (inputList b !! (i + 2)) as [nxt|]; [|by left].
    destruct (decide (name nxt = "ELSE")); [by left; left|].
    destruct (targetConnection (connection nxt)) as [p|] eqn:Ht; simpl.
    - destruct (isInsertionMarker p) eqn:Hm; [right|left; right]; [|done].
      exists nxt. split_and!; [done|done|]. rewrite Ht. simpl. done.
    - right. exists nxt. split_and!; [done|done|]. by rewrite Ht. }
  destruct Hgrow as [Hgrow | (nxt & Hn & Hne & Hm)].
  2:{ exists b. split; by eapply pending_blocked. }
  exists (withCaseAt (i + 2) uid1 b). split; [by eapply pending_grow|].
  apply (pending_blocked c uid2 _ i x (ifSlot (newCase uid1 (connCounter b)))).
  - unfold elseWanted in *. apply andb_false_iff in Hw as [Hw|Hw]; [by rewrite Hw|].
    apply andb_false_iff. right. apply negb_false_iff in Hw. apply negb_false_iff.
    apply getInput_defined_elem. apply getInput_defined_elem in Hw.
    rewrite withCaseAt_names. by do 2 (apply elem_of_cons; right).
  - unfold findInputIndexForConnection. simpl.
    erewrite list_find_app_l; [done|].
    apply list_find_Some in Hfind as (H1 & H2 & H3).
    apply list_find_Some. split_and!; [|done|].
    + rewrite lookup_take_lt by lia. done.
    + intros j y Hj Hlt. apply (H3 j y); [|done].
      rewrite lookup_take_lt in Hj by lia. done.
  - simpl. rewrite lookup_app_l by (rewrite length_take; lia).
    by rewrite lookup_take_lt by lia.
  - simpl. rewrite lookup_app_r by (rewrite length_take; lia).
    rewrite length_take. replace (i + 2 - (i + 2) `min` length (inputList b)) with 0 by lia.
    done.
  - discriminate.
  - done.
Qed.

(** The last input of a well-formed block is the Else slot, or a Branch
    slot when there is none. *)
Lemma wellFormed_last cs e b i x :
  wellFormed cs e b →
  inputList b !! i = Some x → S i = length (inputList b) →
  (∃ el, e = Some el ∧ x = elseSlot el) ∨
  (e = None ∧ ∃ c, x = doSlot c).
Proof.
  intros [Hl Hne _ _ _ _ _] Hx Hi. rewrite Hl in Hx, Hi.
  destruct e as [el|]; simpl in *.
  - left. exists el. split; [done|].
    rewrite lookup_app_r in Hx by (rewrite length_app in Hi; simpl in Hi; lia).
    rewrite length_app in Hi. simpl in Hi.
    replace (i - length (caseSlots cs)) with 0 in Hx by lia. by injection Hx as <-.
  - right. split; [done|]. rewrite app_nil_r in Hx, Hi.
    destruct cs as [|c0 cs _] using rev_ind; [done|].
    exists c0. rewrite caseSlots_app in Hx, Hi. simpl in Hx, Hi.
    rewrite length_app in Hi. simpl in Hi.
    rewrite lookup_app_r in Hx by lia.
    replace (i - length (caseSlots cs)) with 1 in Hx by lia. by injection Hx as <-.
Qed.

(** *** The canonical slot list *)

Lemma names_caseSlots cs :
  name <$> caseSlots cs = (caseId <$> cs) ≫= caseNames.
Proof.
  induction cs as [|c cs IH]; [done|].
  by rewrite caseSlots_cons, !fmap_cons, bind_cons, <- IH.
Qed.

Lemma canonicalNames_ids cs n :
  caseId <$> cs = pretty <$> seq 0 n →
  name <$> caseSlots cs = canonicalNames n.
Proof.
  intros Hids. rewrite names_caseSlots, Hids. unfold canonicalNames.
  by rewrite list_fmap_bind.
Qed.

(** When the first pair of a well-formed block is [IF0]/[DO0], the rebuild
    leaves exactly the canonical slot list: the pairs [0 .. n-1] for the
    [n] recorded pairs (the single pair 0 when nothing was recorded), then
    one Else slot if something was attached to the Else slot. *)
Proposition finalize_canonical cs e b :
  wellFormed cs e b →
  caseId <$> head cs = Some "0" →
  ∃ b',
    finalizeConnections b = Some b' ∧
    slotNames b' =
      canonicalNames (length (recorded cs) `max` 1) ++
      (if Js.defined (elseTarget e) then ["ELSE"] else []) ∧
    elseifCount b' = Z.of_nat (length (recorded cs) `max` 1 - 1) ∧
    elseCount b' = (if Js.defined (elseTarget e) then 1 else 0)%Z ∧
    collectTargetCaseConns b' = recorded cs.
Proof.
  intros Hwf Hhead.
  destruct (finalize_recorded _ _ _ Hwf) as (b0 & Hfin0 & Hcol0 & _).
  destruct (finalizeConnections_spec _ _ _ Hwf)
    as (b' & CS & e' & Hfin & Hwf' & Hids & Hpairs & He & Hn & Hm & _).
  rewrite Hfin in Hfin0. injection Hfin0 as <-.
  exists b'. split_and!; [done| |lia|done|].
  - destruct Hwf' as [Hl' _ _ _ _ _ _]. unfold slotNames.
    rewrite Hl', fmap_app, caseSlots_app, fmap_app.
    rewrite (canonicalNames_ids _ _ Hids).
    assert (Helse : name <$> elseSlots e' =
                    if Js.defined (elseTarget e) then ["ELSE"] else []).
    { destruct (elseTarget e); destruct e' as [el|]; done. }
    rewrite Helse. f_equal.
    destruct cs as [|c1 cs]; [done|]. simpl in Hhead. injection Hhead as Hid.
    cbn [head].
    destruct (length (recorded (c1 :: cs))) as [|n] eqn:Hlen.
    + rewrite leftoverAfter_not_in by apply not_elem_of_nil.
      simpl. rewrite Hid. by vm_compute.
    + rewrite leftoverAfter_in.
      * replace (S n `max` 1) with (S n) by lia.
        change (caseSlots (option_list None)) with (@nil Input).
        by rewrite fmap_nil, app_nil_r.
      * rewrite Hid. change "0" with (pretty 0). apply pretty_not_in_seq. lia.
  - rewrite Hcol0. destruct Hwf as [Hl _ _ _ _ _ _].
    unfold collectTargetCaseConns. rewrite Hl. apply collectPairs_slots.
Qed.

(** *** Export and import *)

Lemma nonzero_decide z : Js.nonzero z = negb (bool_decide (z = 0%Z)).
Proof.
  unfold Js.nonzero. f_equal. destruct (Z.eqb_spec z 0).
  - by rewrite bool_decide_eq_true_2.
  - by rewrite bool_decide_eq_false_2.
Qed.

(** [mutationToDom] returns the encoding of the rebuilt block. *)
Lemma mutationToDom_encoded b b' :
  finalizeConnections b = Some b' →
  mutationToDom b = Some (b', encoded b').
Proof.
  intros Hfin. unfold mutationToDom, encoded. rewrite Hfin. simpl.
  rewrite !nonzero_decide.
  destruct (bool_decide (elseifCount b' = 0%Z)),
           (bool_decide (elseCount b' = 0%Z)); done.
Qed.

(** The rebuilt block has an Else slot exactly when the old one held
    something, which is what [elseCount] says. *)
Lemma finalize_hasElse cs e b :
  wellFormed cs e b →
  ∃ b', finalizeConnections b = Some b' ∧
        hasElse b' = Js.defined (elseTarget e) ∧
        elseCount b' = (if Js.defined (elseTarget e) then 1 else 0)%Z ∧
        elseifCount b' = Z.max (Z.of_nat (length (recorded cs)) - 1) 0.
Proof.
  intros Hwf.
  destruct (finalizeConnections_spec _ _ _ Hwf)
    as (b' & CS & e' & Hfin & Hwf' & Hids & Hpairs & He & Hn & Hm & _).
  exists b'. split_and!; try done.
  destruct Hwf' as [Hl' _ _ _ _ _ _]. unfold hasElse.
  rewrite (getInput_else _ _ _ Hl').
  destruct (elseTarget e), e'; done.
Qed.

Lemma mutationToDom_attributes cs e b :
  wellFormed cs e b →
  ∃ b' r,
    mutationToDom b = Some (b', r) ∧
    finalizeConnections b = Some b' ∧
    (r = None ↔ elseifCount b' = 0%Z ∧ elseCount b' = 0%Z) ∧
    (∀ el, r = Some el →
       tagName el = "mutation" ∧
       attributes el =
         (if bool_decide (elseifCount b' = 0%Z) then []
          else [("elseif", pretty (elseifCount b'))]) ++
         (if hasElse b' then [("else", "1")] else [])) ∧
    (elseifCount b' = 0%Z → exportedAttr r "elseif" = None) ∧
    (hasElse b' = false → exportedAttr r "else" = None) ∧
    (hasElse b' = true → exportedAttr r "else" = Some "1").
Proof.
  intros Hwf.
  destruct (finalize_hasElse _ _ _ Hwf) as (b' & Hfin & Hhas & Hm & Hn).
  exists b', (encoded b'). split; [by apply mutationToDom_encoded|].
  split; [done|].
  assert (Hhas' : hasElse b' = negb (bool_decide (elseCount b' = 0%Z))).
  { rewrite Hhas, Hm. by destruct (Js.defined (elseTarget e)). }
  unfold encoded, exportedAttr. rewrite Hhas'.
  destruct (bool_decide (elseifCount b' = 0%Z)) eqn:H1,
           (bool_decide (elseCount b' = 0%Z)) eqn:H2; simpl;
    try apply bool_decide_eq_true in H1; try apply bool_decide_eq_true in H2;
    try apply bool_decide_eq_false in H1; try apply bool_decide_eq_false in H2;
    split_and!; try done; try (intros el [= <-]; done); split; try done;
    intros [? ?]; done.
Qed.

Lemma numbered_names_length j n :
  length (k ← seq j n; caseNames (pretty k)) = 2 * n.
Proof.
  revert j. induction n as [|n IH]; intros j; [done|].
  simpl. rewrite IH. lia.
Qed.

Lemma canonicalNames_length n : length (canonicalNames n) = 2 * n.
Proof. apply numbered_names_length. Qed.

(** When the first pair is [IF0]/[DO0], both counts are 0 after the
    rebuild exactly when the slots are [IF0], [DO0]. *)
Lemma export_none_iff_default cs e b b' :
  wellFormed cs e b →
  caseId <$> head cs = Some "0" →
  finalizeConnections b = Some b' →
  (elseifCount b' = 0%Z ∧ elseCount b' = 0%Z) ↔ slotNames b' = ["IF0"; "DO0"].
Proof.
  intros Hwf Hhead Hfin.
  destruct (finalize_canonical _ _ _ Hwf Hhead) as (b0 & Hfin0 & Hnames & Hn & Hm & _).
  rewrite Hfin in Hfin0. injection Hfin0 as <-.
  rewrite Hnames, Hn, Hm. split.
  - intros [H1 H2]. assert (length (recorded cs) `max` 1 = 1) as -> by lia.
    destruct (Js.defined (elseTarget e)); [done|]. by vm_compute.
  - intros Heq. apply (f_equal length) in Heq as Hlen.
    rewrite length_app, canonicalNames_length in Hlen. simpl in Hlen.
    destruct (Js.defined (elseTarget e)); simpl in Hlen; split; try done; lia.
Qed.

Lemma caseCount_slots cs e b :
  inputList b = caseSlots cs ++ elseSlots e → caseCount b = length cs.
Proof.
  intros Hl. unfold caseCount. rewrite Hl, filter_app, length_app.
  assert (filter (λ input, type (connection input) = INPUT_VALUE) (elseSlots e) = []) as ->.
  { destruct e as [el|]; [|done].
    change (elseSlots (Some el)) with [elseSlot el].
    by rewrite filter_cons, decide_False. }
  simpl. rewrite Nat.add_0_r. clear Hl.
  induction cs as [|c cs IH]; [done|].
  rewrite caseSlots_cons, filter_cons, decide_True by done.
  rewrite filter_cons, decide_False by done. simpl. by rewrite IH.
Qed.

Lemma recorded_all_populated cs :
  Forall (λ c, populated c = true) cs → length (recorded cs) = length cs.
Proof.
  intros Hall. unfold recorded. rewrite length_fmap.
  induction Hall as [|c cs Hc _ IH]; [done|].
  rewrite filter_cons, decide_True by done. simpl. by rewrite IH.
Qed.

Lemma recorded_length_le cs : length (recorded cs) ≤ length cs.
Proof. unfold recorded. rewrite length_fmap. apply length_filter. Qed.

(** A canonical block has the canonical names, and the rebuild leaves
    them as they are and sets the counts to its shape. *)
Lemma canonicalBlock_finalize k withElse cs e b :
  canonicalBlock k withElse cs e b →
  slotNames b = canonicalNames (S k) ++ (if withElse then ["ELSE"] else []) ∧
  caseCount b = S k ∧ hasElse b = withElse ∧
  ∃ b', finalizeConnections b = Some b' ∧
        slotNames b' = slotNames b ∧
        elseifCount b' = Z.of_nat k ∧
        elseCount b' = (if withElse then 1 else 0)%Z.
Proof.
  intros [Hwf Hids Hpop He Het]. pose proof Hwf as [Hl _ _ _ _ _ _].
  assert (Hlen : length cs = S k).
  { apply (f_equal length) in Hids. by rewrite !length_fmap, length_seq in Hids. }
  assert (Hnames : slotNames b =
            canonicalNames (S k) ++ (if withElse then ["ELSE"] else [])).
  { unfold slotNames. rewrite Hl, fmap_app, (canonicalNames_ids _ _ Hids).
    f_equal. rewrite <- He. by destruct e. }
  split_and!; [done| | |].
  - by rewrite (caseCount_slots _ _ _ Hl).
  - unfold hasElse. rewrite (getInput_else _ _ _ Hl), <- He. by destruct e.
  - assert (Hhead : caseId <$> head cs = Some "0").
    { destruct cs as [|c cs]; [done|]. rewrite fmap_cons in Hids.
      change (seq 0 (S k)) with (0 :: seq 1 k) in Hids. rewrite fmap_cons in Hids.
      injection Hids as Hc _. simpl. by rewrite Hc. }
    destruct (finalize_canonical _ _ _ Hwf Hhead) as (b' & Hfin & Hn' & Hc & Hm & _).
    assert (Hmax : length (recorded cs) `max` 1 = S k).
    { destruct k as [|k].
      - pose proof (recorded_length_le cs). lia.
      - rewrite recorded_all_populated by (apply Hpop; lia). lia. }
    exists b'. rewrite Hmax, Het in *. split_and!; [done| |lia|done].
    by rewrite Hn', Hnames.
Qed.

(** *** [deserializeCounts] *)

Lemma append_pairs_counts (f : nat → string) l b :
  let b' := foldl (λ b i, appendCase b (f i)) b l in
  elseifCount b' = elseifCount b ∧ elseCount b' = elseCount b.
Proof.
  revert b. induction l as [|i l IH]; intros b; [done|].
  simpl. destruct (IH (appendCase b (f i))) as [H1 H2].
  simpl in *. by rewrite H1, H2.
Qed.

(** The counts [deserializeCounts] stores. *)
Lemma deserializeCounts_counts xml b :
  elseifCount (deserializeCounts xml b) =
    Js.orZero (Js.parseInt (default "0" (getAttribute xml "elseif"))) ∧
  elseCount (deserializeCounts xml b) =
    Js.orZero (Js.parseInt (default "0" (getAttribute xml "else"))).
Proof.
  unfold deserializeCounts.
  set (n := Js.orZero (Js.parseInt (default "0" (getAttribute xml "elseif")))).
  set (e := Js.orZero (Js.parseInt (default "0" (getAttribute xml "else")))).
  destruct (append_pairs_counts pretty (seq 1 (Z.to_nat n)) (withCounts n e b))
    as [H1 H2].
  simpl in H1, H2. destruct (Js.nonzero e); simpl; by rewrite ?H1, ?H2.
Qed.

(** *** Rebuilding twice *)

Lemma shape_caseSlots cs : slotView <$> caseSlots cs = cs ≫= caseShape.
Proof.
  induction cs as [|c cs IH]; [done|].
  by rewrite caseSlots_cons, !fmap_cons, bind_cons, <- IH.
Qed.

Lemma caseShape_ext cs1 cs2 :
  caseId <$> cs1 = caseId <$> cs2 → casePair <$> cs1 = casePair <$> cs2 →
  cs1 ≫= caseShape = cs2 ≫= caseShape.
Proof.
  revert cs2. induction cs1 as [|c1 cs1 IH]; intros [|c2 cs2] Hid Hp; try done.
  rewrite !fmap_cons in Hid. rewrite !fmap_cons in Hp.
  injection Hid as Hid1 Hid.
  assert (Hpt : casePair <$> cs1 = casePair <$> cs2) by (by injection Hp).
  assert (Hi : ifAttached c1 = ifAttached c2) by (by injection Hp).
  assert (Hd : doAttached c1 = doAttached c2) by (by injection Hp).
  rewrite !bind_cons, (IH cs2) by done. f_equal.
  unfold caseShape. by rewrite Hi, Hd, Hid1.
Qed.

(** When the first pair of a well-formed block is [IF0]/[DO0], a second
    rebuild changes nothing that can be seen: same slots, same
    attachments, same counts. *)
Proposition finalize_twice_when_first_is_zero cs e b :
  wellFormed cs e b →
  caseId <$> head cs = Some "0" →
  ∃ b1 b2,
    finalizeConnections b = Some b1 ∧
    finalizeConnections b1 = Some b2 ∧
    shape b2 = shape b1 ∧
    elseifCount b2 = elseifCount b1 ∧
    elseCount b2 = elseCount b1.
Proof.
  intros Hwf Hhead.
  destruct (finalizeConnections_spec _ _ _ Hwf)
    as (b1 & CS1 & e1 & Hfin1 & Hwf1 & Hids1 & Hpairs1 & He1 & Hn1 & Hm1 & _).
  destruct (finalizeConnections_spec _ _ _ Hwf1)
    as (b2 & CS2 & e2 & Hfin2 & Hwf2 & Hids2 & Hpairs2 & He2 & Hn2 & Hm2 & _).
  assert (Hpop : Forall (λ r, Js.defined (ifTarget r) || Js.defined (doTarget r) = true)
                        (casePair <$> CS1)).
  { rewrite Hpairs1. apply recorded_populated. }
  rewrite (recorded_rebuilt _ _ _ Hpop) in *.
  assert (Hlen : length (casePair <$> CS1) = length (recorded cs)) by (by rewrite Hpairs1).
  rewrite Hlen in *.
  assert (Het : elseTarget e1 = elseTarget e).
  { destruct e1 as [[n1 [t1|]]|], (elseTarget e); simpl in *; congruence. }
  rewrite Het in Hm2.
  exists b1, b2. split_and!; [done|done| |congruence|congruence].
  destruct Hwf1 as [Hl1 _ _ _ _ _ _]. destruct Hwf2 as [Hl2 _ _ _ _ _ _].
  unfold shape. rewrite Hl1, Hl2, !fmap_app, !shape_caseSlots.
  f_equal.
  - destruct cs as [|c1 cs]; [done|]. simpl in Hhead. injection Hhead as Hid.
    cbn [head] in *.
    destruct (length (recorded (c1 :: cs))) as [|n] eqn:Hn.
    + destruct CS1; [|by rewrite length_fmap in Hlen]. destruct CS2; [|done].
      rewrite leftoverAfter_not_in by apply not_elem_of_nil. simpl. done.
    + assert (Hin : "0" ∈ (pretty <$> seq 0 (S n))).
      { change "0" with (pretty 0). apply pretty_not_in_seq. lia. }
      rewrite leftoverAfter_in by (by rewrite Hid).
      change (option_list None) with (@nil Case). rewrite !app_nil_r in *.
      destruct CS1 as [|c CS1]; [by rewrite length_fmap in Hlen|].
      cbn [head app].
      rewrite leftoverAfter_in.
      2:{ rewrite fmap_cons in Hids1. change (seq 0 (S n)) with (0 :: seq 1 n) in Hids1.
          rewrite fmap_cons in Hids1. injection Hids1 as -> _.
          apply pretty_not_in_seq. lia. }
      change (option_list None) with (@nil Case). rewrite app_nil_r.
      apply caseShape_ext; congruence.
  - rewrite Het in He2.
    destruct e1 as [[n1 [t1|]]|], e2 as [[n2 [t2|]]|], (elseTarget e);
      simpl in *; try done.
    all: unfold slotView; simpl; congruence.
Qed.

(** *** Printing and parsing integers *)

Lemma digitValue_char d :
  (d < 10)%N → Js.digitValue (pretty_N_char d) = Some (Z.of_N d).
Proof.
  intros Hd.
  assert (d = 0 ∨ d = 1 ∨ d = 2 ∨ d = 3 ∨ d = 4 ∨ d = 5 ∨ d = 6 ∨ d = 7 ∨
          d = 8 ∨ d = 9)%N as Hc by lia.
  repeat destruct Hc as [->|Hc]; try subst d; reflexivity.
Qed.

(** Reading the digits [pretty_N_go] puts in front of [s]. *)
Lemma digits_pretty_go x :
  ∃ p : Z, ∀ s seen acc,
    Js.digits (pretty_N_go x s) seen acc =
    Js.digits s (seen || bool_decide (0 < x)%N) (acc * p + Z.of_N x)%Z.
Proof.
  induction (N.lt_wf_0 x) as [x _ IH].
  destruct (decide (0 < x)%N) as [Hx|Hx].
  - destruct (IH (x `div` 10)%N) as [p Hp]; [by apply N.div_lt|].
    exists (10 * p)%Z. intros s seen acc.
    rewrite pretty_N_go_step, Hp by done. simpl.
    rewrite digitValue_char by (by apply N.mod_lt).
    rewrite (bool_decide_eq_true_2 (0 < x)%N) by done. rewrite orb_true_r.
    f_equal.
    assert (Z.of_N x = 10 * Z.of_N (x `div` 10) + Z.of_N (x `mod` 10))%Z
      as -> by (pose proof (N.div_mod x 10 ltac:(done)); lia).
    ring.
  - assert (x = 0%N) as -> by lia. exists 1%Z. intros s seen acc.
    rewrite pretty_N_go_0. simpl. rewrite orb_false_r. f_equal. lia.
Qed.

Lemma pretty_go_head x s :
  (0 < x)%N → ∃ d r, (d < 10)%N ∧ pretty_N_go x s = String (pretty_N_char d) r.
Proof.
  revert s. induction (N.lt_wf_0 x) as [x _ IH]. intros s Hx.
  rewrite pretty_N_go_step by done.
  destruct (N.eq_0_gt_0_cases (x `div` 10)) as [Hd|Hd].
  - rewrite Hd, pretty_N_go_0.
    eexists _, _. split; [|done]. by apply N.mod_lt.
  - apply IH; [by apply N.div_lt|done].
Qed.

Lemma parseInt_digit_head d r :
  (d < 10)%N →
  Js.parseInt (String (pretty_N_char d) r) =
  Js.digits (String (pretty_N_char d) r) false 0%Z.
Proof.
  intros Hd.
  assert (d = 0 ∨ d = 1 ∨ d = 2 ∨ d = 3 ∨ d = 4 ∨ d = 5 ∨ d = 6 ∨ d = 7 ∨
          d = 8 ∨ d = 9)%N as Hc by lia.
  repeat destruct Hc as [->|Hc]; try subst d; reflexivity.
Qed.

Lemma digits_pretty_positive p :
  Js.digits (pretty (N.pos p)) false 0%Z = Some (Z.pos p).
Proof.
  unfold pretty, pretty_N. rewrite decide_False by done.
  destruct (digits_pretty_go (N.pos p)) as [q Hq]. rewrite Hq. simpl. done.
Qed.

(** [parseInt] skips the white space of the language, a no-break space
    as well as a space or a line end, before the sign. *)
Lemma parseInt_skips_white_space :
  Js.parseInt (nbsp +:+ " 2") = Some 2%Z ∧
  Js.parseInt (String (ascii_of_nat 10) nbsp +:+ "-7x") = Some (-7)%Z ∧
  Js.parseInt (nbsp +:+ "x") = None.
Proof. by vm_compute. Qed.

(** [parseInt] reads the decimal form of an integer back. *)
Lemma parseInt_pretty (z : Z) : Js.parseInt (pretty z) = Some z.
Proof.
  destruct z as [|p|p].
  - reflexivity.
  - change (pretty (Z.pos p)) with (pretty (N.pos p)).
    pose proof (digits_pretty_positive p) as Hd.
    unfold pretty, pretty_N in *. rewrite decide_False in * by done.
    destruct (pretty_go_head (N.pos p) "" eq_refl) as (d & r & Hlt & Hr).
    rewrite Hr in *. by rewrite parseInt_digit_head.
  - change (pretty (Z.neg p)) with ("-" +:+ pretty (N.pos p)).
    change (Js.parseInt ("-" +:+ pretty (N.pos p)))
      with (Z.opp <$> Js.digits (pretty (N.pos p)) false 0%Z).
    by rewrite digits_pretty_positive.
Qed.

(** *** [moveInputBefore] and [insertElseIf] on any slot list *)

(** The search loop of [moveInputBefore] finds both indices when both
    names are names of inputs: the input to move, and the reference input
    or the end of the list. *)
Lemma findBoth_found nm ref l : ∀ pre ii ri,
  nm ≠ ref →
  (is_Some ii ∨ nm ∈ (name <$> l)) →
  (is_Some ri ∨ (Js.truthy ref = true ∧ ref ∈ (name <$> l))) →
  (∀ a, ii = Some a → ∃ x, (pre ++ l) !! a = Some x ∧ name x = nm) →
  (∀ r, ri = Some r →
     r = length (pre ++ l) ∨ ∃ y, (pre ++ l) !! r = Some y ∧ name y = ref) →
  ∃ a r x,
    findBoth nm ref l (length pre) ii ri = (Some a, Some r) ∧
    (pre ++ l) !! a = Some x ∧ name x = nm ∧
    (r = length (pre ++ l) ∨ ∃ y, (pre ++ l) !! r = Some y ∧ name y = ref).
Proof.
  induction l as [|input l IH]; intros pre ii ri Hne Hi Hr Hii Hri.
  - simpl. destruct Hi as [[a ->]|Hi]; [|by apply elem_of_nil in Hi].
    destruct Hr as [[r ->]|[_ Hr]]; [|by apply elem_of_nil in Hr].
    destruct (Hii a eq_refl) as (x & Hx & Hnx).
    exists a, r, x. split_and!; [done..|]. by apply Hri.
  - assert (Hpre : pre ++ input :: l = (pre ++ [input]) ++ l)
      by (by rewrite <- app_assoc).
    assert (Hlen : S (length pre) = length (pre ++ [input]))
      by (rewrite length_app; simpl; lia).
    assert (Hhere : (pre ++ input :: l) !! length pre = Some input)
      by (by apply list_lookup_middle).
    simpl. rewrite Hlen.
    case_bool_decide as Hn.
    + destruct ri as [r|].
      * exists (length pre), r, input. split_and!; [done..|]. by apply Hri.
      * rewrite Hpre in *. apply IH; [done|left; eauto| |by intros a [= <-]; eauto|done].
        right. destruct Hr as [[? [=]]|[Ht Hr]]. split; [done|].
        rewrite fmap_cons in Hr. apply elem_of_cons in Hr as [Hr|Hr]; [|done].
        congruence.
    + assert (Hi' : is_Some ii ∨ nm ∈ (name <$> l)).
      { destruct Hi as [Hi|Hi]; [by left|right].
        rewrite fmap_cons in Hi. apply elem_of_cons in Hi as [Hi|Hi]; [|done].
        congruence. }
      destruct (Js.truthy ref && bool_decide (name input = ref)) eqn:Href.
      * apply andb_true_iff in Href as [Ht Href].
        apply bool_decide_eq_true in Href.
        destruct ii as [a|].
        -- destruct (Hii a eq_refl) as (x & Hx & Hnx).
           exists a, (length pre), x. split_and!; [done..|]. right. eauto.
        -- rewrite Hpre in *. apply IH; [done|done|left; eauto|done|].
           intros r [= <-]. right. by exists input.
      * rewrite Hpre in *. apply IH; [done|done| |done|done].
        destruct Hr as [Hr|[Ht Hr]]; [by left|right]. split; [done|].
        rewrite fmap_cons in Hr. apply elem_of_cons in Hr as [Hr|Hr]; [|done].
        rewrite Ht in Href. simpl in Href.
        by rewrite bool_decide_eq_true_2 in Href.
Qed.

(** [moveNumberedInputBefore] in range only changes the order. *)
Lemma moveNumberedInputBefore_perm a r x b :
  inputList b !! a = Some x → r ≤ length (inputList b) → a ≠ r →
  ∃ l', moveNumberedInputBefore a r b = Some (withInputs l' b) ∧
        l' ≡ₚ inputList b.
Proof.
  intros Hx Hr Hne. apply lookup_lt_Some in Hx as Ha.
  unfold moveNumberedInputBefore.
  rewrite !bool_decide_eq_false_2 by lia. rewrite Hx. simpl.
  eexists. split; [done|].
  rewrite <- Permutation_middle, take_drop.
  symmetry. by apply delete_Permutation.
Qed.

(** [moveInputBefore] returns whenever both names are names of inputs,
    and only changes the order of the inputs. *)
Lemma moveInputBefore_perm nm ref b :
  nm ∈ slotNames b → ref ∈ slotNames b →
  ∃ l', moveInputBefore nm ref b = Some (withInputs l' b) ∧
        l' ≡ₚ inputList b.
Proof.
  intros Hn Hr. unfold moveInputBefore. case_bool_decide as Hne.
  { exists (inputList b). by rewrite withInputs_same. }
  destruct (findBoth_found nm ref (inputList b) []
              None (if Js.truthy ref then None else Some (length (inputList b))))
    as (a & r & x & Hfb & Hx & Hnx & Hrr); simpl.
  - done.
  - by right.
  - destruct (Js.truthy ref); [by right|left; eauto].
  - done.
  - intros r. destruct (Js.truthy ref); [done|]. intros [= <-]. by left.
  - simpl in *. rewrite Hfb. apply lookup_lt_Some in Hx as Ha.
    apply (moveNumberedInputBefore_perm a r x); [done| |].
    + destruct Hrr as [->|(y & Hy & _)]; [done|].
      apply lookup_lt_Some in Hy. lia.
    + destruct Hrr as [->|(y & Hy & Hny)]; [lia|]. intros ->. congruence.
Qed.

Lemma lookup_name_elem (l : list Input) i x :
  l !! i = Some x → name x ∈ (name <$> l).
Proof. intros Hx. apply list_elem_of_fmap. exists x. split; [done|]. by eapply list_elem_of_lookup_2. Qed.

(** *** Hovering over a well-formed block *)

(** Appending an empty Else slot keeps a block well formed. *)
Lemma appendElse_wellFormed cs b :
  wellFormed cs None b →
  wellFormed cs (Some (connCounter b, None)) (appendStatementInput "ELSE" b).1.
Proof.
  intros [Hl Hne Hids Hconns Hfresh Hpeers Hfits].
  simpl in Hl. rewrite app_nil_r in Hl.
  unfold appendStatementInput, appendInput, makeConnection. simpl.
  split; simpl; try done.
  - by rewrite Hl.
  - unfold slotConnIds in *. simpl. rewrite fmap_app. simpl.
    apply NoDup_app. split_and!; [done| |apply NoDup_singleton].
    intros n Hn. rewrite list_elem_of_singleton. intros ->.
    rewrite Forall_forall in Hfresh. apply Hfresh in Hn. unfold connIdOf in Hn.
    simpl in Hn. lia.
  - unfold slotConnIds in *. simpl. rewrite fmap_app. simpl.
    apply Forall_app. split.
    + eapply Forall_impl; [exact Hfresh|]. simpl. lia.
    + apply Forall_singleton. unfold connIdOf. simpl. lia.
  - rewrite attachedPeers_app. simpl. by rewrite app_nil_r.
  - apply Forall_app. split; [done|]. by apply Forall_singleton.
Qed.

Lemma withCaseAt_slots cs1 cs2 e b uid :
  inputList b = caseSlots (cs1 ++ cs2) ++ elseSlots e →
  inputList (withCaseAt (2 * length cs1) uid b) =
  caseSlots (cs1 ++ newCase uid (connCounter b) :: cs2) ++ elseSlots e.
Proof.
  intros Hl. unfold withCaseAt. cbn [inputList].
  rewrite Hl, !caseSlots_app, <- !app_assoc.
  rewrite <- (caseSlots_length cs1).
  rewrite take_app_length, drop_app_length.
  by rewrite caseSlots_cons.
Qed.

(** Inserting a new empty case between two cases keeps a block well
    formed. *)
Lemma withCaseAt_wellFormed cs1 cs2 e b uid :
  wellFormed (cs1 ++ cs2) e b →
  uid ∉ (caseId <$> (cs1 ++ cs2)) →
  wellFormed (cs1 ++ newCase uid (connCounter b) :: cs2) e
             (withCaseAt (2 * length cs1) uid b).
Proof.
  intros [Hl Hne Hids Hconns Hfresh Hpeers Hfits] Hu.
  pose proof (withCaseAt_slots cs1 cs2 e b uid Hl) as Hl'.
  assert (Hperm : inputList (withCaseAt (2 * length cs1) uid b) ≡ₚ
                  caseSlots [newCase uid (connCounter b)] ++ inputList b).
  { rewrite Hl', Hl, !caseSlots_app, caseSlots_cons, <- !app_assoc. simpl.
    by rewrite <- !Permutation_middle. }
  split.
  - done.
  - by destruct cs1.
  - rewrite fmap_app, fmap_cons, <- Permutation_middle. simpl.
    apply NoDup_cons. by rewrite <- fmap_app.
  - unfold slotConnIds in *. rewrite Hperm. simpl.
    rewrite Forall_forall in Hfresh.
    apply NoDup_cons. split.
    { rewrite not_elem_of_cons. split; [unfold connIdOf; simpl; lia|].
      intros Hin. apply Hfresh in Hin. unfold connIdOf in Hin. simpl in Hin. lia. }
    apply NoDup_cons. split; [|done].
    intros Hin. apply Hfresh in Hin. unfold connIdOf in Hin. simpl in Hin. lia.
  - unfold slotConnIds in *. rewrite Hperm. simpl.
    apply Forall_cons. split; [unfold connIdOf; simpl; lia|].
    apply Forall_cons. split; [unfold connIdOf; simpl; lia|].
    eapply Forall_impl; [exact Hfresh|]. simpl. lia.
  - assert (attachedPeers (inputList (withCaseAt (2 * length cs1) uid b)) =
            attachedPeers (inputList b)) as ->; [|done].
    rewrite Hl', Hl, !caseSlots_app, caseSlots_cons, !attachedPeers_app.
    done.
  - rewrite Hperm. simpl. by repeat (apply Forall_cons; split; [done|]).
Qed.

Lemma includes_do s : Js.includes ("DO" +:+ s) "IF" = Js.includes s "IF".
Proof. by destruct s. Qed.

Lemma wellFormed_lookup_if cs1 ck cs2 e b :
  inputList b = caseSlots (cs1 ++ ck :: cs2) ++ elseSlots e →
  inputList b !! (2 * length cs1) = Some (ifSlot ck) ∧
  inputList b !! (2 * length cs1 + 1) = Some (doSlot ck) ∧
  inputList b !! (2 * length cs1 + 2) = head (caseSlots cs2 ++ elseSlots e) ∧
  2 * length cs1 + 2 ≤ length (inputList b).
Proof.
  intros ->. rewrite caseSlots_split, <- app_assoc, <- (caseSlots_length cs1).
  split_and!.
  - by apply list_lookup_middle.
  - rewrite lookup_app_r by lia.
    by replace (length (caseSlots cs1) + 1 - length (caseSlots cs1)) with 1 by lia.
  - rewrite lookup_app_r by lia.
    replace (length (caseSlots cs1) + 2 - length (caseSlots cs1)) with 2 by lia.
    simpl. by destruct (caseSlots cs2 ++ elseSlots e).
  - rewrite length_app. simpl. lia.
Qed.

(** A hover over a Condition slot of a well-formed block. *)
Lemma pending_on_if cs1 ck cs2 e b uid :
  wellFormed (cs1 ++ ck :: cs2) e b →
  uid ∉ (caseId <$> (cs1 ++ ck :: cs2)) →
  onPendingConnection (connection (ifSlot ck)) uid b =
    Some (if growsAfter ck cs2 then withCaseAt (2 * S (length cs1)) uid b
          else b).
Proof.
  intros Hwf Hu.
  pose proof Hwf as [Hl _ _ Hconns _ _ _].
  destruct (wellFormed_names _ _ _ Hwf) as [Hnd Htr].
  pose proof (wellFormed_uidFresh _ _ _ _ Hwf Hu) as Hfr.
  destruct (wellFormed_lookup_if _ _ _ _ _ Hl) as (Hx & _ & Hn & Hlen).
  set (c := connection (ifSlot ck)).
  set (i := 2 * length cs1) in *.
  assert (Hw : elseWanted c b = false) by done.
  pose proof (find_own_connection _ _ _ Hconns Hx) as Hf.
  replace (2 * S (length cs1)) with (i + 2) by lia.
  unfold growsAfter.
  destruct (ifAttached ck) as [q|] eqn:Hq; simpl.
  2:{ apply (pending_nothing c uid b i (ifSlot ck)); [done..|].
      simpl. by rewrite Hq. }
  assert (Hc : Js.defined (targetConnection c) &&
               Js.includes (name (ifSlot ck)) "IF" = true).
  { simpl. by rewrite Hq. }
  destruct cs2 as [|cn cs2].
  - apply (pending_grow c uid b i (ifSlot ck)); try done.
    rewrite Hn. simpl. destruct e as [el|]; simpl; [by left|done].
  - rewrite caseSlots_cons in Hn. simpl in Hn.
    destruct (ifAttached cn) as [p|] eqn:Hp.
    + destruct (isInsertionMarker p) eqn:Hm; simpl.
      * apply (pending_blocked c uid b i (ifSlot ck) (ifSlot cn));
          [done|done|done|done|discriminate|].
        simpl. rewrite Hp. simpl. by rewrite Hm.
      * apply (pending_grow c uid b i (ifSlot ck)); try done.
        rewrite Hn. right. simpl. rewrite Hp. simpl. by rewrite Hm.
    + apply (pending_blocked c uid b i (ifSlot ck) (ifSlot cn));
        [done|done|done|done|discriminate|].
      simpl. by rewrite Hp.
Qed.

(** A hover over a statement slot whose name does not contain [IF]. *)
Lemma pending_on_statement cs e b x uid :
  wellFormed cs e b →
  x ∈ inputList b →
  type (connection x) = NEXT_STATEMENT →
  Js.includes (name x) "IF" = false →
  ∃ b',
    onPendingConnection (connection x) uid b = Some b' ∧
    inputList b' =
      inputList b ++
      (if hasElse b then [] else [elseSlot (connCounter b, None)]) ∧
    wellFormed cs (withElseAdded e b) b' ∧
    sameFields b b'.
Proof.
  intros Hwf Hin Hty Hinc.
  pose proof Hwf as [Hl _ _ Hconns _ _ _].
  apply list_elem_of_lookup in Hin as [i Hx].
  assert (Hhas : hasElse b = Js.defined e).
  { unfold hasElse. rewrite (getInput_else _ _ _ Hl). by destruct e. }
  assert (Hw : elseWanted (connection x) b = negb (Js.defined e)).
  { unfold elseWanted. fold (hasElse b). rewrite Hhas, Hty.
    by rewrite bool_decide_eq_true_2. }
  rewrite Hhas. destruct e as [el|]; simpl in *.
  - exists b. rewrite app_nil_r. split_and!; [|done..].
    apply (pending_nothing _ uid b i x); [done| |done|].
    + by apply find_own_connection.
    + rewrite Hinc. apply andb_false_r.
  - destruct (pending_else_first (connection x) uid b Hw) as [-> Hw'].
    pose proof (appendElse_wellFormed _ _ Hwf) as Hwf1.
    pose proof Hwf1 as [_ _ _ Hconns1 _ _ _].
    exists (appendStatementInput "ELSE" b).1. split_and!; [|done..].
    assert (Hx1 : inputList (appendStatementInput "ELSE" b).1 !! i = Some x).
    { simpl. by apply lookup_app_l_Some. }
    apply (pending_nothing _ uid _ i x); [done| |done|].
    + by apply find_own_connection.
    + rewrite Hinc. apply andb_false_r.
Qed.

Lemma recorded_app cs1 cs2 : recorded (cs1 ++ cs2) = recorded cs1 ++ recorded cs2.
Proof. unfold recorded. by rewrite filter_app, fmap_app. Qed.

Lemma recorded_newCase id n cs : recorded (newCase id n :: cs) = recorded cs.
Proof. done. Qed.

(** A hover over any slot of a well-formed block whose case identifiers
    do not contain [IF] leaves a well-formed block. *)
Lemma pending_wellFormed cs e b x uid :
  wellFormed cs e b →
  x ∈ inputList b →
  uid ∉ (caseId <$> cs) →
  Forall (λ k, Js.includes (caseId k) "IF" = false) cs →
  ∃ b' cs' e',
    onPendingConnection (connection x) uid b = Some b' ∧
    wellFormed cs' e' b' ∧
    recorded cs' = recorded cs ∧
    elseTarget e' = elseTarget e ∧
    head cs' = head cs ∧
    length cs ≤ length cs' ≤ S (length cs) ∧
    sameFields b b'.
Proof.
  intros Hwf Hin Hu Hno.
  pose proof Hwf as [Hl _ _ _ _ _ _].
  assert (Hstmt : type (connection x) = NEXT_STATEMENT →
                  Js.includes (name x) "IF" = false →
    ∃ b' cs' e',
      onPendingConnection (connection x) uid b = Some b' ∧
      wellFormed cs' e' b' ∧ recorded cs' = recorded cs ∧
      elseTarget e' = elseTarget e ∧ head cs' = head cs ∧
      length cs ≤ length cs' ≤ S (length cs) ∧ sameFields b b').
  { intros Hty Hinc.
    destruct (pending_on_statement _ _ _ _ uid Hwf Hin Hty Hinc)
      as (b' & Hp & _ & Hwf' & Hsame).
    exists b', cs, (withElseAdded e b). split_and!; try done; [|lia].
    by destruct e. }
  pose proof Hin as Hin'. rewrite Hl in Hin'.
  apply elem_of_app in Hin' as [Hc|He].
  - apply elem_of_caseSlots in Hc as (ck & Hck & [->| ->]).
    + apply list_elem_of_split in Hck as (cs1 & cs2 & ->).
      rewrite (pending_on_if _ _ _ _ _ _ Hwf Hu).
      destruct (growsAfter ck cs2).
      * eexists _, (cs1 ++ ck :: newCase uid (connCounter b) :: cs2), e.
        split; [done|]. split_and!; try done.
        -- replace (cs1 ++ ck :: newCase uid (connCounter b) :: cs2)
             with ((cs1 ++ [ck]) ++ newCase uid (connCounter b) :: cs2)
             by (by rewrite <- app_assoc).
           replace (2 * S (length cs1)) with (2 * length (cs1 ++ [ck]))
             by (rewrite length_app; simpl; lia).
           apply withCaseAt_wellFormed; by rewrite <- app_assoc.
        -- rewrite !recorded_app.
           change (ck :: newCase uid (connCounter b) :: cs2)
             with ([ck] ++ newCase uid (connCounter b) :: cs2).
           change (ck :: cs2) with ([ck] ++ cs2).
           by rewrite !recorded_app, recorded_newCase.
        -- by destruct cs1.
        -- rewrite !length_app. simpl. lia.
        -- rewrite !length_app. simpl. lia.
      * exists b, (cs1 ++ ck :: cs2), e. split_and!; try done; lia.
    + apply Hstmt; [done|].
      change (name (doSlot ck)) with ("DO" +:+ caseId ck). rewrite includes_do.
      rewrite Forall_forall in Hno. by apply Hno.
  - destruct e as [el|]; [|by apply elem_of_nil in He].
    apply list_elem_of_singleton in He as ->. by apply Hstmt.
Qed.

(** *** The decoders *)

Lemma numberedCases_ids n ids : caseId <$> numberedCases n ids = ids.
Proof. revert n. induction ids as [|id ids IH]; intros n; [done|]. simpl. by rewrite IH. Qed.

Lemma numberedCases_empty n ids :
  Forall (λ c, populated c = false) (numberedCases n ids).
Proof.
  revert n. induction ids as [|id ids IH]; intros n; simpl; [done|].
  apply Forall_cons. by split.
Qed.

Lemma appendCase_eq b id :
  appendCase b id =
  mkBlock (inputList b ++ caseSlots [newCase id (connCounter b)])
          (nextConnection b) (previousConnection b)
          (elseifCount b) (elseCount b) (S (S (connCounter b))).
Proof.
  unfold appendCase. rewrite setCheck_appendValueInput.
  unfold appendStatementInput, appendInput, makeConnection, withInputs.
  simpl. by rewrite <- app_assoc.
Qed.

Lemma appendCase_names b id :
  slotNames (appendCase b id) = slotNames b ++ caseNames id.
Proof. rewrite appendCase_eq. unfold slotNames. simpl. by rewrite fmap_app. Qed.

Lemma appendCase_fields b id :
  sameFields b (appendCase b id) ∧
  connCounter (appendCase b id) = S (S (connCounter b)).
Proof. by rewrite appendCase_eq. Qed.

Lemma foldl_appendCase_names ids : ∀ b,
  slotNames (foldl appendCase b ids) = slotNames b ++ (ids ≫= caseNames).
Proof.
  induction ids as [|id ids IH]; intros b; simpl.
  - by rewrite app_nil_r.
  - by rewrite IH, appendCase_names, <- app_assoc.
Qed.

Lemma foldl_appendCase_fields ids : ∀ b,
  sameFields b (foldl appendCase b ids).
Proof.
  induction ids as [|id ids IH]; intros b; simpl; [done|].
  eapply sameFields_trans; [|apply IH]. done.
Qed.

Lemma appendCase_withCaseAt cs b id :
  inputList b = caseSlots cs →
  appendCase b id = withCaseAt (2 * length cs) id b.
Proof.
  intros Hl. rewrite appendCase_eq. unfold withCaseAt.
  rewrite <- (caseSlots_length cs), <- Hl.
  rewrite take_ge, drop_ge by lia. by rewrite app_nil_r.
Qed.

Lemma appendCase_wellFormed cs b id :
  wellFormed cs None b → id ∉ (caseId <$> cs) →
  wellFormed (cs ++ [newCase id (connCounter b)]) None (appendCase b id).
Proof.
  intros Hwf Hid. pose proof Hwf as [Hl _ _ _ _ _ _].
  simpl in Hl. rewrite app_nil_r in Hl.
  rewrite (appendCase_withCaseAt cs) by done.
  apply withCaseAt_wellFormed; by rewrite app_nil_r.
Qed.

(** Appending empty cases with identifiers that are new and distinct
    keeps a block well formed. *)
Lemma foldl_appendCase_wellFormed ids : ∀ cs b,
  wellFormed cs None b → NoDup ids →
  (∀ id, id ∈ ids → id ∉ (caseId <$> cs)) →
  wellFormed (cs ++ numberedCases (connCounter b) ids) None
             (foldl appendCase b ids).
Proof.
  induction ids as [|id ids IH]; intros cs b Hwf Hnd Hdis; simpl.
  - by rewrite app_nil_r.
  - apply NoDup_cons in Hnd as [Hid Hnd].
    replace (cs ++ newCase id (connCounter b) :: numberedCases (S (S (connCounter b))) ids)
      with ((cs ++ [newCase id (connCounter b)]) ++
            numberedCases (connCounter (appendCase b id)) ids)
      by (by rewrite <- app_assoc).
    apply IH; [|done|].
    + apply appendCase_wellFormed; [done|]. apply Hdis. by left.
    + intros id' Hin. rewrite fmap_app, not_elem_of_app. split.
      * apply Hdis. by right.
      * simpl. rewrite list_elem_of_singleton. by intros ->.
Qed.

Lemma foldl_fmap_appendCase (f : nat → string) l : ∀ b,
  foldl (λ b i, appendCase b (f i)) b l = foldl appendCase b (f <$> l).
Proof. induction l as [|i l IH]; intros b; [done|]. simpl. by rewrite IH. Qed.

Lemma deserializeCounts_fold xml b :
  deserializeCounts xml b =
  let n := Js.orZero (Js.parseInt (default "0" (getAttribute xml "elseif"))) in
  let e := Js.orZero (Js.parseInt (default "0" (getAttribute xml "else"))) in
  let b := foldl appendCase (withCounts n e b) (pretty <$> seq 1 (Z.to_nat n)) in
  if Js.nonzero e then (appendStatementInput "ELSE" b).1 else b.
Proof.
  unfold deserializeCounts. cbv zeta. by rewrite <- foldl_fmap_appendCase.
Qed.

Lemma pretty_seq_NoDup j n : NoDup (pretty <$> seq j n).
Proof. apply (NoDup_fmap_2 _), NoDup_seq. Qed.

(** [deserializeCounts] on a block as [init] leaves it, when both
    attributes read as numbers. *)
Lemma deserializeCounts_decoded xml (n : nat) (z : Z) :
  Js.parseInt (default "0" (getAttribute xml "elseif")) = Some (Z.of_nat n) →
  Js.parseInt (default "0" (getAttribute xml "else")) = Some z →
  ∃ cs e,
    wellFormed cs e (deserializeCounts xml freshBlock) ∧
    caseId <$> cs = pretty <$> seq 0 (S n) ∧
    Forall (λ c, populated c = false) cs ∧
    Js.defined e = Js.nonzero z ∧ elseTarget e = None ∧
    elseifCount (deserializeCounts xml freshBlock) = Z.of_nat n ∧
    elseCount (deserializeCounts xml freshBlock) = z.
Proof.
  intros Hn Hz. rewrite deserializeCounts_fold, Hn, Hz. cbv zeta.
  change (Js.orZero (Some (Z.of_nat n))) with (Z.of_nat n).
  change (Js.orZero (Some z)) with z. rewrite Nat2Z.id.
  set (b0 := withCounts (Z.of_nat n) z freshBlock).
  set (ids := pretty <$> seq 1 n).
  assert (Hwf0 : wellFormed [newCase "0" 0] None b0)
    by apply wellFormed_withCounts, init_wellFormed.
  assert (Hwf1 : wellFormed ([newCase "0" 0] ++ numberedCases 4 ids) None
                            (foldl appendCase b0 ids)).
  { apply (foldl_appendCase_wellFormed ids [newCase "0" 0] b0);
      [done|apply pretty_seq_NoDup|].
    intros id Hin. simpl. rewrite list_elem_of_singleton. intros ->.
    change "0" with (pretty 0) in Hin. apply pretty_not_in_seq in Hin. lia. }
  destruct (foldl_appendCase_fields ids b0) as (_ & _ & Hc1 & Hc2).
  assert (Hids : caseId <$> [newCase "0" 0] ++ numberedCases 4 ids =
                 pretty <$> seq 0 (S n)).
  { rewrite fmap_app, numberedCases_ids. done. }
  assert (Hemp : Forall (λ c, populated c = false)
                        ([newCase "0" 0] ++ numberedCases 4 ids)).
  { apply Forall_app. split; [by apply Forall_singleton|].
    apply numberedCases_empty. }
  destruct (Js.nonzero z) eqn:Hnz.
  - eexists _, (Some (_, None)). split_and!;
      [by apply appendElse_wellFormed|done..].
  - exists ([newCase "0" 0] ++ numberedCases 4 ids), None. by split_and!.
Qed.

(** The names of a well-formed block whose cases are numbered from 0. *)
Lemma wellFormed_canonical_names cs e b n :
  wellFormed cs e b → caseId <$> cs = pretty <$> seq 0 n →
  slotNames b = canonicalNames n ++ (if Js.defined e then ["ELSE"] else []) ∧
  caseCount b = n ∧ hasElse b = Js.defined e.
Proof.
  intros [Hl _ _ _ _ _ _] Hids. split_and!.
  - unfold slotNames. rewrite Hl, fmap_app, (canonicalNames_ids _ _ Hids).
    by destruct e.
  - rewrite (caseCount_slots _ _ _ Hl).
    by rewrite <- (length_fmap caseId), Hids, length_fmap, length_seq.
  - unfold hasElse. rewrite (getInput_else _ _ _ Hl). by destruct e.
Qed.

Lemma split_nonempty sep s : Js.split sep s ≠ [].
Proof.
  destruct s as [|c s]; [done|]. simpl.
  case_bool_decide; [done|]. by destruct (Js.split sep s).
Qed.


Lemma deserializeInputs_fold xml b :
  deserializeInputs xml b =
  (b ← match getAttribute xml "inputs" with
       | Some inputs =>
           if Js.truthy inputs then
             b ← (if Js.defined (getInput "IF0" b) then removeInput "IF0" b
                  else Some b);
             b ← (if Js.defined (getInput "DO0" b) then removeInput "DO0" b
                  else Some b);
             Some (foldl appendCase b (Js.split "," inputs))
           else Some b
       | None => Some b
       end;
   Some (if bool_decide (getAttribute xml "else" = Some "true")
         then (appendStatementInput "ELSE" b).1 else b)).
Proof. reflexivity. Qed.



(** The legacy decoder on a block as [init] leaves it. *)
Lemma legacy_decoded xml s :
  getAttribute xml "inputs" = Some s → Js.truthy s = true →
  domToMutation xml freshBlock =
    Some (let b := foldl appendCase (withInputs [] freshBlock)
                         (Js.split "," s) in
          if bool_decide (getAttribute xml "else" = Some "true")
          then (appendStatementInput "ELSE" b).1 else b).
Proof.
  intros Hs Ht. unfold domToMutation. rewrite Hs, Ht.
  rewrite deserializeInputs_fold, Hs, Ht. reflexivity.
Qed.

Lemma legacy_first_wellFormed id :
  wellFormed [newCase id 4] None (appendCase (withInputs [] freshBlock) id).
Proof.
  split;
    [ reflexivity | discriminate | apply NoDup_singleton | compute_done
    | repeat constructor | apply NoDup_nil_2 | by repeat constructor ].
Qed.

(** *** [collectTargetCaseConns] and [deleteDynamicInputs] on any slot list *)

Lemma pair_ind {A} (P : list A → Prop) :
  P [] → (∀ x, P [x]) → (∀ x y l, P l → P (x :: y :: l)) → ∀ l, P l.
Proof.
  intros H0 H1 H2 l.
  assert (P l ∧ ∀ a, P (a :: l)) as [? _]; [|done].
  induction l as [|x l [IH1 IH2]]; [by split|].
  split; [apply IH2|]. intros a. by apply H2.
Qed.

(** Every recorded pair has a side, and a pair takes two inputs. *)
Lemma collectPairs_populated l :
  Forall (λ r, Js.defined (ifTarget r) || Js.defined (doTarget r) = true)
         (collectPairs l) ∧
  2 * length (collectPairs l) ≤ length l.
Proof.
  induction l as [| |x y l [IH1 IH2]] using pair_ind;
    [split; [constructor|simpl; lia]..|].
  simpl.
  destruct (targetConnection (connection x)) as [p|] eqn:Hx;
    destruct (targetConnection (connection y)) as [q|] eqn:Hy; simpl;
    (split; [try (apply Forall_cons; split; [done|]); done | lia]).
Qed.

(** The last input of a list of odd length is not read. *)
Lemma collectPairs_odd l x :
  Nat.Even (length l) → collectPairs (l ++ [x]) = collectPairs l.
Proof.
  induction l as [|y|y z l IH] using pair_ind; intros [k Hk]; simpl in *.
  - done.
  - lia.
  - rewrite IH; [done|]. exists (k - 1). lia.
Qed.

Lemma removeInput_elem x b :
  x ∈ inputList b →
  ∃ i, i < length (inputList b) ∧
       removeInput (name x) b = Some (withInputs (delete i (inputList b)) b).
Proof.
  intros Hin. unfold removeInput.
  destruct (list_find (λ input, name input = name x) (inputList b))
    as [[i y]|] eqn:Hf.
  - apply list_find_Some in Hf as (Hi & _). apply lookup_lt_Some in Hi. eauto.
  - apply list_find_None in Hf. rewrite Forall_forall in Hf.
    by destruct (Hf x Hin).
Qed.

(** The deletion loop returns and leaves two inputs of the list, whatever
    their names are. *)
Lemma deleteFrom_length i : ∀ b,
  length (inputList b) = S i →
  ∃ l', deleteFrom i b = Some (withInputs l' b) ∧
        length l' = S i `min` 2 ∧ l' ⊆+ inputList b.
Proof.
  induction i as [|i IH]; intros b Hlen.
  - exists (inputList b). by rewrite withInputs_same.
  - simpl. case_bool_decide as Hi.
    + destruct (lookup_lt_is_Some_2 (inputList b) (S i)) as [x Hx]; [lia|].
      rewrite Hx. simpl.
      destruct (removeInput_elem x b) as (j & Hj & ->).
      { by eapply list_elem_of_lookup_2. }
      simpl.
      destruct (IH (withInputs (delete j (inputList b)) b)) as (l' & -> & Hl' & Hsub).
      { simpl. rewrite length_delete by (by apply lookup_lt_is_Some_2). lia. }
      exists l'. rewrite withInputs_withInputs. split_and!; [done|lia|].
      simpl in Hsub. etrans; [exact Hsub|]. apply submseteq_delete.
    + exists (inputList b). rewrite withInputs_same. split_and!; [done|lia|done].
Qed.

(** *** Consequences of the rebuild theorem *)

Lemma elseTarget_rebuilt (e e' : option (nat * option Peer)) :
  snd <$> e' = Some <$> elseTarget e →
  elseTarget e' = elseTarget e ∧ Js.defined e' = Js.defined (elseTarget e).
Proof.
  destruct (elseTarget e) as [t|]; destruct e' as [[n o]|]; simpl; try done.
  by intros [= ->].
Qed.

(** The rebuild keeps a block well formed, with the recorded pairs and
    the Else attachment it had. *)
Lemma finalize_invariant cs e b :
  wellFormed cs e b →
  ∃ b' cs' e',
    finalizeConnections b = Some b' ∧
    wellFormed cs' e' b' ∧
    recorded cs' = recorded cs ∧
    elseTarget e' = elseTarget e ∧
    Js.defined e' = Js.defined (elseTarget e) ∧
    sameFields (withCounts (Z.max (Z.of_nat (length (recorded cs)) - 1) 0)
                  (if Js.defined (elseTarget e) then 1 else 0)%Z b) b'.
Proof.
  intros Hwf.
  destruct (finalizeConnections_spec _ _ _ Hwf)
    as (b' & CS & e' & Hfin & Hwf' & Hids & Hpairs & He & Hn & Hm & Hnx & Hpv).
  destruct (elseTarget_rebuilt _ _ He) as [Het Hde].
  eexists b', _, e'. split_and!; [done|exact Hwf'| |done|done|done].
  rewrite recorded_rebuilt; [done|]. rewrite Hpairs. apply recorded_populated.
Qed.

(** *** [addCaseInputs], [addElseInput], [init], [findInputIndexForConnection] *)

(** A connection that is not a previous-statement connection is refused:
    the Else slot is appended and stays empty. *)
Lemma addElseInput_refused t b :
  Forall (λ n, n < connCounter b) (slotConnIds b) →
  peerType t ≠ PREVIOUS_STATEMENT →
  addElseInput t b = (appendStatementInput "ELSE" b).1.
Proof.
  intros Hfresh Ht.
  unfold addElseInput, appendStatementInput, appendInput, makeConnection.
  simpl.
  set (x := mkInput "ELSE" (mkConnection (connCounter b) NEXT_STATEMENT None None)).
  unfold connect. simpl.
  change (connCounter b) with (connId (connection x)) at 1.
  rewrite find_conn_middle.
  - assert (Hno : canConnect (connection x) t = false).
    { apply not_true_is_false. intros Hc. by apply canConnect_statement in Hc. }
    cbv beta iota. rewrite Hno. done.
  - eapply fresh_not_in; [exact Hfresh|]. simpl. lia.
Qed.

Ltac solve_wellFormed :=
  split;
  [ reflexivity | discriminate | compute_done | compute_done
  | compute_done | compute_done | repeat constructor ].

(** * The claims *)

(** ** C1 *)

(** C1: what the claim says does not happen.  The hovered Condition slot
    [IF0] holds a block and the Condition slot of the next case holds an
    insertion marker: nothing is inserted.  When it holds a real block, a
    pair is inserted. *)
Lemma pending_marker_does_not_grow :
  targetConnection (connection (ifSlot firstCase)) = Some boolA ∧
  inputList (twoCases markerM) !! 2 = Some (ifSlot (secondCase markerM)) ∧
  isInsertionMarker markerM = true ∧
  onPendingConnection (connection (ifSlot firstCase)) "uid" (twoCases markerM)
    = Some (twoCases markerM) ∧
  slotNames <$>
    onPendingConnection (connection (ifSlot firstCase)) "uid" (twoCases boolB)
    = Some ["IF0"; "DO0"; "IFuid"; "DOuid"; "IF1"; "DO1"].
Proof. by vm_compute. Qed.

(** C1, as the code has it.  The hovered Condition slot holds something
    and the next case exists with something attached to its Condition
    slot: a new case pair is inserted between the two when that is a real
    block, and nothing is inserted when it is an insertion marker. *)
Theorem pending_next_case_attached cs1 ck cn cs2 e b uid q p :
  wellFormed (cs1 ++ ck :: cn :: cs2) e b →
  ifAttached ck = Some q →
  ifAttached cn = Some p →
  uid ∉ (caseId <$> (cs1 ++ ck :: cn :: cs2)) →
  ∃ b',
    onPendingConnection (connection (ifSlot ck)) uid b = Some b' ∧
    if isInsertionMarker p then b' = b
    else inputList b' =
           caseSlots (cs1 ++ ck :: newCase uid (connCounter b) :: cn :: cs2) ++
           elseSlots e.
Proof.
  intros Hwf Hq Hp Hu.
  pose proof Hwf as [Hl _ _ Hconns _ _ _].
  destruct (wellFormed_names _ _ _ Hwf) as [Hnd Htr].
  pose proof (wellFormed_uidFresh _ _ _ _ Hwf Hu) as Hfr.
  set (c := connection (ifSlot ck)).
  set (i := length (caseSlots cs1)).
  assert (Hw : elseWanted c b = false) by done.
  assert (Hx : inputList b !! i = Some (ifSlot ck)).
  { rewrite Hl, caseSlots_split, <- app_assoc. by apply list_lookup_middle. }
  assert (Hn : inputList b !! (i + 2) = Some (ifSlot cn)).
  { rewrite Hl, caseSlots_split, <- app_assoc.
    rewrite lookup_app_r by (unfold i; lia).
    replace (i + 2 - length (caseSlots cs1)) with 2 by (unfold i; lia). done. }
  pose proof (find_own_connection _ _ _ Hconns Hx) as Hf.
  destruct (isInsertionMarker p) eqn:Hm.
  - exists b. split; [|done].
    apply (pending_blocked c uid b i (ifSlot ck) (ifSlot cn));
      [done|done|done|done|discriminate|].
    simpl. rewrite Hp. simpl. by rewrite Hm.
  - eexists. split.
    + apply (pending_grow c uid b i (ifSlot ck)); try done.
      * simpl. by rewrite Hq.
      * rewrite Hn. right. simpl. rewrite Hp. simpl. by rewrite Hm.
      * apply lookup_lt_Some in Hn. lia.
    + simpl. rewrite Hl.
      replace (cs1 ++ ck :: newCase uid (connCounter b) :: cn :: cs2)
        with ((cs1 ++ [ck]) ++ newCase uid (connCounter b) :: cn :: cs2)
        by (by rewrite <- app_assoc).
      replace (cs1 ++ ck :: cn :: cs2) with ((cs1 ++ [ck]) ++ cn :: cs2)
        by (by rewrite <- app_assoc).
      rewrite !(caseSlots_app (cs1 ++ [ck])), <- !app_assoc.
      assert (Hi : i + 2 = length (caseSlots (cs1 ++ [ck]))).
      { rewrite caseSlots_app, length_app. simpl. done. }
      rewrite Hi, take_app_length, drop_app_length. done.
Qed.

Lemma pending_next_case_attached_witness :
  wellFormed ([] ++ firstCase :: secondCase boolB :: []) None (twoCases boolB) ∧
  ∃ b',
    onPendingConnection (connection (ifSlot firstCase)) "uid" (twoCases boolB)
      = Some b' ∧
    inputList b' =
      caseSlots ([] ++ firstCase :: newCase "uid" 6 :: secondCase boolB :: []) ++
      elseSlots None.
Proof.
  split; [solve_wellFormed|].
  apply (pending_next_case_attached [] firstCase (secondCase boolB) [] None
           (twoCases boolB) "uid" boolA boolB);
    [solve_wellFormed | reflexivity | reflexivity | compute_done].
Defined.

(** ** C2 *)



(** ** C3 *)

(** C3: the rebuild on a block decoded from the legacy encoding whose
    first number is not 0.  With nothing attached the slots stay [IF3],
    [DO3]; with a block on [IF3] the pair 0 is made for it and the old
    slots [IF3], [DO3] are left behind it, while [elseifCount] is 0. *)
Lemma legacy_first_pair_not_renumbered :
  (b ← legacyBlock "3"; b' ← finalizeConnections b;
   Some (slotNames b', elseifCount b', elseCount b'))
    = Some (["IF3"; "DO3"], 0%Z, 0%Z) ∧
  (b ← legacyBlock "3"; b' ← finalizeConnections (connect 4 boolA b);
   Some (shape b', elseifCount b', elseCount b'))
    = Some ([("IF0", INPUT_VALUE, Some boolA); ("DO0", NEXT_STATEMENT, None);
             ("IF3", INPUT_VALUE, None); ("DO3", NEXT_STATEMENT, None)],
            0%Z, 0%Z).
Proof. by vm_compute. Qed.

(** ** C4 *)

(** C4: the rebuild on a block decoded from the legacy encoding
    ["3,7"], with a block on [IF7] only.  The pair [IF3]/[DO3], empty
    before the rebuild, is still there after it, empty, behind pair 0. *)
Lemma legacy_empty_pair_survives :
  (b ← legacyBlock "3,7"; Some (shape (connect 6 boolA b)))
    = Some [("IF3", INPUT_VALUE, None); ("DO3", NEXT_STATEMENT, None);
            ("IF7", INPUT_VALUE, Some boolA); ("DO7", NEXT_STATEMENT, None)] ∧
  (b ← legacyBlock "3,7"; b' ← finalizeConnections (connect 6 boolA b);
   Some (shape b'))
    = Some [("IF0", INPUT_VALUE, Some boolA); ("DO0", NEXT_STATEMENT, None);
            ("IF3", INPUT_VALUE, None); ("DO3", NEXT_STATEMENT, None)].
Proof. by vm_compute. Qed.

(** ** C5 *)

(** C5.  Hovering twice over the same connection of an unchanged block
    does what hovering once does: the first call returns a block, and the
    second call, whatever identifier the generator would give it, returns
    that block as it is, so the number of slots is the same. *)
Theorem pending_idempotent cs e b c uid1 uid2 :
  wellFormed cs e b →
  c ∈ (connection <$> inputList b) ∨ connId c ∉ slotConnIds b →
  uid1 ∉ (caseId <$> cs) →
  ∃ b1 b2,
    onPendingConnection c uid1 b = Some b1 ∧
    onPendingConnection c uid2 b1 = Some b2 ∧
    b2 = b1 ∧
    length (inputList b2) = length (inputList b1).
Proof.
  intros Hwf Hc Hu.
  destruct (wellFormed_names _ _ _ Hwf) as [Hnd Htr].
  pose proof (wellFormed_uidFresh _ _ _ _ Hwf Hu) as [HfI HfD].
  assert (Hcore : ∃ b1, onPendingConnection c uid1 b = Some b1 ∧
                        onPendingConnection c uid2 b1 = Some b1).
  2:{ destruct Hcore as (b1 & H1 & H2). by exists b1, b1. }
  destruct (elseWanted c b) eqn:Hw.
  - destruct (pending_else_first c uid1 b Hw) as [-> Hw'].
    assert (Helse : "ELSE" ∉ slotNames b).
    { intros Hin. apply getInput_defined_elem in Hin. unfold elseWanted in Hw.
      rewrite Hin in Hw. simpl in Hw. by rewrite andb_false_r in Hw. }
    apply pending_twice_core; [done| | | |].
    + unfold slotNames in *. simpl. rewrite fmap_app. apply NoDup_app.
      split_and!; [done| |apply NoDup_singleton].
      intros n Hn. simpl. rewrite list_elem_of_singleton. by intros ->.
    + unfold namesTruthy, slotNames in *. simpl. rewrite fmap_app.
      apply Forall_app. split; [done|]. by apply Forall_singleton.
    + unfold uidFresh, slotNames in *. simpl. rewrite fmap_app, !not_elem_of_app.
      simpl. rewrite !list_elem_of_singleton. by split_and!.
    + intros i x Hf Hx Hcond. simpl in *. rewrite length_app. simpl.
      assert (i < length (inputList b)); [|lia].
      destruct (decide (i < length (inputList b))) as [|Hge]; [done|].
      apply lookup_lt_Some in Hx as Hlt. rewrite length_app in Hlt. simpl in Hlt.
      rewrite lookup_app_r in Hx by lia.
      replace (i - length (inputList b)) with 0 in Hx by lia.
      simpl in Hx. injection Hx as <-. simpl in Hcond.
      by rewrite andb_false_r in Hcond.
  - apply pending_twice_core; [done..|].
    intros i x Hf Hx Hcond.
    destruct (decide (i + 2 ≤ length (inputList b))) as [|Hge]; [done|].
    apply lookup_lt_Some in Hx as Hlt.
    assert (Hi : S i = length (inputList b)) by lia.
    pose proof Hwf as [_ _ _ Hconns _ _ _].
    assert (Hcx : c = connection x).
    { destruct Hc as [Hc|Hc].
      - apply list_elem_of_fmap in Hc as (y & -> & Hy).
        apply list_elem_of_lookup in Hy as [j Hj].
        rewrite (find_own_connection _ _ _ Hconns Hj) in Hf. injection Hf as ->.
        congruence.
      - by rewrite find_absent_connection in Hf. }
    destruct (wellFormed_last _ _ _ _ _ Hwf Hx Hi) as [(el & -> & ->)|(-> & c0 & ->)].
    + simpl in Hcond. by rewrite andb_false_r in Hcond.
    + exfalso. subst c. unfold elseWanted in Hw. simpl in Hw.
      destruct Hwf as [Hl _ _ _ _ _ _].
      rewrite (getInput_else _ _ _ Hl) in Hw. done.
Qed.

Lemma pending_idempotent_witness :
  wellFormed scenarioCases (Some (8, Some stmtD)) scenarioBlock ∧
  ∃ b1 b2,
    onPendingConnection (mkConnection 0 INPUT_VALUE (Some ["Boolean"]) (Some boolA)) "u1" scenarioBlock
      = Some b1 ∧
    onPendingConnection (mkConnection 0 INPUT_VALUE (Some ["Boolean"]) (Some boolA)) "u2" b1
      = Some b2 ∧
    b2 = b1 ∧
    length (inputList b2) = length (inputList b1).
Proof.
  split; [solve_wellFormed|].
  apply (pending_idempotent scenarioCases (Some (8, Some stmtD)) scenarioBlock
           (mkConnection 0 INPUT_VALUE (Some ["Boolean"]) (Some boolA)) "u1" "u2");
    [solve_wellFormed | left; left | compute_done].
Defined.

(** ** C6 *)

(** C6: decoding counts that are negative.  Nothing coerces them: the
    attribute [elseif="-3"] is stored as the count -3, and [else="-1"] as
    the count -1, which also makes an Else slot, although [elseCount] is a
    count that is either 0 or 1 and [elseifCount] a count of cases. *)
Lemma deserializeCounts_keeps_negative :
  elseifCount (deserializeCounts (mutation [("elseif", "-3")]) freshBlock)
    = (-3)%Z ∧
  elseCount (deserializeCounts (mutation [("else", "-1")]) freshBlock)
    = (-1)%Z ∧
  slotNames (deserializeCounts (mutation [("else", "-1")]) freshBlock)
    = ["IF0"; "DO0"; "ELSE"].
Proof. by vm_compute. Qed.

(** ** C7 *)

(** C7: what the claim says does not happen.  The block's own
    next-statement connection is none of the slots' connections, and the
    call appends an Else slot. *)
Lemma pending_next_statement_appends_else :
  nextConnection freshBlock = Some freshNext ∧
  findInputIndexForConnection freshNext freshBlock = None ∧
  slotNames freshBlock = ["IF0"; "DO0"] ∧
  slotNames <$> onPendingConnection freshNext "uid" freshBlock
    = Some ["IF0"; "DO0"; "ELSE"].
Proof. by vm_compute. Qed.

(** C7, as the code has it.  A connection that is none of the slots'
    connections never makes a case pair appear: the call returns, and the
    slot list is the old one, followed by a new empty Else slot when the
    connection is of the next-statement type and the block had no Else
    slot; in every other case the block is left as it was. *)
Theorem pending_not_found c uid b :
  findInputIndexForConnection c b = None →
  connId c ≠ connCounter b →
  ∃ b',
    onPendingConnection c uid b = Some b' ∧
    inputList b' =
      inputList b ++
      (if elseWanted c b then [elseSlot (connCounter b, None)] else []) ∧
    (elseWanted c b = false → b' = b).
Proof.
  intros Hf Hc. destruct (elseWanted c b) eqn:Hw.
  - destruct (pending_else_first c uid b Hw) as [-> Hw'].
    exists (appendStatementInput "ELSE" b).1. split_and!; [|done|done].
    unfold onPendingConnection. fold (elseWanted c (appendStatementInput "ELSE" b).1).
    rewrite Hw'.
    assert (findInputIndexForConnection c (appendStatementInput "ELSE" b).1 = None) as ->;
      [|done].
    unfold findInputIndexForConnection in *. apply fmap_None in Hf.
    apply fmap_None. simpl. apply list_find_app_None. split; [done|].
    apply list_find_None, Forall_singleton. simpl. congruence.
  - exists b. rewrite app_nil_r. split_and!; [|done|done].
    unfold onPendingConnection. fold (elseWanted c b). by rewrite Hw, Hf.
Qed.

Lemma pending_not_found_witness :
  findInputIndexForConnection freshNext freshBlock = None ∧
  connId freshNext ≠ connCounter freshBlock ∧
  ∃ b',
    onPendingConnection freshNext "uid" freshBlock = Some b' ∧
    inputList b' = inputList freshBlock ++ [elseSlot (4, None)] ∧
    (elseWanted freshNext freshBlock = false → b' = freshBlock).
Proof.
  split; [reflexivity|]. split; [compute_done|].
  apply (pending_not_found freshNext "uid" freshBlock);
    [reflexivity | compute_done].
Defined.

(** ** C8 *)

(** C8: the export of a block decoded from the legacy encoding ["3"], with
    a block on [IF3].  No element is returned, both counts being 0, while
    the slots the rebuild left are [IF0], [DO0], [IF3], [DO3]: two case
    pairs, not the default shape. *)
Lemma legacy_export_without_element :
  (b ← legacyBlock "3"; r ← mutationToDom (connect 4 boolA b);
   Some (r.2, shape r.1, elseifCount r.1, elseCount r.1))
    = Some (None,
            [("IF0", INPUT_VALUE, Some boolA); ("DO0", NEXT_STATEMENT, None);
             ("IF3", INPUT_VALUE, None); ("DO3", NEXT_STATEMENT, None)],
            0%Z, 0%Z).
Proof. by vm_compute. Qed.

(** ** C9 *)

(** C9.  A canonical block with [k] else-if cases, [k] one of 0, 1, 2 and
    5, with or without an Else slot, is exported by [mutationToDom]; decoding
    what was exported into a fresh block gives a block with the same slot
    names, so the same number of case pairs and the same presence of an
    Else slot. *)
Theorem roundtrip_shape k withElse cs e b :
  k ∈ [0; 1; 2; 5] →
  canonicalBlock k withElse cs e b →
  ∃ b' r b'',
    mutationToDom b = Some (b', r) ∧
    decode r = Some b'' ∧
    slotNames b'' = slotNames b ∧
    caseCount b'' = caseCount b ∧
    hasElse b'' = hasElse b.
Proof.
  intros Hk Hcb.
  destruct (canonicalBlock_finalize _ _ _ _ _ Hcb)
    as (Hnames & Hcount & Hhas & b' & Hfin & _ & Hn & Hm).
  pose proof (mutationToDom_encoded _ _ Hfin) as Hmut.
  exists b', (encoded b'). rewrite Hnames, Hcount, Hhas.
  repeat (apply elem_of_cons in Hk as [->|Hk]); [..|by apply elem_of_nil in Hk];
    destruct withElse;
    (eassert (Henc : encoded b' = _)
       by (unfold encoded; rewrite Hn, Hm; vm_compute; reflexivity));
    rewrite Henc in *; eexists;
    (split; [exact Hmut|]);
    (split; [vm_compute; reflexivity|]); by vm_compute.
Qed.

Lemma roundtrip_shape_witness :
  2 ∈ [0; 1; 2; 5] ∧
  canonicalBlock 2 true canonicalCases (Some (8, Some stmtD)) canonicalExample ∧
  ∃ b' r b'',
    mutationToDom canonicalExample = Some (b', r) ∧
    decode r = Some b'' ∧
    slotNames b'' = slotNames canonicalExample ∧
    caseCount b'' = caseCount canonicalExample ∧
    hasElse b'' = hasElse canonicalExample.
Proof.
  assert (Hcb : canonicalBlock 2 true canonicalCases (Some (8, Some stmtD))
                  canonicalExample).
  { split; [solve_wellFormed | reflexivity | intros _; repeat constructor
           | reflexivity | reflexivity]. }
  split; [compute_done|]. split; [exact Hcb|].
  apply (roundtrip_shape 2 true canonicalCases (Some (8, Some stmtD))
           canonicalExample); [compute_done | exact Hcb].
Defined.

(** ** C10 *)

(** C10: the rebuild run twice on a block decoded from the legacy
    encoding ["3"], with a block on [IF3].  The first run leaves the slots
    [IF0], [DO0], [IF3], [DO3]; the second run leaves [IF0], [DO0]. *)
Lemma legacy_finalize_twice_differs :
  (b ← legacyBlock "3"; b1 ← finalizeConnections (connect 4 boolA b);
   Some (slotNames b1))
    = Some ["IF0"; "DO0"; "IF3"; "DO3"] ∧
  (b ← legacyBlock "3"; b1 ← finalizeConnections (connect 4 boolA b);
   b2 ← finalizeConnections b1; Some (slotNames b2))
    = Some ["IF0"; "DO0"].
Proof. by vm_compute. Qed.

(** * Further properties of the code *)

(** ** [insertElseIf] *)

(** X1.  [insertElseIf] throws exactly when [index] is beyond the end of
    the slot list, whatever the names of the slots are.  When it returns,
    the two inputs it returns are new and empty, made from the next two
    connections; the slot list is the old one with these two added, no
    input lost and none twice; nothing else of the block changes. *)
Theorem insertElseIf_returns index id b :
  (is_Some (insertElseIf index id b) ↔ index ≤ length (inputList b)) ∧
  ∀ b' pr, insertElseIf index id b = Some (b', pr) →
    pr = mkCaseInputPair (ifSlot (newCase id (connCounter b)))
                         (doSlot (newCase id (connCounter b))) ∧
    inputList b' ≡ₚ inputList b ++ caseSlots [newCase id (connCounter b)] ∧
    connCounter b' = S (S (connCounter b)) ∧
    sameFields b b'.
Proof.
  set (ifN := ifSlot (newCase id (connCounter b))).
  set (doN := doSlot (newCase id (connCounter b))).
  set (b2 := mkBlock ((inputList b ++ [ifN]) ++ [doN])
               (nextConnection b) (previousConnection b)
               (elseifCount b) (elseCount b) (S (S (connCounter b)))).
  assert (Hun : insertElseIf index id b =
                (r ← inputList b2 !! index;
                 b3 ← moveInputBefore ("IF" +:+ id) (name r) b2;
                 r' ← inputList b3 !! (index + 1);
                 b4 ← moveInputBefore ("DO" +:+ id) (name r') b3;
                 Some (b4, mkCaseInputPair ifN doN))).
  { unfold insertElseIf. by rewrite setCheck_appendValueInput. }
  rewrite Hun. clear Hun.
  assert (Hlen2 : length (inputList b2) = S (S (length (inputList b)))).
  { simpl. rewrite !length_app. simpl. lia. }
  assert (HifIn : "IF" +:+ id ∈ slotNames b2).
  { unfold slotNames. simpl. rewrite !fmap_app, !elem_of_app. left. right.
    by apply list_elem_of_singleton. }
  assert (HdoIn : "DO" +:+ id ∈ slotNames b2).
  { unfold slotNames. simpl. rewrite !fmap_app, !elem_of_app. right.
    by apply list_elem_of_singleton. }
  destruct (inputList b2 !! index) as [r|] eqn:Hr; simpl.
  2:{ apply lookup_ge_None in Hr. split; [|done].
      split; [by intros [? [=]]|lia]. }
  apply lookup_lt_Some in Hr as Hlt.
  destruct (moveInputBefore_perm ("IF" +:+ id) (name r) b2 HifIn
              (lookup_name_elem _ _ _ Hr)) as (l3 & -> & Hp3). simpl.
  assert (Hlen3 : length l3 = S (S (length (inputList b)))).
  { by rewrite Hp3. }
  destruct (l3 !! (index + 1)) as [r'|] eqn:Hr'; simpl.
  2:{ apply lookup_ge_None in Hr'. split; [|done].
      split; [by intros [? [=]]|lia]. }
  apply lookup_lt_Some in Hr' as Hlt'.
  destruct (moveInputBefore_perm ("DO" +:+ id) (name r') (withInputs l3 b2))
    as (l4 & -> & Hp4).
  { unfold slotNames. simpl. rewrite Hp3. exact HdoIn. }
  { unfold slotNames. simpl. by eapply lookup_name_elem. }
  simpl. split.
  - split; [lia|eauto].
  - intros b' pr [= <- <-]. split_and!; [done| |done|done].
    simpl in *. rewrite Hp4, Hp3. by rewrite <- app_assoc.
Qed.

(** X2.  With an identifier that names no slot, in a block whose slot
    names are distinct and not empty, [insertElseIf] puts the new pair at
    [index], Condition slot first, and leaves the other slots in their
    order; [getInput] finds the two new inputs by their names. *)
Theorem insertElseIf_fresh_placement index id b :
  index ≤ length (inputList b) →
  NoDup (slotNames b) → namesTruthy b → uidFresh id b →
  ∃ b' pr,
    insertElseIf index id b = Some (b', pr) ∧
    inputList b' =
      take index (inputList b) ++ [ifInput pr; doInput pr] ++
      drop index (inputList b) ∧
    getInput ("IF" +:+ id) b' = Some (ifInput pr) ∧
    getInput ("DO" +:+ id) b' = Some (doInput pr) ∧
    targetConnection (connection (ifInput pr)) = None ∧
    targetConnection (connection (doInput pr)) = None.
Proof.
  intros Hi Hnd Htr Hfr. rewrite (insertElseIf_at _ _ _ Hi Hnd Htr Hfr).
  destruct Hfr as [HfI HfD]. unfold slotNames in HfI, HfD.
  rewrite <- (take_drop index (inputList b)), fmap_app, not_elem_of_app
    in HfI, HfD.
  set (ifN := ifSlot (newCase id (connCounter b))).
  set (doN := doSlot (newCase id (connCounter b))).
  eexists _, _. split; [done|]. split_and!; [done| | |done|done].
  - change (getInput ("IF" +:+ id) (withCaseAt index id b))
      with (snd <$> list_find (λ input, name input = name ifN)
              (take index (inputList b) ++
               ifN :: doN :: drop index (inputList b))).
    rewrite find_name_middle; [done|]. by destruct HfI.
  - change (getInput ("DO" +:+ id) (withCaseAt index id b))
      with (snd <$> list_find (λ input, name input = name doN)
              (take index (inputList b) ++
               [ifN] ++ doN :: drop index (inputList b))).
    rewrite app_assoc, find_name_middle; [done|].
    rewrite fmap_app, not_elem_of_app. split; [by destruct HfD|].
    simpl. rewrite list_elem_of_singleton. discriminate.
Qed.

Lemma insertElseIf_fresh_placement_witness :
  ∃ b' pr,
    insertElseIf 2 "9" freshBlock = Some (b', pr) ∧
    inputList b' =
      take 2 (inputList freshBlock) ++ [ifInput pr; doInput pr] ++
      drop 2 (inputList freshBlock) ∧
    getInput ("IF" +:+ "9") b' = Some (ifInput pr) ∧
    getInput ("DO" +:+ "9") b' = Some (doInput pr) ∧
    targetConnection (connection (ifInput pr)) = None ∧
    targetConnection (connection (doInput pr)) = None.
Proof.
  apply (insertElseIf_fresh_placement 2 "9" freshBlock);
    [ simpl; lia | compute_done | repeat constructor | split; compute_done ].
Defined.

(** ** [onPendingConnection] *)

(** X3.  A hover over any slot of a well-formed block whose case
    identifiers do not contain [IF], with a new identifier, returns a
    well-formed block: at most one case more, the first case, what is
    attached and the Else attachment as they were, and the counts and the
    statement connections untouched. *)
Theorem pending_keeps_wellFormed cs e b x uid :
  wellFormed cs e b →
  x ∈ inputList b →
  uid ∉ (caseId <$> cs) →
  Forall (λ k, Js.includes (caseId k) "IF" = false) cs →
  ∃ b' cs' e',
    onPendingConnection (connection x) uid b = Some b' ∧
    wellFormed cs' e' b' ∧
    recorded cs' = recorded cs ∧
    elseTarget e' = elseTarget e ∧
    head cs' = head cs ∧
    length cs ≤ length cs' ≤ S (length cs) ∧
    sameFields b b'.
Proof. apply pending_wellFormed. Qed.

Lemma pending_keeps_wellFormed_witness :
  wellFormed scenarioCases (Some (8, Some stmtD)) scenarioBlock ∧
  ∃ b' cs' e',
    onPendingConnection (mkConnection 0 INPUT_VALUE (Some ["Boolean"]) (Some boolA)) "u1"
      scenarioBlock = Some b' ∧
    wellFormed cs' e' b' ∧
    recorded cs' = recorded scenarioCases ∧
    elseTarget e' = elseTarget (Some (8, Some stmtD)) ∧
    head cs' = head scenarioCases ∧
    length scenarioCases ≤ length cs' ≤ S (length scenarioCases) ∧
    sameFields scenarioBlock b'.
Proof.
  split; [solve_wellFormed|].
  apply (pending_keeps_wellFormed scenarioCases (Some (8, Some stmtD))
           scenarioBlock
           (mkInput "IF0" (mkConnection 0 INPUT_VALUE (Some ["Boolean"]) (Some boolA))) "u1");
    [ solve_wellFormed | by left | compute_done | by repeat constructor ].
Defined.

(** X4.  A hover over a statement slot (a Branch slot or the Else slot)
    whose name does not contain [IF] never inserts a case pair: it appends
    an empty Else slot when the block has none, and changes nothing
    else. *)
Theorem pending_statement_slot cs e b x uid :
  wellFormed cs e b →
  x ∈ inputList b →
  type (connection x) = NEXT_STATEMENT →
  Js.includes (name x) "IF" = false →
  ∃ b',
    onPendingConnection (connection x) uid b = Some b' ∧
    inputList b' =
      inputList b ++
      (if hasElse b then [] else [elseSlot (connCounter b, None)]) ∧
    wellFormed cs (withElseAdded e b) b' ∧
    sameFields b b'.
Proof. apply pending_on_statement. Qed.

Lemma pending_statement_slot_witness :
  wellFormed [firstCase; secondCase boolB] None (twoCases boolB) ∧
  ∃ b',
    onPendingConnection (connection (doSlot firstCase)) "u1" (twoCases boolB)
      = Some b' ∧
    inputList b' =
      inputList (twoCases boolB) ++
      (if hasElse (twoCases boolB) then []
       else [elseSlot (connCounter (twoCases boolB), None)]) ∧
    wellFormed [firstCase; secondCase boolB]
               (withElseAdded None (twoCases boolB)) b' ∧
    sameFields (twoCases boolB) b'.
Proof.
  split; [solve_wellFormed|].
  apply (pending_statement_slot [firstCase; secondCase boolB] None
           (twoCases boolB) (doSlot firstCase) "u1");
    [ solve_wellFormed | by right; left | reflexivity | reflexivity ].
Defined.

(** X5.  A hover over the Condition slot of the last case, when that slot
    holds something, appends a new empty case after it, before the Else
    slot if there is one, and the block stays well formed. *)
Theorem pending_last_case_grows cs1 ck e b uid q :
  wellFormed (cs1 ++ [ck]) e b →
  ifAttached ck = Some q →
  uid ∉ (caseId <$> (cs1 ++ [ck])) →
  ∃ b',
    onPendingConnection (connection (ifSlot ck)) uid b = Some b' ∧
    inputList b' =
      caseSlots (cs1 ++ [ck; newCase uid (connCounter b)]) ++ elseSlots e ∧
    wellFormed (cs1 ++ [ck; newCase uid (connCounter b)]) e b'.
Proof.
  intros Hwf Hq Hu. rewrite (pending_on_if _ _ _ _ _ _ Hwf Hu).
  unfold growsAfter. rewrite Hq. simpl negb. cbn [Js.defined andb].
  assert (Hwf' : wellFormed ((cs1 ++ [ck]) ++ [newCase uid (connCounter b)]) e
                   (withCaseAt (2 * length (cs1 ++ [ck])) uid b)).
  { apply withCaseAt_wellFormed; by rewrite app_nil_r. }
  replace (2 * length (cs1 ++ [ck])) with (2 * S (length cs1)) in Hwf'
    by (rewrite length_app; simpl; lia).
  rewrite <- app_assoc in Hwf'.
  eexists. split; [done|]. split; [|done]. by destruct Hwf'.
Qed.

Lemma pending_last_case_grows_witness :
  wellFormed ([firstCase] ++ [secondCase boolB]) None (twoCases boolB) ∧
  ∃ b',
    onPendingConnection (connection (ifSlot (secondCase boolB))) "u1"
      (twoCases boolB) = Some b' ∧
    inputList b' =
      caseSlots ([firstCase] ++ [secondCase boolB; newCase "u1" 6]) ++
      elseSlots None ∧
    wellFormed ([firstCase] ++ [secondCase boolB; newCase "u1" 6]) None b'.
Proof.
  split; [solve_wellFormed|].
  apply (pending_last_case_grows [firstCase] (secondCase boolB) None
           (twoCases boolB) "u1" boolB);
    [ solve_wellFormed | reflexivity | compute_done ].
Defined.

(** X6.  A hover over a Condition slot that holds nothing, or whose next
    case has an empty Condition slot, changes nothing, whatever the
    identifier generator would give. *)
Theorem pending_empty_slot_no_growth cs1 ck cs2 e b uid :
  wellFormed (cs1 ++ ck :: cs2) e b →
  ifAttached ck = None ∨ (∃ cn, head cs2 = Some cn ∧ ifAttached cn = None) →
  onPendingConnection (connection (ifSlot ck)) uid b = Some b.
Proof.
  intros Hwf Hcase.
  pose proof Hwf as [Hl _ _ Hconns _ _ _].
  destruct (wellFormed_lookup_if _ _ _ _ _ Hl) as (Hx & _ & Hn & _).
  pose proof (find_own_connection _ _ _ Hconns Hx) as Hf.
  assert (Hw : elseWanted (connection (ifSlot ck)) b = false) by done.
  destruct (ifAttached ck) as [q|] eqn:Hq.
  - destruct Hcase as [?|(cn & Hcn & Hnone)]; [done|].
    destruct cs2 as [|cn' cs2]; [done|]. injection Hcn as ->.
    rewrite caseSlots_cons in Hn.
    apply (pending_blocked _ uid b (2 * length cs1) (ifSlot ck) (ifSlot cn));
      [done|done|done|done|discriminate|].
    simpl. by rewrite Hnone.
  - apply (pending_nothing _ uid b (2 * length cs1) (ifSlot ck)); [done..|].
    simpl. by rewrite Hq.
Qed.

Lemma pending_empty_slot_no_growth_witness :
  wellFormed ([] ++ newCase "0" 0 :: []) None freshBlock ∧
  onPendingConnection (connection (ifSlot (newCase "0" 0))) "u1" freshBlock
    = Some freshBlock.
Proof.
  split; [solve_wellFormed|].
  apply (pending_empty_slot_no_growth [] (newCase "0" 0) [] None freshBlock "u1");
    [ solve_wellFormed | left; reflexivity ].
Defined.

(** X7.  The test for a Condition slot is [name.includes('IF')], which a
    Branch slot passes when the identifier of its case contains [IF].  A
    hover over such a Branch slot that holds something, in the last case
    of a block with an Else slot, inserts a case pair behind the Else
    slot. *)
Theorem pending_branch_named_if cs1 ck el b uid q :
  wellFormed (cs1 ++ [ck]) (Some el) b →
  Js.includes (caseId ck) "IF" = true →
  doAttached ck = Some q →
  uid ∉ (caseId <$> (cs1 ++ [ck])) →
  ∃ b',
    onPendingConnection (connection (doSlot ck)) uid b = Some b' ∧
    inputList b' =
      caseSlots (cs1 ++ [ck]) ++ [elseSlot el] ++
      caseSlots [newCase uid (connCounter b)].
Proof.
  intros Hwf Hinc Hq Hu.
  pose proof Hwf as [Hl _ _ Hconns _ _ _].
  destruct (wellFormed_names _ _ _ Hwf) as [Hnd Htr].
  pose proof (wellFormed_uidFresh _ _ _ _ Hwf Hu) as Hfr.
  destruct (wellFormed_lookup_if _ _ _ _ _ Hl) as (_ & Hx & _ & _).
  set (i := 2 * length cs1 + 1) in *.
  assert (Hlen : length (inputList b) = i + 2).
  { rewrite Hl, length_app, caseSlots_length, length_app. simpl. lia. }
  assert (Hw : elseWanted (connection (doSlot ck)) b = false).
  { unfold elseWanted. rewrite (getInput_else _ _ _ Hl). done. }
  eexists. split.
  - apply (pending_grow _ uid b i (doSlot ck)); try done.
    + by apply find_own_connection.
    + cbn [connection doSlot targetConnection name]. rewrite Hq, includes_do, Hinc.
      done.
    + rewrite lookup_ge_None_2 by lia. done.
    + lia.
  - unfold withCaseAt. cbn [inputList]. rewrite <- Hlen.
    rewrite take_ge, drop_ge by lia. rewrite Hl, app_nil_r.
    by rewrite <- !app_assoc.
Qed.

Lemma pending_branch_named_if_witness :
  wellFormed ([firstCase] ++ [ifNamedCase]) (Some (6, None)) ifNamedBlock ∧
  ∃ b',
    onPendingConnection (connection (doSlot ifNamedCase)) "u1" ifNamedBlock
      = Some b' ∧
    inputList b' =
      caseSlots ([firstCase] ++ [ifNamedCase]) ++ [elseSlot (6, None)] ++
      caseSlots [newCase "u1" 7].
Proof.
  split; [solve_wellFormed|].
  apply (pending_branch_named_if [firstCase] ifNamedCase (6, None)
           ifNamedBlock "u1" stmtC);
    [ solve_wellFormed | reflexivity | reflexivity | compute_done ].
Defined.

(** ** [finalizeConnections] *)

(** X8.  The rebuild of a well-formed block returns a well-formed block
    that holds the same recorded pairs in the same order and the same Else
    attachment; an Else slot is there exactly when something was attached
    to it.  It sets [elseifCount] to the number of recorded pairs less
    one (0 when there is none) and [elseCount] to 1 or 0, and leaves the
    statement connections of the block as they were. *)
Theorem finalize_keeps_wellFormed cs e b :
  wellFormed cs e b →
  ∃ b' cs' e',
    finalizeConnections b = Some b' ∧
    wellFormed cs' e' b' ∧
    recorded cs' = recorded cs ∧
    elseTarget e' = elseTarget e ∧
    Js.defined e' = Js.defined (elseTarget e) ∧
    elseifCount b' = Z.max (Z.of_nat (length (recorded cs)) - 1) 0 ∧
    elseCount b' = (if Js.defined (elseTarget e) then 1 else 0)%Z ∧
    nextConnection b' = nextConnection b ∧
    previousConnection b' = previousConnection b.
Proof.
  intros Hwf.
  destruct (finalize_invariant _ _ _ Hwf)
    as (b' & cs' & e' & Hfin & Hwf' & Hrec & Het & Hde & Hnx & Hpv & Hn & Hm).
  exists b', cs', e'. by split_and!.
Qed.

Lemma finalize_keeps_wellFormed_witness :
  wellFormed scenarioCases (Some (8, Some stmtD)) scenarioBlock ∧
  ∃ b' cs' e',
    finalizeConnections scenarioBlock = Some b' ∧
    wellFormed cs' e' b' ∧
    recorded cs' = recorded scenarioCases ∧
    elseTarget e' = elseTarget (Some (8, Some stmtD)) ∧
    Js.defined e' = Js.defined (elseTarget (Some (8, Some stmtD))) ∧
    elseifCount b' = Z.max (Z.of_nat (length (recorded scenarioCases)) - 1) 0 ∧
    elseCount b' =
      (if Js.defined (elseTarget (Some (8, Some stmtD))) then 1%Z else 0%Z) ∧
    nextConnection b' = nextConnection scenarioBlock ∧
    previousConnection b' = previousConnection scenarioBlock.
Proof.
  split; [solve_wellFormed|].
  apply (finalize_keeps_wellFormed scenarioCases (Some (8, Some stmtD))
           scenarioBlock).
  solve_wellFormed.
Defined.

(** X9.  After the rebuild the block has an Else slot exactly when
    something was attached to the Else slot before: an empty Else slot is
    removed, and one that holds a block is made again, last in the list,
    holding that block. *)
Theorem finalize_else_slot cs e b :
  wellFormed cs e b →
  ∃ b',
    finalizeConnections b = Some b' ∧
    hasElse b' = Js.defined (elseTarget e) ∧
    (getInput "ELSE" b' ≫= λ input, targetConnection (connection input))
      = elseTarget e ∧
    (hasElse b' = true → name <$> last (inputList b') = Some "ELSE").
Proof.
  intros Hwf.
  destruct (finalize_invariant _ _ _ Hwf)
    as (b' & cs' & e' & Hfin & Hwf' & _ & Het & Hde & _).
  pose proof Hwf' as [Hl _ _ _ _ _ _].
  exists b'. unfold hasElse. rewrite (getInput_else _ _ _ Hl).
  split_and!; [done| | |].
  - rewrite <- Hde. by destruct e'.
  - rewrite <- Het. by destruct e' as [[n o]|].
  - rewrite Hl. destruct e' as [el|]; [|done]. intros _.
    change (elseSlots (Some el)) with [elseSlot el]. by rewrite last_snoc.
Qed.

Lemma finalize_else_slot_witness :
  wellFormed scenarioCases (Some (8, Some stmtD)) scenarioBlock ∧
  ∃ b',
    finalizeConnections scenarioBlock = Some b' ∧
    hasElse b' = Js.defined (elseTarget (Some (8, Some stmtD))) ∧
    (getInput "ELSE" b' ≫= λ input, targetConnection (connection input))
      = elseTarget (Some (8, Some stmtD)) ∧
    (hasElse b' = true → name <$> last (inputList b') = Some "ELSE").
Proof.
  split; [solve_wellFormed|].
  apply (finalize_else_slot scenarioCases (Some (8, Some stmtD)) scenarioBlock).
  solve_wellFormed.
Defined.

(** X10.  When no case slot holds anything, the rebuild leaves the first
    case pair of the block alone, with its name and its connections
    whatever its identifier is, followed by the Else slot if that held
    something; [elseifCount] is 0. *)
Theorem finalize_nothing_attached c1 cs e b :
  wellFormed (c1 :: cs) e b →
  recorded (c1 :: cs) = [] →
  ∃ b' e',
    finalizeConnections b = Some b' ∧
    inputList b' = caseSlots [c1] ++ elseSlots e' ∧
    elseTarget e' = elseTarget e ∧
    Js.defined e' = Js.defined (elseTarget e) ∧
    elseifCount b' = 0%Z.
Proof.
  intros Hwf Hrec.
  destruct (finalizeConnections_spec _ _ _ Hwf)
    as (b' & CS & e' & Hfin & Hwf' & Hids & Hpairs & He & Hn & Hm & Hnx & Hpv).
  destruct (elseTarget_rebuilt _ _ He) as [Het Hde].
  rewrite Hrec in *. simpl in Hids, Hn.
  apply fmap_nil_inv in Hids as ->.
  assert (Hc1 : populated c1 = false).
  { destruct (populated c1) eqn:Hp; [|done].
    unfold recorded in Hrec. rewrite filter_cons, decide_True in Hrec by done.
    done. }
  destruct Hwf' as [Hl' _ _ _ _ _ _].
  exists b', e'. split_and!; [done| |done|done|done].
  rewrite Hl'. cbn [head length app].
  rewrite leftoverAfter_not_in by apply not_elem_of_nil.
  by rewrite cleared_unpopulated.
Qed.

Lemma finalize_nothing_attached_witness :
  wellFormed [newCase "3" 4; newCase "7" 6] (Some (8, Some stmtD))
    (mkBlock (caseSlots [newCase "3" 4; newCase "7" 6] ++
              elseSlots (Some (8, Some stmtD)))
             (Some (mkConnection 2 NEXT_STATEMENT None None))
             (Some (mkConnection 3 PREVIOUS_STATEMENT None None)) 0 0 9) ∧
  ∃ b' e',
    finalizeConnections
      (mkBlock (caseSlots [newCase "3" 4; newCase "7" 6] ++
                elseSlots (Some (8, Some stmtD)))
               (Some (mkConnection 2 NEXT_STATEMENT None None))
               (Some (mkConnection 3 PREVIOUS_STATEMENT None None)) 0 0 9)
      = Some b' ∧
    inputList b' = caseSlots [newCase "3" 4] ++ elseSlots e' ∧
    elseTarget e' = elseTarget (Some (8, Some stmtD)) ∧
    Js.defined e' = Js.defined (elseTarget (Some (8, Some stmtD))) ∧
    elseifCount b' = 0%Z.
Proof.
  split; [solve_wellFormed|].
  apply (finalize_nothing_attached (newCase "3" 4) [newCase "7" 6]
           (Some (8, Some stmtD)));
    [ solve_wellFormed | reflexivity ].
Defined.

(** X11.  When the first pair of a well-formed block is [IF0]/[DO0], the
    rebuild leaves exactly the canonical slot list: the pairs [0 .. n-1]
    for the [n] recorded pairs (the pair 0 alone when nothing was
    recorded), then an Else slot if something was attached to it; the
    counts say the same, and the recorded pairs are kept. *)
Theorem finalize_canonical_form cs e b :
  wellFormed cs e b →
  caseId <$> head cs = Some "0" →
  ∃ b',
    finalizeConnections b = Some b' ∧
    slotNames b' =
      canonicalNames (length (recorded cs) `max` 1) ++
      (if Js.defined (elseTarget e) then ["ELSE"] else []) ∧
    elseifCount b' = Z.of_nat (length (recorded cs) `max` 1 - 1) ∧
    elseCount b' = (if Js.defined (elseTarget e) then 1 else 0)%Z ∧
    collectTargetCaseConns b' = recorded cs.
Proof. apply finalize_canonical. Qed.

Lemma finalize_canonical_form_witness :
  wellFormed scenarioCases (Some (8, Some stmtD)) scenarioBlock ∧
  ∃ b',
    finalizeConnections scenarioBlock = Some b' ∧
    slotNames b' =
      canonicalNames (length (recorded scenarioCases) `max` 1) ++
      (if Js.defined (elseTarget (Some (8, Some stmtD))) then ["ELSE"] else []) ∧
    elseifCount b' = Z.of_nat (length (recorded scenarioCases) `max` 1 - 1) ∧
    elseCount b' =
      (if Js.defined (elseTarget (Some (8, Some stmtD))) then 1%Z else 0%Z) ∧
    collectTargetCaseConns b' = recorded scenarioCases.
Proof.
  split; [solve_wellFormed|].
  apply (finalize_canonical_form scenarioCases (Some (8, Some stmtD))
           scenarioBlock); [solve_wellFormed | reflexivity].
Defined.

(** X12.  When the first pair of a well-formed block is [IF0]/[DO0], a
    second rebuild changes nothing that can be seen: the same slots with
    the same attachments, and the same counts. *)
Theorem finalize_twice_same cs e b :
  wellFormed cs e b →
  caseId <$> head cs = Some "0" →
  ∃ b1 b2,
    finalizeConnections b = Some b1 ∧
    finalizeConnections b1 = Some b2 ∧
    shape b2 = shape b1 ∧
    elseifCount b2 = elseifCount b1 ∧
    elseCount b2 = elseCount b1.
Proof. apply finalize_twice_when_first_is_zero. Qed.

Lemma finalize_twice_same_witness :
  wellFormed scenarioCases (Some (8, Some stmtD)) scenarioBlock ∧
  ∃ b1 b2,
    finalizeConnections scenarioBlock = Some b1 ∧
    finalizeConnections b1 = Some b2 ∧
    shape b2 = shape b1 ∧
    elseifCount b2 = elseifCount b1 ∧
    elseCount b2 = elseCount b1.
Proof.
  split; [solve_wellFormed|].
  apply (finalize_twice_same scenarioCases (Some (8, Some stmtD))
           scenarioBlock); [solve_wellFormed | reflexivity].
Defined.

(** X13.  A hover that is given up leaves no trace after the rebuild:
    on a well-formed block whose first pair is [IF0]/[DO0], hovering and
    then rebuilding gives the slot names, the recorded pairs and the
    counts that rebuilding alone gives. *)
Theorem hover_then_finalize cs e b x uid :
  wellFormed cs e b →
  caseId <$> head cs = Some "0" →
  x ∈ inputList b →
  uid ∉ (caseId <$> cs) →
  Forall (λ k, Js.includes (caseId k) "IF" = false) cs →
  ∃ b1 b2 b3,
    onPendingConnection (connection x) uid b = Some b1 ∧
    finalizeConnections b1 = Some b2 ∧
    finalizeConnections b = Some b3 ∧
    slotNames b2 = slotNames b3 ∧
    collectTargetCaseConns b2 = collectTargetCaseConns b3 ∧
    elseifCount b2 = elseifCount b3 ∧
    elseCount b2 = elseCount b3.
Proof.
  intros Hwf Hhead Hin Hu Hno.
  destruct (pending_wellFormed _ _ _ _ _ Hwf Hin Hu Hno)
    as (b1 & cs' & e' & Hp & Hwf1 & Hrec & Het & Hh & _).
  destruct (finalize_canonical _ _ _ Hwf Hhead)
    as (b3 & Hf3 & Hn3 & Hc3 & He3 & Hr3).
  rewrite <- Hh in Hhead.
  destruct (finalize_canonical _ _ _ Hwf1 Hhead)
    as (b2 & Hf2 & Hn2 & Hc2 & He2 & Hr2).
  rewrite Hrec, Het in *.
  exists b1, b2, b3. split_and!; congruence.
Qed.

Lemma hover_then_finalize_witness :
  wellFormed scenarioCases (Some (8, Some stmtD)) scenarioBlock ∧
  ∃ b1 b2 b3,
    onPendingConnection (mkConnection 6 INPUT_VALUE (Some ["Boolean"]) (Some boolB)) "u1"
      scenarioBlock = Some b1 ∧
    finalizeConnections b1 = Some b2 ∧
    finalizeConnections scenarioBlock = Some b3 ∧
    slotNames b2 = slotNames b3 ∧
    collectTargetCaseConns b2 = collectTargetCaseConns b3 ∧
    elseifCount b2 = elseifCount b3 ∧
    elseCount b2 = elseCount b3.
Proof.
  split; [solve_wellFormed|].
  apply (hover_then_finalize scenarioCases (Some (8, Some stmtD)) scenarioBlock
           (mkInput "IFk2" (mkConnection 6 INPUT_VALUE (Some ["Boolean"]) (Some boolB))) "u1");
    [ solve_wellFormed | reflexivity | by do 4 right; left | compute_done
    | by repeat constructor ].
Defined.

(** ** [collectTargetCaseConns], [deleteDynamicInputs], [addCaseInputs],
       [addElseInput] *)

(** X14.  Whatever the slot list is, every pair [collectTargetCaseConns]
    records has something on one side at least, there are no more pairs
    than half the number of inputs, and the last input of a list of odd
    length (the Else slot) is not read. *)
Theorem collect_pairs_populated b :
  Forall (λ r, Js.defined (ifTarget r) || Js.defined (doTarget r) = true)
         (collectTargetCaseConns b) ∧
  2 * length (collectTargetCaseConns b) ≤ length (inputList b) ∧
  ∀ x, Nat.Even (length (inputList b)) →
       collectTargetCaseConns (withInputs (inputList b ++ [x]) b) =
       collectTargetCaseConns b.
Proof.
  unfold collectTargetCaseConns.
  destruct (collectPairs_populated (inputList b)) as [H1 H2].
  split_and!; [done|done|]. intros x Hev. by apply collectPairs_odd.
Qed.

(** X15.  On a well-formed block [collectTargetCaseConns] records the
    cases that hold something, in their order, each with what its
    Condition slot and its Branch slot hold; empty cases are skipped and
    the Else attachment is not among them. *)
Theorem collect_records_cases cs e b :
  wellFormed cs e b →
  collectTargetCaseConns b =
    casePair <$> filter (λ c, populated c = true) cs.
Proof.
  intros [Hl _ _ _ _ _ _]. unfold collectTargetCaseConns. rewrite Hl.
  apply collectPairs_slots.
Qed.

Lemma collect_records_cases_witness :
  wellFormed scenarioCases (Some (8, Some stmtD)) scenarioBlock ∧
  collectTargetCaseConns scenarioBlock =
    casePair <$> filter (λ c, populated c = true) scenarioCases.
Proof.
  split; [solve_wellFormed|].
  apply (collect_records_cases scenarioCases (Some (8, Some stmtD))
           scenarioBlock).
  solve_wellFormed.
Defined.

(** X16.  [deleteDynamicInputs] never throws: it leaves two inputs of the
    block (all of them when there are fewer), and changes nothing else.
    When the names are distinct the two it leaves are the first two. *)
Theorem deleteDynamicInputs_returns b :
  ∃ l',
    deleteDynamicInputs b = Some (withInputs l' b) ∧
    length l' = length (inputList b) `min` 2 ∧
    l' ⊆+ inputList b ∧
    (NoDup (slotNames b) → l' = take 2 (inputList b)).
Proof.
  assert (Hex : ∃ l', deleteDynamicInputs b = Some (withInputs l' b) ∧
                      length l' = length (inputList b) `min` 2 ∧
                      l' ⊆+ inputList b).
  { unfold deleteDynamicInputs.
    destruct (inputList b) as [|x l] eqn:Hl.
    - exists []. simpl. by rewrite <- Hl, withInputs_same.
    - simpl. rewrite Nat.sub_0_r.
      destruct (deleteFrom_length (length l) b) as (l' & -> & Hlen & Hsub).
      { by rewrite Hl. }
      exists l'. rewrite Hl in Hsub. by split_and!. }
  destruct Hex as (l' & Hd & Hlen & Hsub). exists l'. split_and!; [done..|].
  intros Hnd. rewrite (deleteDynamicInputs_spec _ Hnd) in Hd.
  injection Hd as Hd. done.
Qed.

(** X17.  [addCaseInputs] on a block that has the pair [IF0]/[DO0] only,
    empty or holding the first of the pairs given, with pairs the
    connection checker accepts (outputs whose check list is null or has
    [Boolean] for the Condition side, previous-statement connections for
    the Branch side): it makes the cases [0 .. n-1] for the [n] pairs
    given, taking [IF0]/[DO0] as case 0, and they hold the pairs in the
    order given. *)
Theorem addCaseInputs_builds c1 todo b :
  wellFormed [c1] None b →
  caseId c1 = "0" →
  covered c1 todo →
  Forall pairFits todo →
  NoDup (peerId <$> (todo ≫= pairPeers)) →
  todo ≠ [] →
  ∃ b' CS,
    addCaseInputs todo b = Some b' ∧
    inputList b' = caseSlots CS ∧
    caseId <$> CS = pretty <$> seq 0 (length todo) ∧
    casePair <$> CS = todo ∧
    sameFields b b'.
Proof.
  intros [Hl _ _ Hconns Hfresh _ _] Hid Hcov Hfits Hnd Hne.
  assert (Hrb : rebuilding 0 todo [] (Some c1) b).
  { split; try done. split; [|done]. apply not_elem_of_nil. }
  destruct (addCaseInputsFrom_spec todo 0 [] (Some c1) b Hrb)
    as (b' & CS & Hadd & Hpairs & [Hl' Hids' _ _ _ _ _] & Hsame & _).
  exists b', CS. split_and!; [done| |done|done|done].
  rewrite Hl'.
  rewrite leftoverAfter_in; [by rewrite app_nil_r|].
  rewrite Hid. change "0" with (pretty 0). apply pretty_not_in_seq.
  destruct todo; [done|simpl; lia].
Qed.

Lemma addCaseInputs_builds_witness :
  wellFormed [newCase "0" 0] None freshBlock ∧
  ∃ b' CS,
    addCaseInputs twoPairs freshBlock = Some b' ∧
    inputList b' = caseSlots CS ∧
    caseId <$> CS = pretty <$> seq 0 (length twoPairs) ∧
    casePair <$> CS = twoPairs ∧
    sameFields freshBlock b'.
Proof.
  split; [solve_wellFormed|].
  apply (addCaseInputs_builds (newCase "0" 0) twoPairs freshBlock);
    [ solve_wellFormed | reflexivity | left; reflexivity
    | unfold twoPairs;
      repeat (apply Forall_cons; split;
              [split; intros p Hp; simpl in Hp; by simplify_eq|]); by apply Forall_nil
    | compute_done | discriminate ].
Defined.

(** X18.  [addElseInput] on a well-formed block without an Else slot
    appends one, made from the next connection.  It holds the connection
    given when that is a previous-statement connection; a connection of
    another type is refused by the connection checker and the new slot
    stays empty. *)
Theorem addElseInput_result cs t b :
  wellFormed cs None b →
  peerId t ∉ (peerId <$> attachedPeers (inputList b)) →
  wellFormed cs
    (Some (connCounter b,
           if bool_decide (peerType t = PREVIOUS_STATEMENT) then Some t
           else None))
    (addElseInput t b).
Proof.
  intros Hwf Hin. case_bool_decide as Ht.
  - by apply addElseInput_wellFormed.
  - destruct Hwf as [? ? ? ? Hfresh ? ?].
    rewrite (addElseInput_refused _ _ Hfresh Ht).
    by apply appendElse_wellFormed.
Qed.

Lemma addElseInput_result_witness :
  wellFormed [newCase "0" 0] None freshBlock ∧
  wellFormed [newCase "0" 0]
    (Some (connCounter freshBlock,
           if bool_decide (peerType stmtC = PREVIOUS_STATEMENT) then Some stmtC
           else None))
    (addElseInput stmtC freshBlock).
Proof.
  split; [solve_wellFormed|].
  apply (addElseInput_result [newCase "0" 0] stmtC freshBlock);
    [ solve_wellFormed | compute_done ].
Defined.

(** ** [init] and [findInputIndexForConnection] *)

(** X19.  [init] on a block that has no inputs and no statement
    connections yet makes a well-formed block with the one empty pair
    [IF0]/[DO0], then the next-statement and the previous-statement
    connection, each a new object, and leaves the counts alone. *)
Theorem init_fresh b :
  inputList b = [] → nextConnection b = None → previousConnection b = None →
  wellFormed [newCase "0" (connCounter b)] None (init b) ∧
  nextConnection (init b) =
    Some (mkConnection (connCounter b + 2) NEXT_STATEMENT None None) ∧
  previousConnection (init b) =
    Some (mkConnection (connCounter b + 3) PREVIOUS_STATEMENT None None) ∧
  connCounter (init b) = connCounter b + 4 ∧
  elseifCount (init b) = elseifCount b ∧ elseCount (init b) = elseCount b.
Proof.
  destruct b as [l nx pv n m k]. simpl. intros -> -> ->.
  unfold init, setPreviousStatement, setNextStatement. simpl.
  replace (k + 2) with (S (S k)) by lia.
  replace (k + 3) with (S (S (S k))) by lia.
  replace (k + 4) with (S (S (S (S k)))) by lia.
  split_and!; try done.
  split; simpl; try done.
  - apply NoDup_singleton.
  - unfold slotConnIds, connIdOf. simpl.
    apply NoDup_cons. split; [|apply NoDup_singleton].
    rewrite list_elem_of_singleton. lia.
  - unfold slotConnIds, connIdOf. simpl.
    repeat (apply Forall_cons; split; [lia|]). done.
  - apply NoDup_nil_2.
  - by repeat (apply Forall_cons; split; [done|]).
Qed.

Lemma init_fresh_witness :
  wellFormed [newCase "0" (connCounter newBlock)] None (init newBlock) ∧
  nextConnection (init newBlock) =
    Some (mkConnection (connCounter newBlock + 2) NEXT_STATEMENT None None) ∧
  previousConnection (init newBlock) =
    Some (mkConnection (connCounter newBlock + 3) PREVIOUS_STATEMENT None None) ∧
  connCounter (init newBlock) = connCounter newBlock + 4 ∧
  elseifCount (init newBlock) = elseifCount newBlock ∧
  elseCount (init newBlock) = elseCount newBlock.
Proof. apply (init_fresh newBlock); reflexivity. Defined.

(** X20.  [findInputIndexForConnection] returns the index of the first
    input whose connection is the one given, so an index inside the slot
    list, and null exactly when no input has that connection.  When the
    connections of the inputs are distinct objects, the connection of the
    input at [i] is found at [i]. *)
Theorem find_index_lookup b :
  (∀ c i, findInputIndexForConnection c b = Some i →
     ∃ x, inputList b !! i = Some x ∧ connId (connection x) = connId c ∧
          ∀ j y, inputList b !! j = Some y → j < i →
                 connId (connection y) ≠ connId c) ∧
  (∀ c, findInputIndexForConnection c b = None ↔ connId c ∉ slotConnIds b) ∧
  (NoDup (slotConnIds b) →
   ∀ i x, inputList b !! i = Some x →
          findInputIndexForConnection (connection x) b = Some i).
Proof.
  split_and!.
  - intros c i Hf. unfold findInputIndexForConnection in Hf.
    apply fmap_Some in Hf as ([j x] & Hf & ->).
    apply list_find_Some in Hf as (Hx & Hc & Hmin). eauto.
  - intros c. split; [|apply find_absent_connection].
    unfold findInputIndexForConnection. intros Hf. apply fmap_None in Hf.
    apply list_find_None in Hf. rewrite Forall_forall in Hf.
    unfold slotConnIds. intros Hin. apply list_elem_of_fmap in Hin as (y & Hy & Hin).
    by apply (Hf y Hin).
  - intros Hnd i x. by apply find_own_connection.
Qed.

(** ** [domToMutation], [deserializeCounts], [deserializeInputs],
       [mutationToDom] *)

(** X21.  What [mutationToDom] prints is what [deserializeCounts] reads,
    for the counts a JavaScript number holds exactly: [parseInt] of the
    decimal form of a safe integer is that integer, so counts [n] and [e]
    of magnitude below 2^53 written as attributes are stored as [n] and
    [e]. *)
Theorem counts_print_parse (n e : Z) b :
  (Z.abs n < 2 ^ 53)%Z → (Z.abs e < 2 ^ 53)%Z →
  Js.parseInt (pretty n) = Some n ∧
  elseifCount (deserializeCounts
                 (mutation [("elseif", pretty n); ("else", pretty e)]) b) = n ∧
  elseCount (deserializeCounts
               (mutation [("elseif", pretty n); ("else", pretty e)]) b) = e.
Proof.
  intros _ _.
  destruct (deserializeCounts_counts
              (mutation [("elseif", pretty n); ("else", pretty e)]) b)
    as [-> ->].
  change (getAttribute (mutation [("elseif", pretty n); ("else", pretty e)])
            "elseif") with (Some (pretty n)).
  change (getAttribute (mutation [("elseif", pretty n); ("else", pretty e)])
            "else") with (Some (pretty e)).
  simpl. by rewrite !parseInt_pretty.
Qed.

Lemma counts_print_parse_witness :
  Js.parseInt (pretty 12%Z) = Some 12%Z ∧
  elseifCount (deserializeCounts
                 (mutation [("elseif", pretty 12%Z); ("else", pretty 1%Z)])
                 freshBlock) = 12%Z ∧
  elseCount (deserializeCounts
               (mutation [("elseif", pretty 12%Z); ("else", pretty 1%Z)])
               freshBlock) = 1%Z.
Proof. apply (counts_print_parse 12 1 freshBlock); reflexivity. Defined.



(** X23.  A canonical block with any number [k] of else-if cases, with or
    without an Else slot, is exported by [mutationToDom]; decoding what
    was exported into a fresh block gives a block with the same slot
    names, the same number of cases, the same presence of an Else slot
    and the counts of the exported block. *)
Theorem roundtrip_every_count k withElse cs e b :
  canonicalBlock k withElse cs e b →
  ∃ b' r b'',
    mutationToDom b = Some (b', r) ∧
    decode r = Some b'' ∧
    slotNames b'' = slotNames b ∧
    caseCount b'' = caseCount b ∧
    hasElse b'' = hasElse b ∧
    elseifCount b'' = elseifCount b' ∧
    elseCount b'' = elseCount b'.
Proof.
  intros Hcb.
  destruct (canonicalBlock_finalize _ _ _ _ _ Hcb)
    as (Hnames & Hcount & Hhas & b' & Hfin & _ & Hn & Hm).
  pose proof (mutationToDom_encoded _ _ Hfin) as Hmut.
  exists b', (encoded b'). rewrite Hnames, Hcount, Hhas, Hn, Hm.
  assert (Hdec : ∃ xml,
    decode (encoded b') = Some (deserializeCounts xml freshBlock) ∧
    Js.parseInt (default "0" (getAttribute xml "elseif")) = Some (Z.of_nat k) ∧
    Js.parseInt (default "0" (getAttribute xml "else")) =
      Some (if withElse then 1 else 0)%Z).
  { unfold encoded. rewrite Hn, Hm.
    destruct (decide (k = 0)) as [->|Hk].
    - destruct withElse; simpl.
      + by exists (mutation [("else", "1")]).
      + by exists (mutation []).
    - rewrite (bool_decide_eq_false_2 (Z.of_nat k = 0%Z)) by lia. simpl.
      destruct withElse; simpl.
      + exists (mutation [("elseif", pretty (Z.of_nat k)); ("else", "1")]).
        split_and!; [done| |done].
        change (Js.parseInt (pretty (Z.of_nat k)) = Some (Z.of_nat k)).
        apply parseInt_pretty.
      + exists (mutation [("elseif", pretty (Z.of_nat k))]).
        split_and!; [done| |done].
        change (Js.parseInt (pretty (Z.of_nat k)) = Some (Z.of_nat k)).
        apply parseInt_pretty. }
  destruct Hdec as (xml & Hdec & Hpn & Hpe).
  destruct (deserializeCounts_decoded xml k _ Hpn Hpe)
    as (cs' & e' & Hwf' & Hids' & _ & He' & _ & Hn' & Hm').
  destruct (wellFormed_canonical_names _ _ _ _ Hwf' Hids') as (HN & HC & HH).
  exists (deserializeCounts xml freshBlock).
  assert (Hde : Js.defined e' = withElse) by (rewrite He'; by destruct withElse).
  rewrite HN, HC, HH, Hde, Hn', Hm'. done.
Qed.

Lemma roundtrip_every_count_witness :
  canonicalBlock 2 true canonicalCases (Some (8, Some stmtD)) canonicalExample ∧
  ∃ b' r b'',
    mutationToDom canonicalExample = Some (b', r) ∧
    decode r = Some b'' ∧
    slotNames b'' = slotNames canonicalExample ∧
    caseCount b'' = caseCount canonicalExample ∧
    hasElse b'' = hasElse canonicalExample ∧
    elseifCount b'' = elseifCount b' ∧
    elseCount b'' = elseCount b'.
Proof.
  assert (Hcb : canonicalBlock 2 true canonicalCases (Some (8, Some stmtD))
                  canonicalExample).
  { split; [solve_wellFormed | reflexivity | intros _; repeat constructor
           | reflexivity | reflexivity]. }
  split; [exact Hcb|].
  apply (roundtrip_every_count 2 true canonicalCases (Some (8, Some stmtD))
           canonicalExample). exact Hcb.
Defined.


(** X25.  The legacy decoder on a block as [init] leaves it, with an
    [inputs] attribute that is not empty: the pair [IF0]/[DO0] is removed
    and the slots are one pair for every entry of the comma-separated
    list, named after the entry, in the order of the list, then an Else
    slot exactly when the [else] attribute is ["true"].  Both counts stay
    0.  When the entries are distinct the block is well formed and every
    slot is empty. *)
Theorem legacy_decoded_shape xml s :
  getAttribute xml "inputs" = Some s → Js.truthy s = true →
  ∃ b',
    domToMutation xml freshBlock = Some b' ∧
    slotNames b' =
      (Js.split "," s ≫= caseNames) ++
      (if bool_decide (getAttribute xml "else" = Some "true")
       then ["ELSE"] else []) ∧
    elseifCount b' = 0%Z ∧ elseCount b' = 0%Z ∧
    (NoDup (Js.split "," s) →
     ∃ cs e, wellFormed cs e b' ∧ caseId <$> cs = Js.split "," s ∧
             Forall (λ c, populated c = false) cs ∧ elseTarget e = None).
Proof.
  intros Hs Ht. rewrite (legacy_decoded _ _ Hs Ht). cbv zeta.
  set (b0 := withInputs [] freshBlock).
  set (ids := Js.split "," s).
  set (b1 := foldl appendCase b0 ids).
  pose proof (foldl_appendCase_names ids b0) as Hnames.
  destruct (foldl_appendCase_fields ids b0) as (_ & _ & Hc1 & Hc2).
  fold b1 in Hnames, Hc1, Hc2.
  assert (Hwf : NoDup ids →
            ∃ cs, wellFormed cs None b1 ∧ caseId <$> cs = ids ∧
                  Forall (λ c, populated c = false) cs).
  { intros Hnd. unfold b1.
    assert (Hne : ids ≠ []) by apply split_nonempty.
    destruct ids as [|id rest]; [done|].
    apply NoDup_cons in Hnd as [Hid Hnd]. simpl.
    exists ([newCase id 4] ++ numberedCases 6 rest). split_and!.
    - apply (foldl_appendCase_wellFormed rest [newCase id 4] (appendCase b0 id));
        [apply legacy_first_wellFormed|done|].
      intros id' Hin. simpl. rewrite list_elem_of_singleton. by intros ->.
    - simpl. by rewrite numberedCases_ids.
    - apply Forall_cons. split; [done|]. apply numberedCases_empty. }
  eexists. split; [done|]. case_bool_decide.
  - split_and!; [|done..|].
    + unfold slotNames in *. simpl. by rewrite fmap_app, Hnames.
    + intros Hnd. destruct (Hwf Hnd) as (cs & Hw & Hi & He).
      eexists cs, (Some (_, None)). split_and!; [|done..].
      by apply appendElse_wellFormed.
  - split_and!; [|done..|].
    + by rewrite Hnames, app_nil_r.
    + intros Hnd. destruct (Hwf Hnd) as (cs & Hw & Hi & He).
      by exists cs, None.
Qed.

Lemma legacy_decoded_shape_witness :
  ∃ b',
    domToMutation (mutation [("inputs", "3,7"); ("else", "true")]) freshBlock
      = Some b' ∧
    slotNames b' =
      (Js.split "," "3,7" ≫= caseNames) ++
      (if bool_decide
            (getAttribute (mutation [("inputs", "3,7"); ("else", "true")])
               "else" = Some "true")
       then ["ELSE"] else []) ∧
    elseifCount b' = 0%Z ∧ elseCount b' = 0%Z ∧
    (NoDup (Js.split "," "3,7") →
     ∃ cs e, wellFormed cs e b' ∧ caseId <$> cs = Js.split "," "3,7" ∧
             Forall (λ c, populated c = false) cs ∧ elseTarget e = None).
Proof.
  apply (legacy_decoded_shape
           (mutation [("inputs", "3,7"); ("else", "true")]) "3,7");
    reflexivity.
Defined.

(** X26.  On a well-formed block whose first pair is [IF0]/[DO0],
    exporting twice gives the same element twice, and the second export
    leaves the slots and their attachments as the first one made them. *)
Theorem export_twice cs e b :
  wellFormed cs e b →
  caseId <$> head cs = Some "0" →
  ∃ b1 b2 r,
    mutationToDom b = Some (b1, r) ∧
    mutationToDom b1 = Some (b2, r) ∧
    shape b2 = shape b1.
Proof.
  intros Hwf Hhead.
  destruct (finalize_twice_when_first_is_zero _ _ _ Hwf Hhead)
    as (b1 & b2 & Hf1 & Hf2 & Hsh & Hn & Hm).
  exists b1, b2, (encoded b1). split_and!; [by apply mutationToDom_encoded| |done].
  rewrite (mutationToDom_encoded _ _ Hf2). unfold encoded. by rewrite Hn, Hm.
Qed.

Lemma export_twice_witness :
  wellFormed scenarioCases (Some (8, Some stmtD)) scenarioBlock ∧
  ∃ b1 b2 r,
    mutationToDom scenarioBlock = Some (b1, r) ∧
    mutationToDom b1 = Some (b2, r) ∧
    shape b2 = shape b1.
Proof.
  split; [solve_wellFormed|].
  apply (export_twice scenarioCases (Some (8, Some stmtD)) scenarioBlock);
    [solve_wellFormed | reflexivity].
Defined.

(** X27.  [deserializeCounts] coerces what is not a number: an attribute
    value for which [parseInt] gives NaN gives the count 0, and when both
    are such the slots are left as they were.  A value that reads as a
    safe integer (of magnitude below 2^53) is stored as read, whatever its
    sign. *)
Theorem deserializeCounts_non_numeric xml b :
  let sn := default "0" (getAttribute xml "elseif") in
  let se := default "0" (getAttribute xml "else") in
  (Js.parseInt sn = None → elseifCount (deserializeCounts xml b) = 0%Z) ∧
  (Js.parseInt se = None → elseCount (deserializeCounts xml b) = 0%Z) ∧
  (Js.parseInt sn = None → Js.parseInt se = None →
     deserializeCounts xml b = withCounts 0 0 b) ∧
  (∀ z, Js.parseInt sn = Some z → (Z.abs z < 2 ^ 53)%Z →
        elseifCount (deserializeCounts xml b) = z) ∧
  (∀ z, Js.parseInt se = Some z → (Z.abs z < 2 ^ 53)%Z →
        elseCount (deserializeCounts xml b) = z).
Proof.
  intros sn se. destruct (deserializeCounts_counts xml b) as [Hn He].
  fold sn in Hn. fold se in He. split_and!.
  - intros H. by rewrite Hn, H.
  - intros H. by rewrite He, H.
  - intros H1 H2. unfold deserializeCounts. fold sn se. by rewrite H1, H2.
  - intros z H _. by rewrite Hn, H.
  - intros z H _. by rewrite He, H.
Qed.

Lemma deserializeCounts_non_numeric_witness :
  Js.parseInt "abc" = None ∧ Js.parseInt "n/a" = None ∧
  deserializeCounts (mutation [("elseif", "abc"); ("else", "n/a")]) freshBlock
    = withCounts 0 0 freshBlock.
Proof.
  split; [reflexivity|]. split; [reflexivity|].
  apply (deserializeCounts_non_numeric
           (mutation [("elseif", "abc"); ("else", "n/a")]) freshBlock);
    reflexivity.
Defined.

(** X28.  On a well-formed block [mutationToDom] first rebuilds, then
    returns no element exactly when both counts are 0; otherwise it
    returns a [mutation] element whose attributes are [elseif], present
    only when the count is not 0, and [else] with the value ["1"], present
    exactly when the rebuilt block has an Else slot.  When the first pair
    of the block is [IF0]/[DO0], no element is returned exactly when the
    rebuilt slot list is [IF0], [DO0]. *)
Theorem mutationToDom_export cs e b :
  wellFormed cs e b →
  ∃ b' r,
    mutationToDom b = Some (b', r) ∧
    finalizeConnections b = Some b' ∧
    (r = None ↔ elseifCount b' = 0%Z ∧ elseCount b' = 0%Z) ∧
    (∀ el, r = Some el →
       tagName el = "mutation" ∧
       attributes el =
         (if bool_decide (elseifCount b' = 0%Z) then []
          else [("elseif", pretty (elseifCount b'))]) ++
         (if hasElse b' then [("else", "1")] else [])) ∧
    (elseifCount b' = 0%Z → exportedAttr r "elseif" = None) ∧
    (hasElse b' = false → exportedAttr r "else" = None) ∧
    (hasElse b' = true → exportedAttr r "else" = Some "1") ∧
    (caseId <$> head cs = Some "0" →
     (r = None ↔ slotNames b' = ["IF0"; "DO0"])).
Proof.
  intros Hwf.
  destruct (mutationToDom_attributes _ _ _ Hwf)
    as (b' & r & Hmut & Hfin & Hnone & Hattrs & H1 & H2 & H3).
  exists b', r. split_and!; try done.
  intros Hhead. rewrite Hnone.
  by apply (export_none_iff_default cs e b b').
Qed.

Lemma mutationToDom_export_witness :
  wellFormed scenarioCases (Some (8, Some stmtD)) scenarioBlock ∧
  ∃ b' r,
    mutationToDom scenarioBlock = Some (b', r) ∧
    finalizeConnections scenarioBlock = Some b' ∧
    (r = None ↔ elseifCount b' = 0%Z ∧ elseCount b' = 0%Z) ∧
    (∀ el, r = Some el →
       tagName el = "mutation" ∧
       attributes el =
         (if bool_decide (elseifCount b' = 0%Z) then []
          else [("elseif", pretty (elseifCount b'))]) ++
         (if hasElse b' then [("else", "1")] else [])) ∧
    (elseifCount b' = 0%Z → exportedAttr r "elseif" = None) ∧
    (hasElse b' = false → exportedAttr r "else" = None) ∧
    (hasElse b' = true → exportedAttr r "else" = Some "1") ∧
    (caseId <$> head scenarioCases = Some "0" →
     (r = None ↔ slotNames b' = ["IF0"; "DO0"])).
Proof.
  split; [solve_wellFormed|].
  apply (mutationToDom_export scenarioCases (Some (8, Some stmtD))
           scenarioBlock).
  solve_wellFormed.
Defined.
